(** * A shallow embedding of the client-side data-access layer

    The development follows the TypeScript sources:
    - [types/errors.ts]            : [ErrorCategory], [AppError], [RetryConfig]
    - [utils/retry.ts]             : module [Retry]
    - [utils/error-handler.ts]     : module [ErrorHandler]
    - [services/auth-service.ts]   : module [AuthService]
    - [services/api-client.ts]     : module [ApiClient]
    - [lib/websocket-manager.ts]   : module [WsManager]

    Conventions.  The delays of [utils/retry.ts] are Numbers as JavaScript
    has them, IEEE 754 doubles ([float], the binary64 of the kernel), and
    [Math.pow] is a parameter.  The other numbers take integer values that
    a double holds exactly and are modelled by exact arithmetic: the
    numbers of a JSON text by rationals ([Q]), status codes and clock
    readings by integers ([Z]), counters and loop indices by [nat].  A
    function that may throw returns a sum or an option.  Objects
    that are shared by reference live in an explicit heap and are named by
    their address; the calls a module makes to its collaborators are kept
    in a log, oldest first. *)

From stdpp Require Import gmap strings list pretty.
From Stdlib Require Import Ascii QArith Qminmax Qpower.
From Stdlib Require Import PrimFloat SpecFloat FloatOps.

Close Scope Q_scope.

(** ** JavaScript values

    What [JSON.parse] can return.  An object is its list of own properties
    in property order, each key occurring once. *)

#[local] Unset Elimination Schemes.
Inductive json : Type :=
  | JNull
  | JBool (b : bool)
  | JNumber (n : Q)
  | JString (s : string)
  | JArray (items : list json)
  | JObject (fields : list (string * json)).
#[local] Set Elimination Schemes.

(** [ToBoolean]: the falsy values are [null], [false], [0] and the empty
    string. *)
Definition truthy (v : json) : bool :=
  match v with
  | JNull => false
  | JBool b => b
  | JNumber n => negb (Qeq_bool n 0)
  | JString s => negb (String.eqb s "")
  | JArray _ | JObject _ => true
  end.

(** [undefined] is [None]. *)
Definition truthyOpt (v : option json) : bool :=
  match v with
  | Some v => truthy v
  | None => false
  end.

(** A string read from storage, or [null]. *)
Definition truthyStr (v : option string) : bool :=
  match v with
  | Some s => negb (String.eqb s "")
  | None => false
  end.

Fixpoint assoc (key : string) (fields : list (string * json)) : option json :=
  match fields with
  | [] => None
  | (k, v) :: rest => if String.eqb k key then Some v else assoc key rest
  end.

(** [v.key] for a property name that no prototype defines (such as [exp],
    [sub], [message] or [code]) on a non-null value: only an object can
    have it. *)
Definition getProperty (v : json) (key : string) : option json :=
  match v with
  | JObject fields => assoc key fields
  | _ => None
  end.

(** [v?.key], for the same property names. *)
Definition optionalProperty (v : json) (key : string) : option json :=
  match v with
  | JNull => None
  | _ => getProperty v key
  end.

(** [a || b]. *)
Definition orElse (a : option json) (b : json) : json :=
  match a with
  | Some v => if truthy v then v else b
  | None => b
  end.

(** A thrown [Error] object; it is truthy whatever its message. *)
Record Error : Type := mkError { reason : string }.

(** [String.prototype.includes]. *)
Fixpoint includes (s sub : string) : bool :=
  if String.prefix sub s then true
  else match s with
       | EmptyString => false
       | String _ s' => includes s' sub
       end.

(** [String.prototype.split] at a one-character separator. *)
Fixpoint split (sep : Ascii.ascii) (s : string) : list string :=
  match s with
  | EmptyString => [EmptyString]
  | String c s' =>
      if Ascii.eqb c sep then EmptyString :: split sep s'
      else match split sep s' with
           | [] => [String c EmptyString]
           | part :: parts => String c part :: parts
           end
  end.

(** [s.replace(/from/g, to)] for single characters. *)
Fixpoint replaceAll (from to : Ascii.ascii) (s : string) : string :=
  match s with
  | EmptyString => EmptyString
  | String c s' => String (if Ascii.eqb c from then to else c) (replaceAll from to s')
  end.

(** [s.replace(/c/g, '')]. *)
Fixpoint removeAll (c : Ascii.ascii) (s : string) : string :=
  match s with
  | EmptyString => EmptyString
  | String c' s' => if Ascii.eqb c' c then removeAll c s' else String c' (removeAll c s')
  end.

(** [c.repeat(n)]. *)
Fixpoint repeatChar (c : Ascii.ascii) (n : nat) : string :=
  match n with
  | 0 => EmptyString
  | S n' => String c (repeatChar c n')
  end.

(** ** JavaScript numbers

    A Number is an IEEE 754 binary64 value; [*] and [+] on [float] are the
    operations of the standard, rounding to nearest, ties to even, as the
    language prescribes. *)

(** The value of a Number that is not [NaN]: a real number, which is
    rational, or an infinity. *)
Inductive Extended : Type :=
  | NegInfinity
  | Real (q : Q)
  | PosInfinity.

(** [None] is [NaN]; both zeros have the value 0. *)
Definition valueOf (x : float) : option Extended :=
  match Prim2SF x with
  | S754_nan => None
  | S754_zero _ => Some (Real 0)
  | S754_infinity false => Some PosInfinity
  | S754_infinity true => Some NegInfinity
  | S754_finite s m e =>
      Some (Real (inject_Z (if s then Zneg m else Zpos m) * Qpower 2 e))
  end.

(** The order of the values. *)
Definition extendedLe (a b : Extended) : Prop :=
  match a, b with
  | NegInfinity, _ => True
  | _, PosInfinity => True
  | Real p, Real q => (p <= q)%Q
  | _, _ => False
  end.

(** [Number::lessThan] on two values: the comparison of the reals, with
    the infinities at the two ends. *)
Definition extendedLt (a b : Extended) : bool :=
  match a, b with
  | _, NegInfinity => false
  | NegInfinity, _ => true
  | PosInfinity, _ => false
  | Real _, PosInfinity => true
  | Real p, Real q => negb (Qle_bool q p)
  end.





(** The Number is the zero of the given sign. *)
Definition isZero (negative : bool) (x : float) : bool :=
  match Prim2SF x with
  | S754_zero s => Bool.eqb s negative
  | _ => false
  end.

(** [Math.min] of two Numbers: [NaN] when one of them is, the negative
    zero before the positive one, and the smaller one otherwise. *)
Definition Math_min (x y : float) : float :=
  match valueOf x, valueOf y with
  | Some a, Some b =>
      if isZero true y && isZero false x then y
      else if extendedLt b a then y
      else x
  | _, _ => nan
  end.

(** The Number that a counter holds after [n] increments from 0. *)
Fixpoint numberOf (n : nat) : float :=
  match n with
  | 0 => 0%float
  | S k => (numberOf k + 1)%float
  end.

(** ** types/errors.ts *)

Inductive ErrorCategory : Type :=
  | NETWORK | API | WEBSOCKET | VALIDATION | AUTHENTICATION | UNKNOWN.

Record AppError : Type := mkAppError {
  message : string;
  code : string;
  category : ErrorCategory;
  statusCode : option Z;
  details : option json;
  timestamp : string;
}.

Record RetryConfig : Type := mkRetryConfig {
  maxAttempts : nat;
  initialDelay : float;
  maxDelay : float;
  backoffMultiplier : float;
  retryableErrors : list ErrorCategory;
}.

(** ** utils/retry.ts *)

Module Retry.

Definition DEFAULT_RETRY_CONFIG : RetryConfig :=
  {| maxAttempts := 3;
     initialDelay := 1000%float;
     maxDelay := 30000%float;
     backoffMultiplier := 2%float;
     retryableErrors := [] |}.

Definition shouldRetry (attempt : nat) (config : RetryConfig) : bool :=
  (attempt <? maxAttempts config)%nat.

(** What the caller of [withRetry] observes: the promise resolves with a
    value or rejects with the thrown value.  [lastError] starts out
    [undefined], which is [None]. *)
Inductive Settled (T E : Type) : Type :=
  | Resolve (value : T)
  | Throw (error : option E).
Arguments Resolve {T E} value.
Arguments Throw {T E} error.

(** The effects of one run, in the order they happen. *)
Inductive Effect : Type :=
  | Invoke (attempt : nat)
  | Sleep (delay : float).

Section Platform.
(** [Math.pow]: the language leaves its result to the implementation
    ("an implementation-approximated value"), so it is a parameter. *)
Variable Math_pow : float → float → float.

Definition getRetryDelay (attempt : nat) (config : RetryConfig) : float :=
  let exponentialDelay :=
    (initialDelay config
     * Math_pow (backoffMultiplier config) (numberOf attempt))%float in
  Math_min exponentialDelay (maxDelay config).

Section WithRetry.
Context {W T E : Type}.
(** [operation] is an arbitrary effectful thunk: it reads and changes a
    world [W] and resolves ([inl]) or rejects ([inr]). *)
Variable operation : W → (T + E) * W.
Variable config : RetryConfig.
Variable shouldRetryError : option (E → bool).

(** The body of the [for] loop.  [remaining] is
    [maxAttempts - attempt], so the loop test [attempt < maxAttempts]
    is [remaining ≠ 0]. *)
Fixpoint retryLoop (remaining attempt : nat) (lastError : option E)
    (w : W) (log : list Effect) : Settled T E * W * list Effect :=
  match remaining with
  | 0 => (Throw lastError, w, log)
  | S remaining' =>
      let '(r, w') := operation w in
      let log' := log ++ [Invoke attempt] in
      match r with
      | inl result => (Resolve result, w', log')
      | inr error =>
          if match shouldRetryError with
             | Some p => negb (p error)
             | None => false
             end
          then (Throw (Some error), w', log')
          else
            let hasMoreAttempts := shouldRetry (attempt + 1) config in
            if negb hasMoreAttempts
            then (Throw (Some error), w', log')
            else
              let delay := getRetryDelay attempt config in
              retryLoop remaining' (attempt + 1) (Some error) w'
                        (log' ++ [Sleep delay])
      end
  end.

Definition withRetry (w : W) : Settled T E * W * list Effect :=
  retryLoop (maxAttempts config) 0 None w [].

(** The world before the [k]-th invocation (counting from 0) and what
    that invocation settles with, were the operation called again and
    again. *)
Fixpoint worldBefore (k : nat) (w : W) : W :=
  match k with
  | 0 => w
  | S k' => worldBefore k' (snd (operation w))
  end.

Definition outcomeAt (k : nat) (w : W) : T + E :=
  fst (operation (worldBefore k w)).

Definition retryable (error : E) : bool :=
  match shouldRetryError with
  | Some p => p error
  | None => true
  end.

End WithRetry.

(** The effects of [n] invocations in a row, the first at index
    [attempt], with the backoff delay of the failed attempt slept between
    two invocations. *)
Fixpoint schedule (config : RetryConfig) (attempt n : nat) : list Effect :=
  match n with
  | 0 => []
  | S n' =>
      Invoke attempt ::
      match n' with
      | 0 => []
      | S _ => Sleep (getRetryDelay attempt config) :: schedule config (S attempt) n'
      end
  end.

End Platform.

Definition isInvoke (ev : Effect) : bool :=
  match ev with Invoke _ => true | Sleep _ => false end.

(** How many times the operation was called in a run. *)
Definition invocations (log : list Effect) : nat :=
  length (List.filter isInvoke log).

(** An operation that counts its invocations in the world and rejects
    every one of them with the number of the invocation. *)
Definition alwaysRejects (w : nat) : (unit + nat) * nat := (inr w, S w).

(** What [Math.pow] returns for the arguments of the examples below:
    1 at the exponent 0, the powers of two 2, 8, 16 and 1024, [Infinity]
    for 2 to the 1024, which no double holds, and a half to the 1. *)
Definition examplePow (base exponent : float) : float :=
  if (exponent =? 0)%float then 1%float
  else if (base =? 2)%float then
    if (exponent =? 1)%float then 2%float
    else if (exponent =? 3)%float then 8%float
    else if (exponent =? 4)%float then 16%float
    else if (exponent =? 10)%float then 1024%float
    else if (exponent =? 1024)%float then infinity
    else nan
  else if (base =? 0.5)%float then
    if (exponent =? 1)%float then 0.5%float else nan
  else nan.



Definition isSleep (ev : Effect) : bool :=
  match ev with Sleep _ => true | Invoke _ => false end.

(** The milliseconds that a delay asks of [setTimeout]: a negative one
    and one that is not a finite number count as 0, as [setTimeout]
    takes them. *)
Definition timeoutOf (delay : float) : Q :=
  match valueOf delay with
  | Some (Real q) => Qmax 0 q
  | _ => 0%Q
  end.

(** How many times a run went to sleep, and for how long in total. *)
Definition sleeps (log : list Effect) : nat :=
  length (List.filter isSleep log).

Fixpoint slept (log : list Effect) : Q :=
  match log with
  | [] => 0%Q
  | Sleep delay :: rest => (timeoutOf delay + slept rest)%Q
  | Invoke _ :: rest => slept rest
  end.

(** An operation that counts its invocations in the world, rejects the
    first two and resolves from the third on. *)
Definition flaky (w : nat) : (nat + nat) * nat :=
  (if (w <? 2)%nat then inr w else inl w, S w).

End Retry.

(** ** utils/error-handler.ts *)

Module ErrorHandler.

#[global] Instance ErrorCategory_eq_dec : EqDecision ErrorCategory.
Proof. solve_decision. Defined.

Definition isRetryableError (error : AppError) : bool :=
  if bool_decide (category error = NETWORK) then true
  else if bool_decide (category error = WEBSOCKET) then true
  else if match statusCode error with
          | Some c => negb (c =? 0)%Z && (500 <=? c)%Z
          | None => false
          end
       then true
  else if includes (code error) "TIMEOUT" then true
  else if String.eqb (code error) "RATE_LIMIT" then false
  else if match statusCode error with
          | Some c => negb (c =? 0)%Z && (400 <=? c)%Z && (c <? 500)%Z
          | None => false
          end
       then false
  else if bool_decide (category error = AUTHENTICATION) then false
  else if bool_decide (category error = VALIDATION) then false
  else false.

(** The four conditions under which the classifier answers [true]. *)
Definition retryCondition (error : AppError) : Prop :=
  category error = NETWORK
  ∨ category error = WEBSOCKET
  ∨ (∃ c, statusCode error = Some c ∧ (500 ≤ c)%Z)
  ∨ includes (code error) "TIMEOUT" = true.

(** A request timeout reported by the server. *)
Definition requestTimeout : AppError :=
  {| message := "Request timed out"; code := "TIMEOUT_ERROR";
     category := API; statusCode := Some 408%Z;
     details := None; timestamp := "2026-01-01T00:00:00.000Z" |}.

Definition rateLimited : AppError :=
  {| message := "Too many requests. Please try again in 60 seconds.";
     code := "RATE_LIMIT"; category := API; statusCode := Some 429%Z;
     details := None; timestamp := "2026-01-01T00:00:00.000Z" |}.

(** What [handleApiError] reads of an [AxiosError].  The body of a
    response is any value, [undefined] ([None]) included; the value of a
    response header is a string. *)
Record AxiosResponse : Type := mkAxiosResponse {
  status : Z;
  data : option json;
  headers : gmap string string;
}.

Record AxiosError : Type := mkAxiosError {
  response : option AxiosResponse;
  errorMessage : string;                   (* [error.message] *)
}.

(** The object [handleApiError] builds.  It is declared an [AppError],
    but the message of a client error is read from the response body,
    which is untyped: it can be any truthy value. *)
Record ApiAppError : Type := mkApiAppError {
  apiMessage : json;
  apiCode : string;
  apiCategory : ErrorCategory;
  apiStatusCode : option Z;
  apiDetails : option json;
  apiTimestamp : string;
}.

(** The same object at its declared type, [text] standing for its
    message. *)
Definition asAppError (text : string) (e : ApiAppError) : AppError :=
  {| message := text; code := apiCode e; category := apiCategory e;
     statusCode := apiStatusCode e; details := apiDetails e;
     timestamp := apiTimestamp e |}.

(** [v?.key] for a [v] that may be [undefined]. *)
Definition optionalOf (v : option json) (key : string) : option json :=
  match v with
  | Some v => optionalProperty v key
  | None => None
  end.

(** [now] is the value of [new Date().toISOString()]. *)
Definition handleApiError (now : string) (error : AxiosError) : ApiAppError :=
  let timestamp := now in
  match response error with
  | None =>
      {| apiMessage := JString "Unable to connect to the server. Please check your internet connection.";
         apiCode := "NETWORK_ERROR";
         apiCategory := NETWORK;
         apiStatusCode := None;
         apiTimestamp := timestamp;
         apiDetails := Some (JString (errorMessage error)) |}
  | Some r =>
      let statusCode := status r in
      let responseData := data r in
      if (statusCode =? 401)%Z then
        {| apiMessage := JString "Your session has expired. Please log in again.";
           apiCode := "AUTH_ERROR";
           apiCategory := AUTHENTICATION;
           apiStatusCode := Some statusCode;
           apiTimestamp := timestamp;
           apiDetails := responseData |}
      else if (statusCode =? 403)%Z then
        {| apiMessage := JString "You don't have permission to perform this action.";
           apiCode := "FORBIDDEN";
           apiCategory := AUTHENTICATION;
           apiStatusCode := Some statusCode;
           apiTimestamp := timestamp;
           apiDetails := responseData |}
      else if (400 <=? statusCode)%Z && (statusCode <? 500)%Z then
        let message :=
          orElse (optionalOf responseData "message")
                 (orElse (optionalOf responseData "error")
                         (JString "Invalid request. Please check your input.")) in
        if (statusCode =? 404)%Z then
          {| apiMessage := JString "The requested resource was not found.";
             apiCode := "NOT_FOUND";
             apiCategory := API;
             apiStatusCode := Some statusCode;
             apiTimestamp := timestamp;
             apiDetails := responseData |}
        else if (statusCode =? 429)%Z then
          let retryAfter := headers r !! "retry-after" in
          {| apiMessage :=
               JString ("Too many requests. Please try again "
                        +:+ match retryAfter with
                            | Some seconds =>
                                if truthyStr retryAfter
                                then "in " +:+ seconds +:+ " seconds"
                                else "later"
                            | None => "later"
                            end
                        +:+ ".");
             apiCode := "RATE_LIMIT";
             apiCategory := API;
             apiStatusCode := Some statusCode;
             apiTimestamp := timestamp;
             apiDetails := responseData |}
        else
          {| apiMessage := message;
             apiCode := "CLIENT_ERROR";
             apiCategory := VALIDATION;
             apiStatusCode := Some statusCode;
             apiTimestamp := timestamp;
             apiDetails := responseData |}
      else if (500 <=? statusCode)%Z then
        let message :=
          if (statusCode =? 502)%Z || (statusCode =? 503)%Z || (statusCode =? 504)%Z
          then "Service temporarily unavailable. Please try again in a moment."
          else "Something went wrong on our end. Please try again." in
        {| apiMessage := JString message;
           apiCode := "SERVER_ERROR";
           apiCategory := API;
           apiStatusCode := Some statusCode;
           apiTimestamp := timestamp;
           apiDetails := responseData |}
      else
        {| apiMessage := JString "An unexpected error occurred. Please try again.";
           apiCode := "UNKNOWN_ERROR";
           apiCategory := UNKNOWN;
           apiStatusCode := Some statusCode;
           apiTimestamp := timestamp;
           apiDetails := responseData |}
  end.

Definition handleWebSocketError (now : string) (error : Error) : AppError :=
  let timestamp := now in
  if includes (reason error) "timeout" then
    {| message := "Real-time connection timed out. Attempting to reconnect...";
       code := "WEBSOCKET_TIMEOUT";
       category := WEBSOCKET;
       statusCode := None;
       timestamp := timestamp;
       details := Some (JString (reason error)) |}
  else if includes (reason error) "disconnect" then
    {| message := "Real-time connection lost. Reconnecting...";
       code := "WEBSOCKET_DISCONNECTED";
       category := WEBSOCKET;
       statusCode := None;
       timestamp := timestamp;
       details := Some (JString (reason error)) |}
  else if includes (reason error) "connect" || includes (reason error) "connection" then
    {| message := "Unable to establish real-time connection. Retrying...";
       code := "WEBSOCKET_CONNECTION_ERROR";
       category := WEBSOCKET;
       statusCode := None;
       timestamp := timestamp;
       details := Some (JString (reason error)) |}
  else
    {| message := "Real-time connection error occurred.";
       code := "WEBSOCKET_ERROR";
       category := WEBSOCKET;
       statusCode := None;
       timestamp := timestamp;
       details := Some (JString (reason error)) |}.

Definition handleNetworkError (now : string) (error : Error) : AppError :=
  let timestamp := now in
  if includes (reason error) "DNS" || includes (reason error) "ENOTFOUND" then
    {| message := "Unable to reach the server. Please check your internet connection.";
       code := "DNS_ERROR";
       category := NETWORK;
       statusCode := None;
       timestamp := timestamp;
       details := Some (JString (reason error)) |}
  else if includes (reason error) "timeout" || includes (reason error) "ETIMEDOUT" then
    {| message := "Request timed out. Please check your connection and try again.";
       code := "TIMEOUT_ERROR";
       category := NETWORK;
       statusCode := None;
       timestamp := timestamp;
       details := Some (JString (reason error)) |}
  else if includes (reason error) "ECONNREFUSED" then
    {| message := "Unable to connect to the server. The service may be temporarily unavailable.";
       code := "CONNECTION_REFUSED";
       category := NETWORK;
       statusCode := None;
       timestamp := timestamp;
       details := Some (JString (reason error)) |}
  else if includes (reason error) "ENETUNREACH" then
    {| message := "Network is unreachable. Please check your internet connection.";
       code := "NETWORK_UNREACHABLE";
       category := NETWORK;
       statusCode := None;
       timestamp := timestamp;
       details := Some (JString (reason error)) |}
  else
    {| message := "Network error occurred. Please check your connection and try again.";
       code := "NETWORK_ERROR";
       category := NETWORK;
       statusCode := None;
       timestamp := timestamp;
       details := Some (JString (reason error)) |}.

Definition formatErrorMessage (error : AppError) : string := message error.

(** The status codes that [handleApiError] answers with a fixed message. *)
Definition fixedMessageStatus (c : Z) : bool :=
  (c =? 401)%Z || (c =? 403)%Z || (c =? 404)%Z || (c =? 429)%Z.

(** A validation failure whose body names the problem under [error]. *)
Definition unprocessable : AxiosError :=
  {| response :=
       Some {| status := 422;
               data := Some (JObject [("message", JString "");
                                      ("error", JString "Title is required")]);
               headers := ∅ |};
     errorMessage := "Request failed with status code 422" |}.

Definition gatewayTimeout : AxiosError :=
  {| response := Some {| status := 504; data := None; headers := ∅ |};
     errorMessage := "Request failed with status code 504" |}.

End ErrorHandler.

(** ** services/auth-service.ts *)

Module AuthService.

Definition ACCESS_TOKEN : string := "auth_access_token".
Definition REFRESH_TOKEN : string := "auth_refresh_token".
Definition EXPIRES_IN : string := "auth_expires_in".

Record AuthTokens : Type := mkAuthTokens {
  accessToken : string;
  refreshToken : string;
  expiresIn : Z;
}.

(** The two Web Storage areas of the page. *)
Record Browser : Type := mkBrowser {
  localStorage : gmap string string;
  sessionStorage : gmap string string;
}.

(** Which of the two [Storage] objects a reference denotes. *)
Inductive StorageRef : Type := LocalStorage | SessionStorage.

Definition getItem (ref : StorageRef) (key : string) (b : Browser) : option string :=
  match ref with
  | LocalStorage => localStorage b !! key
  | SessionStorage => sessionStorage b !! key
  end.

Definition setItem (ref : StorageRef) (key value : string) (b : Browser) : Browser :=
  match ref with
  | LocalStorage =>
      {| localStorage := <[key := value]> (localStorage b);
         sessionStorage := sessionStorage b |}
  | SessionStorage =>
      {| localStorage := localStorage b;
         sessionStorage := <[key := value]> (sessionStorage b) |}
  end.

Definition removeItem (ref : StorageRef) (key : string) (b : Browser) : Browser :=
  match ref with
  | LocalStorage =>
      {| localStorage := delete key (localStorage b);
         sessionStorage := sessionStorage b |}
  | SessionStorage =>
      {| localStorage := localStorage b;
         sessionStorage := delete key (sessionStorage b) |}
  end.

Definition getStorage (b : Browser) : StorageRef :=
  if truthyStr (getItem LocalStorage ACCESS_TOKEN b) then LocalStorage
  else SessionStorage.

Definition storeTokens (tokens : AuthTokens) (rememberMe : bool) (b : Browser) : Browser :=
  let storage := if rememberMe then LocalStorage else SessionStorage in
  let b := setItem storage ACCESS_TOKEN (accessToken tokens) b in
  let b := setItem storage REFRESH_TOKEN (refreshToken tokens) b in
  setItem storage EXPIRES_IN (pretty (expiresIn tokens)) b.

Definition logout (b : Browser) : Browser :=
  let b := removeItem LocalStorage ACCESS_TOKEN b in
  let b := removeItem LocalStorage REFRESH_TOKEN b in
  let b := removeItem LocalStorage EXPIRES_IN b in
  let b := removeItem SessionStorage ACCESS_TOKEN b in
  let b := removeItem SessionStorage REFRESH_TOKEN b in
  removeItem SessionStorage EXPIRES_IN b.

Definition getAccessToken (b : Browser) : option string :=
  getItem (getStorage b) ACCESS_TOKEN b.

Definition getRefreshToken (b : Browser) : option string :=
  getItem (getStorage b) REFRESH_TOKEN b.

(** [n.toString(16)] for [n < 16]. *)
Definition hexDigit (n : nat) : Ascii.ascii :=
  match n with
  | 0 => "0" | 1 => "1" | 2 => "2" | 3 => "3" | 4 => "4" | 5 => "5"
  | 6 => "6" | 7 => "7" | 8 => "8" | 9 => "9" | 10 => "a" | 11 => "b"
  | 12 => "c" | 13 => "d" | 14 => "e" | _ => "f"
  end%char.

(** ['%' + ('00' + c.charCodeAt(0).toString(16)).slice(-2)] for a
    character of [atob]'s output, whose code is below 256. *)
Definition percentEncode (c : Ascii.ascii) : string :=
  let n := Ascii.nat_of_ascii c in
  String "%"%char (String (hexDigit (n / 16)) (String (hexDigit (n mod 16)) EmptyString)).

Fixpoint percentEncodeAll (s : string) : string :=
  match s with
  | EmptyString => EmptyString
  | String c s' => percentEncode c +:+ percentEncodeAll s'
  end.

Fixpoint allChars (p : Ascii.ascii → bool) (s : string) : bool :=
  match s with
  | EmptyString => true
  | String c s' => p c && allChars p s'
  end.

Definition isAlphanumeric (c : Ascii.ascii) : bool :=
  let n := Ascii.nat_of_ascii c in
  ((65 <=? n) && (n <=? 90)) || ((97 <=? n) && (n <=? 122))
  || ((48 <=? n) && (n <=? 57)).

(** The alphabet of base64, and the one of its URL-safe variant. *)
Definition isBase64Char (c : Ascii.ascii) : bool :=
  isAlphanumeric c || Ascii.eqb c "+" || Ascii.eqb c "/".

Definition isBase64UrlChar (c : Ascii.ascii) : bool :=
  isAlphanumeric c || Ascii.eqb c "-" || Ascii.eqb c "_".

(** What [btoa] returns: characters of the base64 alphabet, padded with
    at most two ["="] to a multiple of four characters. *)
Definition standardBase64 (s : string) : Prop :=
  ∃ body k, s = body +:+ repeatChar "=" k
            ∧ k ≤ 2
            ∧ allChars isBase64Char body = true
            ∧ String.length s mod 4 = 0.

(** [LoginCredentials]; an optional field that is left out is [None]. *)
Record LoginCredentials : Type := mkLoginCredentials {
  username : string;
  password : string;
  rememberMe : option bool;
}.

Section Decoding.
(** The platform functions the decoder calls.  Each returns [None] where
    the JavaScript function throws. *)
Variable atob : string → option string.
Variable decodeURIComponent : string → option string.
Variable JSON_parse : string → option json.
(** [ToNumber] of a value that is neither a number nor a boolean; [None]
    is [NaN]. *)
Variable ToNumber : json → option Q.

Definition base64UrlDecode (str : string) : option string :=
  let base64 := replaceAll "_" "/" (replaceAll "-" "+" str) in
  let padding := String.length base64 mod 4 in
  let base64 :=
    if negb (padding =? 0)%nat
    then base64 +:+ repeatChar "=" (4 - padding)
    else base64 in
  match atob base64 with
  | None => None
  | Some decoded => decodeURIComponent (percentEncodeAll decoded)
  end.

(** [null] is [JNull]. *)
Definition decodeToken (token : string) : json :=
  let parts := split "." token in
  if negb (length parts =? 3)%nat then JNull
  else
    match parts !! 1%nat with
    | None => JNull
    | Some payload =>
        match base64UrlDecode payload with
        | None => JNull
        | Some decoded =>
            match JSON_parse decoded with
            | None => JNull
            | Some v => v
            end
        end
    end.

(** [v <= bound] for a number [bound]: the abstract relational comparison,
    false when [v] converts to [NaN]. *)
Definition jsLe (v : json) (bound : Q) : bool :=
  match v with
  | JNumber n => Qle_bool n bound
  | JBool b => Qle_bool (if b then 1%Q else 0%Q) bound
  | JNull => Qle_bool 0%Q bound
  | _ => match ToNumber v with
         | Some n => Qle_bool n bound
         | None => false
         end
  end.

(** [dateNow] is the value of [Date.now()], in milliseconds. *)
Definition isTokenExpired (dateNow : Z) (token : string) : bool :=
  let payload := decodeToken token in
  if negb (truthy payload) || negb (truthyOpt (getProperty payload "exp")) then true
  else
    let currentTime := (dateNow / 1000)%Z in
    match getProperty payload "exp" with
    | Some exp => jsLe exp (inject_Z (currentTime + 30))
    | None => true
    end.

Definition isAuthenticated (dateNow : Z) (b : Browser) : bool :=
  match getAccessToken b with
  | None => false
  | Some accessToken =>
      if negb (truthyStr (Some accessToken)) then false
      else if isTokenExpired dateNow accessToken then false
      else true
  end.

Section Refreshing.
(** [str => btoa(encodeURIComponent(str).replace(...))]: the base64 text of
    the UTF-8 bytes of [str]. *)
Variable btoaUtf8 : string → string.
Variable JSON_stringify : json → string.

Definition base64UrlEncode (str : string) : string :=
  let base64 := btoaUtf8 str in
  removeAll "=" (replaceAll "/" "_" (replaceAll "+" "-" base64)).

Definition generateMockToken (dateNow : Z) (username : json) (expiresIn : Z) : string :=
  let header := JObject [("alg", JString "HS256"); ("typ", JString "JWT")] in
  let now := (dateNow / 1000)%Z in
  let payload :=
    JObject [("sub", username);
             ("iat", JNumber (inject_Z now));
             ("exp", JNumber (inject_Z (now + expiresIn)))] in
  let encodedHeader := base64UrlEncode (JSON_stringify header) in
  let encodedPayload := base64UrlEncode (JSON_stringify payload) in
  let signature := "mock_signature" in
  encodedHeader +:+ "." +:+ encodedPayload +:+ "." +:+ signature.

(** [refreshAccessToken] up to its [await]: the error it throws, or the
    refresh token it goes on with. *)
Definition refreshAccessTokenBegin (dateNow : Z) (b : Browser) : Error + string :=
  match getRefreshToken b with
  | Some refreshToken =>
      if negb (truthyStr (Some refreshToken))
      then inl (mkError "No refresh token available")
      else if isTokenExpired dateNow refreshToken
      then inl (mkError "Refresh token has expired")
      else inr refreshToken
  | None => inl (mkError "No refresh token available")
  end.

(** [refreshAccessToken] after its [await]: the token it returns and the
    storage it leaves. *)
Definition refreshAccessTokenEnd (dateNow : Z) (refreshToken : string) (b : Browser)
    : string * Browser :=
  let payload := decodeToken refreshToken in
  let username := orElse (optionalProperty payload "sub") (JString "user") in
  let newAccessToken := generateMockToken dateNow username 3600 in
  let storage := getStorage b in
  let b := setItem storage ACCESS_TOKEN newAccessToken b in
  let b := setItem storage EXPIRES_IN "3600" b in
  (newAccessToken, b).

(** [login] after its [await]: the tokens it returns and the storage it
    leaves.  [dateNow1] and [dateNow2] are the readings of [Date.now()]
    in the two calls of [generateMockToken]; the password is not looked
    at. *)
Definition login (dateNow1 dateNow2 : Z) (credentials : LoginCredentials)
    (b : Browser) : AuthTokens * Browser :=
  let mockTokens :=
    {| accessToken := generateMockToken dateNow1 (JString (username credentials)) 3600;
       refreshToken := generateMockToken dateNow2 (JString (username credentials)) 86400;
       expiresIn := 3600 |} in
  let remember :=
    match rememberMe credentials with
    | Some r => r
    | None => false
    end in
  (mockTokens, storeTokens mockTokens remember b).

(** The header and the claims that [generateMockToken] encodes. *)
Definition mockHeader : json :=
  JObject [("alg", JString "HS256"); ("typ", JString "JWT")].

Definition mockPayload (dateNow : Z) (username : json) (expiresIn : Z) : json :=
  JObject [("sub", username);
           ("iat", JNumber (inject_Z (dateNow / 1000)));
           ("exp", JNumber (inject_Z (dateNow / 1000 + expiresIn)))].

(** The platform carries the value [v] through: [btoa] returns standard
    base64 for its JSON text, [atob] and [decodeURIComponent] give the
    text back, and [JSON.parse] the value. *)
Definition carries (v : json) : Prop :=
  standardBase64 (btoaUtf8 (JSON_stringify v))
  ∧ (∃ bytes, atob (btoaUtf8 (JSON_stringify v)) = Some bytes
              ∧ decodeURIComponent (percentEncodeAll bytes) = Some (JSON_stringify v))
  ∧ JSON_parse (JSON_stringify v) = Some v.

End Refreshing.

End Decoding.

(** Stand-ins for the platform decoders, for running the service on one
    hand-made token: the payload segment is taken as it is, and it parses
    to an object with an expiry of 2000000000 seconds. *)
Definition plainAtob (s : string) : option string := Some s.
Definition plainDecodeURIComponent (s : string) : option string := Some s.
Definition fixedParse (s : string) : option json :=
  Some (JObject [("sub", JString "user"); ("exp", JNumber 2000000000%Q)]).
Definition noNumber (v : json) : option Q := None.

(** What the platform decoders return for two tokens that carry the
    claims [{exp: 0}] and [{sub: al, exp: 2000000000}]: [atob] knows the
    base64 text of the two JSON texts, [decodeURIComponent] their
    percent-encoded form, and [JSON.parse] the texts themselves. *)
Definition quote : string := String "034"%char "".

Definition zeroClaimsText : string := "{" +:+ quote +:+ "exp" +:+ quote +:+ ":0}".

Definition claimsText : string :=
  "{" +:+ quote +:+ "sub" +:+ quote +:+ ":" +:+ quote +:+ "al" +:+ quote +:+ ","
  +:+ quote +:+ "exp" +:+ quote +:+ ":2000000000}".

Definition jwtAtob (s : string) : option string :=
  if String.eqb s "eyJleHAiOjB9" then Some zeroClaimsText
  else if String.eqb s "eyJzdWIiOiJhbCIsImV4cCI6MjAwMDAwMDAwMH0="
  then Some claimsText
  else None.

Definition jwtDecodeURIComponent (s : string) : option string :=
  if String.eqb s "%7b%22%65%78%70%22%3a%30%7d" then Some zeroClaimsText
  else if String.eqb s
            ("%7b%22%73%75%62%22%3a%22%61%6c%22%2c"
             +:+ "%22%65%78%70%22%3a%32%30%30%30%30%30%30%30%30%30%7d")
  then Some claimsText
  else None.

Definition jwtParse (s : string) : option json :=
  if String.eqb s zeroClaimsText then Some (JObject [("exp", JNumber 0)])
  else if String.eqb s claimsText
  then Some (JObject [("sub", JString "al"); ("exp", JNumber 2000000000)])
  else None.

(** The two tokens; the payload of the second needs one ["="] of padding. *)
Definition zeroExpiryToken : string :=
  "eyJhbGciOiJIUzI1NiIsInR5cCI6IkpXVCJ9.eyJleHAiOjB9.signature".

Definition validToken : string :=
  "eyJhbGciOiJIUzI1NiIsInR5cCI6IkpXVCJ9"
  +:+ ".eyJzdWIiOiJhbCIsImV4cCI6MjAwMDAwMDAwMH0" +:+ ".signature".

(** A page whose durable scope holds a stale access token and nothing
    else, after a login that did not ask to be remembered. *)
Definition staleDurable : Browser :=
  {| localStorage := {[ ACCESS_TOKEN := "stale.access.token" ]};
     sessionStorage := ∅ |}.

Definition sessionLogin : Browser :=
  storeTokens {| accessToken := "a.b.c"; refreshToken := "r.s.t"; expiresIn := 3600 |}
              false staleDurable.

(** Stand-ins for the platform encoders and decoders that know four JSON
    texts: ["h"] for a header, and ["a"], ["r"] and ["n"] for the claims of
    the access and the refresh token of a login at 1700000000 seconds and
    of the access token of a refresh at 1700003000 seconds. *)
Definition tableStringify (v : json) : string :=
  match getProperty v "exp" with
  | Some (JNumber q) =>
      if Qeq_bool q 1700003600 then "a"
      else if Qeq_bool q 1700086400 then "r"
      else "n"
  | _ => "h"
  end.

Definition tableBtoa (s : string) : string :=
  if String.eqb s "a" then "YQ=="
  else if String.eqb s "r" then "cg=="
  else if String.eqb s "n" then "bg=="
  else "aA==".

Definition tableAtob (s : string) : option string :=
  if String.eqb s "YQ==" then Some "a"
  else if String.eqb s "cg==" then Some "r"
  else if String.eqb s "bg==" then Some "n"
  else if String.eqb s "aA==" then Some "h"
  else None.

Definition tableDecodeURIComponent (s : string) : option string :=
  if String.eqb s "%61" then Some "a"
  else if String.eqb s "%72" then Some "r"
  else if String.eqb s "%6e" then Some "n"
  else if String.eqb s "%68" then Some "h"
  else None.

Definition tableParse (s : string) : option json :=
  if String.eqb s "a"
  then Some (JObject [("sub", JString "ada"); ("iat", JNumber 1700000000);
                      ("exp", JNumber 1700003600)])
  else if String.eqb s "r"
  then Some (JObject [("sub", JString "ada"); ("iat", JNumber 1700000000);
                      ("exp", JNumber 1700086400)])
  else if String.eqb s "n"
  then Some (JObject [("sub", JString "ada"); ("iat", JNumber 1700003000);
                      ("exp", JNumber 1700006600)])
  else None.

Definition ada : LoginCredentials :=
  {| username := "ada"; password := "secret"; rememberMe := Some true |}.

End AuthService.

(** ** services/api-client.ts *)

Module ApiClient.

(** [InternalAxiosRequestConfig & { _retry?: boolean }]. *)
Record RequestConfig : Type := mkRequestConfig {
  url : string;
  method : string;
  headers : gmap string string;
  _retry : bool;
}.

Record AxiosResponse : Type := mkAxiosResponse {
  status : Z;
  statusText : string;
  data : json;
}.

Record AxiosError : Type := mkAxiosError {
  config : option RequestConfig;
  response : option AxiosResponse;
  request : bool;              (* whether [error.request] is set *)
  errorMessage : string;
}.

(** What [formatError] builds. *)
Record FormattedError : Type := mkFormattedError {
  fmtMessage : json;
  fmtStatus : option Z;
  fmtStatusText : option string;
  fmtData : option json;
  fmtCode : json;
  fmtOriginalError : option string;
}.

Definition formatError (error : AxiosError) : FormattedError :=
  match response error with
  | Some r =>
      {| fmtMessage := orElse (optionalProperty (data r) "message") (JString (errorMessage error));
         fmtStatus := Some (status r);
         fmtStatusText := Some (statusText r);
         fmtData := Some (data r);
         fmtCode := orElse (optionalProperty (data r) "code") (JString "API_ERROR");
         fmtOriginalError := None |}
  | None =>
      if request error then
        {| fmtMessage := JString "Network error. Please check your internet connection.";
           fmtStatus := None; fmtStatusText := None; fmtData := None;
           fmtCode := JString "NETWORK_ERROR";
           fmtOriginalError := Some (errorMessage error) |}
      else
        {| fmtMessage := orElse (Some (JString (errorMessage error)))
                                (JString "An unexpected error occurred");
           fmtStatus := None; fmtStatusText := None; fmtData := None;
           fmtCode := JString "UNKNOWN_ERROR";
           fmtOriginalError := None |}
  end.

(** The fulfilment handler of the request interceptor, without its log
    line.  [dateNow] is the reading of [Date.now()] and [suffix] the text
    [Math.random().toString(36).substring(2, 11)]. *)
Definition onRequest (dateNow : Z) (suffix : string) (b : AuthService.Browser)
    (config : RequestConfig) : RequestConfig :=
  let token := AuthService.getAccessToken b in
  let config :=
    match token with
    | Some t =>
        if truthyStr token
        then {| url := url config; method := method config;
                headers := <["Authorization" := "Bearer " +:+ t]> (headers config);
                _retry := _retry config |}
        else config
    | None => config
    end in
  let requestId := "req_" +:+ pretty dateNow +:+ "_" +:+ suffix in
  {| url := url config; method := method config;
     headers := <["X-Request-ID" := requestId]> (headers config);
     _retry := _retry config |}.

(** Promises are named by the order of their creation. *)
Abbreviation PromiseId := nat.

(** [resolve] and [reject] of a queued request are the two capabilities of
    one pending promise. *)
Record QueuedRequest : Type := mkQueuedRequest {
  queuedConfig : RequestConfig;
  queuedPromise : PromiseId;
}.

Inductive Settlement : Type :=
  | ResolvedWith (replayed : RequestConfig)   (* [resolve(axiosInstance(config))] *)
  | RejectedWith (error : Error)
  | RejectedFormatted (error : FormattedError).

(** The observable effects of the interceptor, oldest first. *)
Inductive Effect : Type :=
  | RefreshCalled                                  (* [refreshAccessToken()] *)
  | Dispatched (config : RequestConfig)            (* [axiosInstance(config)] *)
  | Settled (promise : PromiseId) (how : Settlement)
  | LogoutCalled.                                  (* [logout()] *)

Record State : Type := mkState {
  isRefreshing : bool;
  requestQueue : list QueuedRequest;
  (** handlers suspended at [await refreshAccessToken()], each with the
      promise it returned and its [originalRequest] *)
  suspended : list (PromiseId * RequestConfig);
  browser : AuthService.Browser;
  (** [window.location.href]; [None] when [window] is undefined *)
  location : option string;
  nextPromise : PromiseId;
  effects : list Effect;
}.

Definition emit (evs : list Effect) (st : State) : State :=
  {| isRefreshing := isRefreshing st; requestQueue := requestQueue st;
     suspended := suspended st; browser := browser st; location := location st;
     nextPromise := nextPromise st; effects := effects st ++ evs |}.

Definition setAuthorization (token : string) (config : RequestConfig) : RequestConfig :=
  {| url := url config; method := method config;
     headers := <["Authorization" := "Bearer " +:+ token]> (headers config);
     _retry := _retry config |}.

Definition markRetried (config : RequestConfig) : RequestConfig :=
  {| url := url config; method := method config; headers := headers config;
     _retry := true |}.

(** One turn of the [forEach] of [processQueue]. *)
Definition processRequest (error : option Error) (token : option string)
    (request : QueuedRequest) : list Effect :=
  match error with
  | Some e => [Settled (queuedPromise request) (RejectedWith e)]
  | None =>
      let config :=
        match token with
        | Some t => if truthyStr token then setAuthorization t (queuedConfig request)
                    else queuedConfig request
        | None => queuedConfig request
        end in
      [Dispatched config; Settled (queuedPromise request) (ResolvedWith config)]
  end.

Definition processQueue (error : option Error) (token : option string) (st : State) : State :=
  let st := emit (flat_map (processRequest error token) (requestQueue st)) st in
  {| isRefreshing := isRefreshing st; requestQueue := [];
     suspended := suspended st; browser := browser st; location := location st;
     nextPromise := nextPromise st; effects := effects st |}.

Definition is401 (error : AxiosError) : bool :=
  match response error with
  | Some r => (status r =? 401)%Z
  | None => false
  end.

(** The rejection handler of the response interceptor, up to its first
    suspension point.  It returns the promise handed to the caller. *)
Definition onResponseError (error : AxiosError) (st : State) : PromiseId * State :=
  let promise := nextPromise st in
  let st :=
    {| isRefreshing := isRefreshing st; requestQueue := requestQueue st;
       suspended := suspended st; browser := browser st; location := location st;
       nextPromise := S promise; effects := effects st |} in
  match config error with
  | Some originalRequest =>
      if is401 error && negb (_retry originalRequest) then
        if isRefreshing st then
          (promise,
           {| isRefreshing := isRefreshing st;
              requestQueue := requestQueue st ++ [mkQueuedRequest originalRequest promise];
              suspended := suspended st; browser := browser st; location := location st;
              nextPromise := nextPromise st; effects := effects st |})
        else
          let originalRequest := markRetried originalRequest in
          (promise,
           {| isRefreshing := true;
              requestQueue := requestQueue st;
              suspended := suspended st ++ [(promise, originalRequest)];
              browser := browser st; location := location st;
              nextPromise := nextPromise st;
              effects := effects st ++ [RefreshCalled] |})
      else (promise, emit [Settled promise (RejectedFormatted (formatError error))] st)
  | None => (promise, emit [Settled promise (RejectedFormatted (formatError error))] st)
  end.

Definition clearRefreshing (st : State) : State :=
  {| isRefreshing := false; requestQueue := requestQueue st;
     suspended := suspended st; browser := browser st; location := location st;
     nextPromise := nextPromise st; effects := effects st |}.

(** [logout()] followed by the guarded assignment to
    [window.location.href]. *)
Definition teardown (st : State) : State :=
  {| isRefreshing := isRefreshing st; requestQueue := requestQueue st;
     suspended := suspended st;
     browser := AuthService.logout (browser st);
     location := match location st with
                 | Some _ => Some "/login"
                 | None => None
                 end;
     nextPromise := nextPromise st;
     effects := effects st ++ [LogoutCalled] |}.

(** The rest of the handler that returned [promise], run when its
    [refreshAccessToken()] settles: the [try] block on [inl], the [catch]
    block on [inr], then [finally]. *)
Definition resume (promise : PromiseId) (originalRequest : RequestConfig)
    (outcome : string + Error) (st : State) : State :=
  match outcome with
  | inl newAccessToken =>
      let originalRequest := setAuthorization newAccessToken originalRequest in
      let st := processQueue None (Some newAccessToken) st in
      let st := emit [Dispatched originalRequest;
                      Settled promise (ResolvedWith originalRequest)] st in
      clearRefreshing st
  | inr refreshError =>
      let st := processQueue (Some refreshError) None st in
      let st := teardown st in
      let st := emit [Settled promise (RejectedWith refreshError)] st in
      clearRefreshing st
  end.

Fixpoint lookupSuspended (promise : PromiseId) (l : list (PromiseId * RequestConfig))
    : option RequestConfig :=
  match l with
  | [] => None
  | (p, r) :: rest => if (p =? promise)%nat then Some r else lookupSuspended promise rest
  end.

Definition dropSuspended (promise : PromiseId) (st : State) : State :=
  {| isRefreshing := isRefreshing st; requestQueue := requestQueue st;
     suspended := List.filter (λ pr, negb (fst pr =? promise)%nat) (suspended st);
     browser := browser st; location := location st;
     nextPromise := nextPromise st; effects := effects st |}.

(** What the event loop can hand to the interceptor. *)
Inductive Event : Type :=
  | ResponseError (error : AxiosError)
  | RefreshSettled (promise : PromiseId) (outcome : string + Error).

Definition step (st : State) (ev : Event) : State :=
  match ev with
  | ResponseError error => snd (onResponseError error st)
  | RefreshSettled promise outcome =>
      match lookupSuspended promise (suspended st) with
      | Some originalRequest => resume promise originalRequest outcome (dropSuspended promise st)
      | None => st
      end
  end.

Definition run (evs : list Event) (st : State) : State := foldl step st evs.

(** The module-level state when the module has just been loaded. *)
Definition initial (b : AuthService.Browser) (href : option string) : State :=
  {| isRefreshing := false; requestQueue := []; suspended := [];
     browser := b; location := href; nextPromise := 0; effects := [] |}.

Definition isRefreshCall (ev : Effect) : bool :=
  match ev with RefreshCalled => true | _ => false end.

Definition isLogoutCall (ev : Effect) : bool :=
  match ev with LogoutCalled => true | _ => false end.

Definition refreshCalls (st : State) : nat :=
  length (List.filter isRefreshCall (effects st)).

Definition logoutCalls (st : State) : nat :=
  length (List.filter isLogoutCall (effects st)).

(** How a promise was settled, one entry per call of its [resolve] or
    [reject]. *)
Fixpoint settlementsOf (promise : PromiseId) (evs : list Effect) : list Settlement :=
  match evs with
  | [] => []
  | Settled p how :: rest =>
      if (p =? promise)%nat then how :: settlementsOf promise rest
      else settlementsOf promise rest
  | _ :: rest => settlementsOf promise rest
  end.

(** A failure that the interceptor answers with a token refresh: status
    401 on a request that has not been retried. *)
Definition unauthorized (error : AxiosError) (originalRequest : RequestConfig) : Prop :=
  is401 error = true
  ∧ config error = Some originalRequest
  ∧ _retry originalRequest = false.

(** The promises that are still pending inside the interceptor. *)
Definition pending (st : State) : list PromiseId :=
  map queuedPromise (requestQueue st) ++ map fst (suspended st).

(** What holds of every state the interceptor can reach: at most one
    handler waits for a refresh, the flag is set exactly while it waits,
    the queue is empty otherwise, and the pending promises are distinct,
    already created and not yet settled. *)
Definition consistent (st : State) : Prop :=
  ((suspended st = [] ∧ isRefreshing st = false ∧ requestQueue st = [])
   ∨ (∃ promise originalRequest,
        suspended st = [(promise, originalRequest)] ∧ isRefreshing st = true))
  ∧ NoDup (pending st)
  ∧ (∀ p, p ∈ pending st → p < nextPromise st)
  ∧ (∀ p, p ∈ pending st → settlementsOf p (effects st) = [])
  ∧ (∀ p, nextPromise st ≤ p → settlementsOf p (effects st) = []).

(** Every promise that has been handed out and is no longer pending has
    been settled, once. *)
Definition accounted (st : State) : Prop :=
  ∀ p, p < nextPromise st → p ∉ pending st →
       length (settlementsOf p (effects st)) = 1.

(** The replay of one queued request under a fresh token. *)
Definition replayed (token : string) (q : QueuedRequest) : list Effect :=
  [Dispatched (setAuthorization token (queuedConfig q));
   Settled (queuedPromise q) (ResolvedWith (setAuthorization token (queuedConfig q)))].

Definition rejected (refreshError : Error) (q : QueuedRequest) : Effect :=
  Settled (queuedPromise q) (RejectedWith refreshError).

Definition isDispatch (ev : Effect) : bool :=
  match ev with Dispatched _ => true | _ => false end.

(** Two requests that came back with 401. *)
Definition getPosts : RequestConfig :=
  {| url := "/posts"; method := "get"; headers := ∅; _retry := false |}.

Definition postAlarm : RequestConfig :=
  {| url := "/alarms"; method := "post"; headers := ∅; _retry := false |}.

Definition failed401 (r : RequestConfig) : AxiosError :=
  {| config := Some r;
     response := Some {| status := 401; statusText := "Unauthorized"; data := JNull |};
     request := true;
     errorMessage := "Request failed with status code 401" |}.

Definition failed500 (r : RequestConfig) : AxiosError :=
  {| config := Some r;
     response := Some {| status := 500; statusText := "Internal Server Error";
                         data := JObject [("message", JString "Database is down")] |};
     request := true;
     errorMessage := "Request failed with status code 500" |}.

Definition emptyBrowser : AuthService.Browser :=
  {| AuthService.localStorage := ∅; AuthService.sessionStorage := ∅ |}.

(** Both requests have failed while the refresh of the first is in
    flight. *)
Definition twoInFlight : State :=
  run [ResponseError (failed401 getPosts); ResponseError (failed401 postAlarm)]
      (initial emptyBrowser (Some "/")).

End ApiClient.

(** ** lib/websocket-manager.ts *)

Module WsManager.

(** [WebSocket.readyState]. *)
Inductive ReadyState : Type := CONNECTING | OPEN | CLOSING | CLOSED.

(** Callbacks are compared by identity, as the [Set]s of the manager do.
    Calling one records the call; whether the call returns or throws is
    up to the callback. *)
Abbreviation Callback := nat.

(** Instance objects are named by their address in the heap. *)
Abbreviation Address := nat.

Record Status : Type := mkStatus {
  statusIsConnected : bool;
  statusIsConnecting : bool;
  statusError : option Error;
}.

(** [WebSocketInstance], with the one field of its socket [ws] that the
    manager reads. *)
Record WebSocketInstance : Type := mkInstance {
  readyState : ReadyState;                 (* [ws.readyState] *)
  url : string;
  subscribers : list Callback;             (* [Set], in insertion order *)
  statusSubscribers : list Callback;       (* [Set], in insertion order *)
  isConnected : bool;
  isConnecting : bool;
  error : option Error;
  lastMessages : list json;
  maxMessages : nat;
}.

Inductive Task : Type :=
  | ReplayTask (instance : Address) (callback : Callback)
  | ReconnectTask (url : string).

(** A pending [setTimeout]. *)
Record Timer : Type := mkTimer { delay : nat; task : Task }.

(** Who called a data callback: the fan-out of [ws.onmessage] or the
    deferred replay of [subscribe], and for which instance. *)
Inductive Source : Type :=
  | Live (instance : Address)
  | Replayed (instance : Address).

Inductive Output : Type :=
  | Delivered (source : Source) (callback : Callback) (data : json)
  | StatusDelivered (callback : Callback) (status : Status)
  | SocketSent (instance : Address) (frame : string)      (* [ws.send] *)
  | SocketClosed (instance : Address)                     (* [ws.close] *)
  | Warned.                                               (* [console.warn] *)

Record Manager : Type := mkManager {
  connections : gmap string Address;       (* [Map<string, WebSocketInstance>] *)
  heap : list WebSocketInstance;           (* every instance ever created *)
  timers : list Timer;                     (* pending timeouts, oldest first *)
  outputs : list Output;                   (* effects, oldest first *)
}.

Definition empty : Manager :=
  {| connections := ∅; heap := []; timers := []; outputs := [] |}.

(** [Set.prototype.add] and [Set.prototype.delete]. *)
Definition setAdd (x : Callback) (s : list Callback) : list Callback :=
  if bool_decide (x ∈ s) then s else s ++ [x].

Definition setDelete (x : Callback) (s : list Callback) : list Callback :=
  List.filter (λ y, negb (y =? x)%nat) s.

Definition withConnections (c : gmap string Address) (m : Manager) : Manager :=
  {| connections := c; heap := heap m; timers := timers m; outputs := outputs m |}.

Definition withHeap (h : list WebSocketInstance) (m : Manager) : Manager :=
  {| connections := connections m; heap := h; timers := timers m; outputs := outputs m |}.

Definition withTimers (t : list Timer) (m : Manager) : Manager :=
  {| connections := connections m; heap := heap m; timers := t; outputs := outputs m |}.

Definition output (o : list Output) (m : Manager) : Manager :=
  {| connections := connections m; heap := heap m; timers := timers m;
     outputs := outputs m ++ o |}.

(** In-place update of the instance at address [a]. *)
Definition update (a : Address) (f : WebSocketInstance → WebSocketInstance)
    (m : Manager) : Manager :=
  withHeap (alter f a (heap m)) m.

Definition setTimeout (t : Task) (ms : nat) (m : Manager) : Manager :=
  withTimers (timers m ++ [mkTimer ms t]) m.

Definition statusOf (i : WebSocketInstance) : Status :=
  {| statusIsConnected := isConnected i;
     statusIsConnecting := isConnecting i;
     statusError := error i |}.

(** The object literal of [connect], around a socket that the constructor
    has just created. *)
Definition newInstance (u : string) : WebSocketInstance :=
  {| readyState := CONNECTING; url := u;
     subscribers := []; statusSubscribers := [];
     isConnected := false; isConnecting := true; error := None;
     lastMessages := []; maxMessages := 100 |}.

Definition isLive (i : WebSocketInstance) : bool :=
  match readyState i with
  | OPEN | CONNECTING => true
  | _ => false
  end.

(** [connect] returns the address of the instance it hands out. *)
Definition connect (u : string) (m : Manager) : Address * Manager :=
  let reuse :=
    match connections m !! u with
    | Some a =>
        match heap m !! a with
        | Some i => if isLive i then Some a else None
        | None => None
        end
    | None => None
    end in
  match reuse with
  | Some a => (a, m)
  | None =>
      let m := withConnections (delete u (connections m)) m in
      let a := length (heap m) in
      let m := withHeap (heap m ++ [newInstance u]) m in
      (a, withConnections (<[u := a]> (connections m)) m)
  end.

Definition setSubscribers (f : list Callback → list Callback)
    (i : WebSocketInstance) : WebSocketInstance :=
  {| readyState := readyState i; url := url i;
     subscribers := f (subscribers i); statusSubscribers := statusSubscribers i;
     isConnected := isConnected i; isConnecting := isConnecting i;
     error := error i; lastMessages := lastMessages i;
     maxMessages := maxMessages i |}.

Definition setStatusSubscribers (f : list Callback → list Callback)
    (i : WebSocketInstance) : WebSocketInstance :=
  {| readyState := readyState i; url := url i;
     subscribers := subscribers i; statusSubscribers := f (statusSubscribers i);
     isConnected := isConnected i; isConnecting := isConnecting i;
     error := error i; lastMessages := lastMessages i;
     maxMessages := maxMessages i |}.

Definition setLastMessages (l : list json) (i : WebSocketInstance) : WebSocketInstance :=
  {| readyState := readyState i; url := url i;
     subscribers := subscribers i; statusSubscribers := statusSubscribers i;
     isConnected := isConnected i; isConnecting := isConnecting i;
     error := error i; lastMessages := l;
     maxMessages := maxMessages i |}.

Definition setConnection (rs : ReadyState) (connected connecting : bool)
    (err : option Error) (i : WebSocketInstance) : WebSocketInstance :=
  {| readyState := rs; url := url i;
     subscribers := subscribers i; statusSubscribers := statusSubscribers i;
     isConnected := connected; isConnecting := connecting;
     error := err; lastMessages := lastMessages i;
     maxMessages := maxMessages i |}.

(** [subscribe], up to the closure it returns, which is
    [unsubscribe a callback] for the address [a] it captured. *)
Definition subscribe (u : string) (callback : Callback) (replayLast : bool)
    (m : Manager) : Address * Manager :=
  let '(a, m) := connect u m in
  let m := update a (setSubscribers (setAdd callback)) m in
  let buffered :=
    match heap m !! a with
    | Some i => lastMessages i
    | None => []
    end in
  if replayLast && (0 <? length buffered)%nat
  then (a, setTimeout (ReplayTask a callback) 0 m)
  else (a, m).

Definition unsubscribe (a : Address) (callback : Callback) (m : Manager) : Manager :=
  update a (setSubscribers (setDelete callback)) m.

(** [subscribeToStatus], up to the closure it returns.  The callback is
    called when it has been added: when it throws, the exception leaves
    the method and the manager stays as it is here. *)
Definition subscribeToStatus (u : string) (callback : Callback) (m : Manager)
    : Address * Manager :=
  let '(a, m) := connect u m in
  let m := update a (setStatusSubscribers (setAdd callback)) m in
  match heap m !! a with
  | Some i => (a, output [StatusDelivered callback (statusOf i)] m)
  | None => (a, m)
  end.

Definition unsubscribeStatus (a : Address) (callback : Callback) (m : Manager) : Manager :=
  update a (setStatusSubscribers (setDelete callback)) m.

(** [push] then, above the bound, [shift]. *)
Definition remember (d : json) (i : WebSocketInstance) : WebSocketInstance :=
  let pushed := lastMessages i ++ [d] in
  if (maxMessages i <? length pushed)%nat
  then setLastMessages (tail pushed) i
  else setLastMessages pushed i.

Section Handlers.
Variable JSON_parse : string → option json.
Variable JSON_stringify : json → string.
(** Which calls of callbacks throw: [throws log] is asked with the effects
    so far, the last of which is the call that is being made. *)
Variable throws : list Output → bool.

(** [forEach] over a set of callbacks or a list of messages: [calls] are
    the calls it makes, in order, as long as none throws; the first one
    that throws ends it.  The flag tells whether one has thrown. *)
Fixpoint forEach (calls : list Output) (m : Manager) : Manager * bool :=
  match calls with
  | [] => (m, false)
  | call :: rest =>
      let m := output [call] m in
      if throws (outputs m) then (m, true) else forEach rest m
  end.

(** Each of the calls returns, whenever it is made. *)
Definition returning (calls : list Output) : Prop :=
  ∀ log call, call ∈ calls → throws (log ++ [call]) = false.

(** [notifyStatusSubscribers] has no handler of its own: an exception
    of a status subscriber leaves through it. *)
Definition notifyStatusSubscribers (a : Address) (m : Manager) : Manager * bool :=
  match heap m !! a with
  | Some i => forEach (map (λ cb, StatusDelivered cb (statusOf i)) (statusSubscribers i)) m
  | None => (m, false)
  end.

(** [ws.onopen]; the socket is [OPEN] when the event is dispatched. *)
Definition onopen (a : Address) (m : Manager) : Manager :=
  let m := update a (λ i, setConnection OPEN true false None i) m in
  fst (notifyStatusSubscribers a m).

(** [ws.onmessage]; the fan-out is inside the [try], so that an exception
    of a subscriber ends it and is logged like a parse error. *)
Definition onmessage (a : Address) (raw : string) (m : Manager) : Manager :=
  match JSON_parse raw with
  | Some d =>
      let m := update a (remember d) m in
      match heap m !! a with
      | Some i => fst (forEach (map (λ cb, Delivered (Live a) cb d) (subscribers i)) m)
      | None => m
      end
  | None => m
  end.

(** [ws.onerror]; the platform fires [error] when the connection has
    failed, with the socket already [CLOSED]. *)
Definition onerror (a : Address) (m : Manager) : Manager :=
  let m := update a (λ i, setConnection CLOSED (isConnected i) false
                            (Some (mkError "WebSocket connection error")) i) m in
  fst (notifyStatusSubscribers a m).

(** [ws.onclose]; the socket is [CLOSED] when the event is dispatched.
    What follows the notification is not reached when a status
    subscriber throws. *)
Definition onclose (a : Address) (wasClean : bool) (m : Manager) : Manager :=
  match heap m !! a with
  | Some i0 =>
      let m := update a (λ i, setConnection CLOSED false false (error i) i) m in
      let '(m, thrown) := notifyStatusSubscribers a m in
      if thrown then m
      else
        let m := withConnections (delete (url i0) (connections m)) m in
        if negb wasClean then setTimeout (ReconnectTask (url i0)) 2000 m else m
  | None => m
  end.

Definition send (u : string) (d : json) (m : Manager) : Manager :=
  let target :=
    match connections m !! u with
    | Some a =>
        match heap m !! a with
        | Some i => match readyState i with OPEN => Some a | _ => None end
        | None => None
        end
    | None => None
    end in
  match target with
  | Some a =>
      let message := match d with JString s => s | _ => JSON_stringify d end in
      output [SocketSent a message] m
  | None => output [Warned] m
  end.

(** [ws.close] moves an open or connecting socket to [CLOSING]. *)
Definition closing (i : WebSocketInstance) : WebSocketInstance :=
  match readyState i with
  | CLOSED => i
  | _ => setConnection CLOSING (isConnected i) (isConnecting i) (error i) i
  end.

Definition disconnect (u : string) (m : Manager) : Manager :=
  match connections m !! u with
  | Some a =>
      let m := output [SocketClosed a] (update a closing m) in
      withConnections (delete u (connections m)) m
  | None => m
  end.

Definition getStatus (u : string) (m : Manager) : Status :=
  match connections m !! u with
  | Some a =>
      match heap m !! a with
      | Some i => statusOf i
      | None => mkStatus false false None
      end
  | None => mkStatus false false None
  end.

(** The body of a timeout. *)
Definition runTask (t : Task) (m : Manager) : Manager :=
  match t with
  | ReplayTask a callback =>
      match heap m !! a with
      | Some i =>
          fst (forEach (map (λ msg, Delivered (Replayed a) callback msg)
                            (lastMessages i)) m)
      | None => m
      end
  | ReconnectTask u => snd (connect u m)
  end.

(** The [k]-th pending timeout fires. *)
Definition fire (k : nat) (m : Manager) : Manager :=
  match timers m !! k with
  | Some t => runTask (task t) (withTimers (delete k (timers m)) m)
  | None => m
  end.

(** Everything that can happen to the manager: calls of its methods and
    of the closures it returned, socket events, timeouts.  The peer can
    start the closing handshake at any time: the platform then moves the
    socket to [CLOSING] and runs no handler. *)
Inductive Event : Type :=
  | Connect (url : string)
  | Subscribe (url : string) (callback : Callback) (replayLast : bool)
  | Unsubscribe (instance : Address) (callback : Callback)
  | SubscribeToStatus (url : string) (callback : Callback)
  | UnsubscribeStatus (instance : Address) (callback : Callback)
  | Send (url : string) (data : json)
  | Disconnect (url : string)
  | OnOpen (instance : Address)
  | OnMessage (instance : Address) (raw : string)
  | OnError (instance : Address)
  | OnClose (instance : Address) (wasClean : bool)
  | PeerCloses (instance : Address)
  | Fire (k : nat).

Definition step (m : Manager) (ev : Event) : Manager :=
  match ev with
  | Connect u => snd (connect u m)
  | Subscribe u cb replayLast => snd (subscribe u cb replayLast m)
  | Unsubscribe a cb => unsubscribe a cb m
  | SubscribeToStatus u cb => snd (subscribeToStatus u cb m)
  | UnsubscribeStatus a cb => unsubscribeStatus a cb m
  | Send u d => send u d m
  | Disconnect u => disconnect u m
  | OnOpen a => onopen a m
  | OnMessage a raw => onmessage a raw m
  | OnError a => onerror a m
  | OnClose a wasClean => onclose a wasClean m
  | PeerCloses a => update a closing m
  | Fire k => fire k m
  end.

Definition run (evs : list Event) (m : Manager) : Manager := foldl step m evs.

(** The parsed message that an event adds to the history of the instance
    at [a], if any. *)
Definition arrival (a : Address) (ev : Event) : option json :=
  match ev with
  | OnMessage a' raw => if (a' =? a)%nat then JSON_parse raw else None
  | _ => None
  end.

Definition arrivals (a : Address) (evs : list Event) : list json :=
  omap (arrival a) evs.

End Handlers.

(** Stand-ins for [JSON.parse] and [JSON.stringify], for running the
    manager on examples: every frame but the empty one parses, to a
    string. *)
Definition parseText (raw : string) : option json :=
  if String.eqb raw "" then None else Some (JString raw).

Definition stringifyText (d : json) : string := "json".

(** Callbacks that always return, and callbacks of which the one named
    throws whenever it is called. *)
Definition allReturn (log : list Output) : bool := false.


(** One subscriber has opened a connection, which has then received a
    hundred messages: its history is full. *)
Definition fullManager : Manager :=
  run parseText stringifyText allReturn
      ([Subscribe "wss://alarms" 7 false; OnOpen 0; OnMessage 0 "oldest"]
       ++ replicate 99 (OnMessage 0 "old"))
      empty.

(** The instance of [fullManager]. *)
Definition fullInstance : WebSocketInstance :=
  {| readyState := OPEN; url := "wss://alarms";
     subscribers := [7]; statusSubscribers := [];
     isConnected := true; isConnecting := false; error := None;
     lastMessages := JString "oldest" :: replicate 99 (JString "old");
     maxMessages := 100 |}.

(** The connection of [fullManager] has closed uncleanly and, before the
    reconnect fires, a component has subscribed to the same URL. *)
Definition resubscribedEarly : Manager :=
  run parseText stringifyText allReturn
      [OnClose 0 false; Subscribe "wss://alarms" 9 false] fullManager.


(** The event is a call of [subscribe] with this callback. *)
Definition subscribes (callback : Callback) (ev : Event) : Prop :=
  ∃ u replayLast, ev = Subscribe u callback replayLast.

Definition sourceAddress (src : Source) : Address :=
  match src with Live a | Replayed a => a end.

(** Deliveries and pending replays name instances that exist. *)
Definition closed (m : Manager) : Prop :=
  (∀ src cb d, Delivered src cb d ∈ outputs m →
               sourceAddress src < length (heap m))
  ∧ (∀ ms a cb, mkTimer ms (ReplayTask a cb) ∈ timers m →
                a < length (heap m)).

(** Where the data callbacks in [new] come from, when [new] is what the
    event [ev] adds to the outputs of [m]: from the fan-out of a message
    to the subscribers of its instance, or from a replay timeout. *)
Definition deliveredBy (m : Manager) (ev : Event) (new : list Output) : Prop :=
  ∀ src cb d,
    Delivered src cb d ∈ new →
    match src with
    | Live a =>
        ∃ raw i, ev = OnMessage a raw ∧ heap m !! a = Some i ∧ cb ∈ subscribers i
    | Replayed a =>
        ∃ k ms, ev = Fire k
                ∧ timers m !! k = Some (mkTimer ms (ReplayTask a cb))
                ∧ is_Some (heap m !! a)
    end.

(** The callback has nothing to do with the instances created at address
    [n] or later: it is subscribed to none of them, no replay from one of
    them is pending for it, and none of them has ever called it. *)
Definition unattached (n : nat) (cb : Callback) (m : Manager) : Prop :=
  (∀ a i, n ≤ a → heap m !! a = Some i → cb ∉ subscribers i)
  ∧ (∀ ms a, n ≤ a → mkTimer ms (ReplayTask a cb) ∉ timers m)
  ∧ (∀ src d, Delivered src cb d ∈ outputs m → sourceAddress src < n).

(** No instance registered under [u] has an open or connecting socket. *)
Definition noLiveEntry (u : string) (m : Manager) : Prop :=
  ∀ a i, connections m !! u = Some a → heap m !! a = Some i → isLive i = false.

(** The [n] most recent entries of a list. *)
Definition lastN {A : Type} (n : nat) (l : list A) : list A :=
  drop (length l - n) l.

(** Every history respects the bound of 100 entries. *)
Definition bounded (m : Manager) : Prop :=
  ∀ a i, heap m !! a = Some i →
         maxMessages i = 100 ∧ length (lastMessages i) ≤ 100.

(** How an event may change one instance. *)
Record Changes (arrived : option json) (subscribed : Callback → Prop)
    (f : WebSocketInstance → WebSocketInstance) : Prop := mkChanges {
  changesUrl : ∀ i, url (f i) = url i;
  changesMax : ∀ i, maxMessages (f i) = maxMessages i;
  changesHistory : ∀ i,
    lastMessages (f i)
    = match arrived with
      | Some d => lastMessages (remember d i)
      | None => lastMessages i
      end;
  changesSubscribers : ∀ i cb,
    cb ∈ subscribers (f i) → cb ∈ subscribers i ∨ subscribed cb;
}.


(** The in-place updates that the manager makes to an instance, one for
    each assignment in the source. *)
Inductive Mutation : (WebSocketInstance → WebSocketInstance) → Prop :=
  | MutSubscribe (cb : Callback) : Mutation (setSubscribers (setAdd cb))
  | MutUnsubscribe (cb : Callback) : Mutation (setSubscribers (setDelete cb))
  | MutSubscribeStatus (cb : Callback) : Mutation (setStatusSubscribers (setAdd cb))
  | MutUnsubscribeStatus (cb : Callback) :
      Mutation (setStatusSubscribers (setDelete cb))
  | MutRemember (d : json) : Mutation (remember d)
  | MutOpen : Mutation (λ i, setConnection OPEN true false None i)
  | MutError :
      Mutation (λ i, setConnection CLOSED (isConnected i) false
                       (Some (mkError "WebSocket connection error")) i)
  | MutClose : Mutation (λ i, setConnection CLOSED false false (error i) i)
  | MutClosing : Mutation closing
  | MutNone : Mutation id.


(** A status does not claim to be connected and still connecting. *)
Definition coherentStatus (s : Status) : Prop :=
  statusIsConnected s = true → statusIsConnecting s = false.

(** An instance is not connected and connecting at once, and the socket
    of a connected one has been open. *)
Definition coherent (i : WebSocketInstance) : Prop :=
  isConnected i = true → isConnecting i = false ∧ readyState i ≠ CONNECTING.

(** The calls that the notifications of [ws.onclose] and of [ws.onopen]
    make for an instance when no status subscriber throws. *)
Definition closeCalls (i : WebSocketInstance) : list Output :=
  map (λ cb, StatusDelivered cb (mkStatus false false (error i)))
      (statusSubscribers i).


(** Every URL of the map leads to an instance of that URL. *)
Definition registered (m : Manager) : Prop :=
  ∀ u a, connections m !! u = Some a → ∃ i, heap m !! a = Some i ∧ url i = u.

(** What [getStatus] answers for a URL that is not registered. *)
Definition noStatus : Status := mkStatus false false None.

(** The text that [send] hands to the socket. *)
Definition frameOf (JSON_stringify : json → string) (d : json) : string :=
  match d with
  | JString text => text
  | _ => JSON_stringify d
  end.

(** Two components have subscribed to one URL, the connection is open and
    a replay is pending for the second. *)
Definition shared : Manager :=
  run parseText stringifyText allReturn
      [Subscribe "wss://alarms" 7 false; OnOpen 0; OnMessage 0 "m1";
       Subscribe "wss://alarms" 8 true]
      empty.

(** The application has disconnected and subscribed again before the
    close event of the first socket arrives. *)
Definition reopened : Manager :=
  run parseText stringifyText allReturn
      [Subscribe "wss://alarms" 7 false; OnOpen 0; Disconnect "wss://alarms";
       Subscribe "wss://alarms" 7 false]
      empty.

End WsManager.

(** * Properties *)

(** ** utils/retry.ts *)

Module RetryTheory.
Import Retry.

(** *** The order of Numbers *)

Lemma extendedLt_false (a b : Extended) : extendedLt a b = false ↔ extendedLe b a.
Proof.
  destruct a as [|p|], b as [|q|]; simpl; try done.
  rewrite negb_false_iff. apply Qle_bool_iff.
Qed.

Lemma extendedLt_true (a b : Extended) : extendedLt a b = true → extendedLe a b.
Proof.
  destruct a as [|p|], b as [|q|]; simpl; try done.
  rewrite negb_true_iff. intros Hle.
  destruct (Qlt_le_dec p q) as [Hlt|Hge]; [by apply Qlt_le_weak|].
  apply Qle_bool_iff in Hge. congruence.
Qed.





Lemma isZero_value (negative : bool) (x : float) :
  isZero negative x = true → valueOf x = Some (Real 0).
Proof. unfold isZero, valueOf. by destruct (Prim2SF x). Qed.




(** [Math.min] answers [NaN] when an argument is [NaN], and one of its
    arguments, not above the other, when none is. *)
Lemma Math_min_cases (x y : float) :
  (Math_min x y = nan ∧ (valueOf x = None ∨ valueOf y = None))
  ∨ (∃ a b, valueOf x = Some a ∧ valueOf y = Some b
            ∧ ((Math_min x y = y ∧ extendedLe b a)
               ∨ (Math_min x y = x ∧ extendedLe a b))).
Proof.
  unfold Math_min.
  destruct (valueOf x) as [a|] eqn:Hx; [|left; split; [done|by left]].
  destruct (valueOf y) as [b|] eqn:Hy; [|left; split; [done|by right]].
  right. exists a, b. split; [done|]. split; [done|].
  destruct (isZero true y && isZero false x) eqn:Hzero.
  - left. split; [done|]. apply andb_true_iff in Hzero as [Hy0 Hx0].
    rewrite (isZero_value _ _ Hy0) in Hy. rewrite (isZero_value _ _ Hx0) in Hx.
    simplify_eq. simpl. apply Qle_refl.
  - destruct (extendedLt b a) eqn:Hlt.
    + left. split; [done|]. by apply extendedLt_true.
    + right. split; [done|]. by apply extendedLt_false.
Qed.



Section Platform.
Variable Math_pow : float → float → float.


(** A delay asks for no more than [maxDelay]. *)
Lemma timeoutOf_capped (n : nat) (config : RetryConfig) (q : Q) :
  valueOf (maxDelay config) = Some (Real q) → (0 <= q)%Q →
  (timeoutOf (getRetryDelay Math_pow n config) <= q)%Q.
Proof.
  intros Hmax Hq. unfold getRetryDelay. cbv zeta. unfold timeoutOf.
  destruct (Math_min_cases
              (initialDelay config
               * Math_pow (backoffMultiplier config) (numberOf n))%float
              (maxDelay config))
    as [[-> _]|(a & b & Ha & Hb & [[-> _]|[-> Hle]])].
  - done.
  - rewrite Hmax. by apply Q.max_lub; [|apply Qle_refl].
  - rewrite Ha. rewrite Hmax in Hb. injection Hb as <-.
    destruct a as [|a|]; [done| |done]. by apply Q.max_lub.
Qed.

Section WithRetry.
Context {W T E : Type}.
Variable operation : W → (T + E) * W.
Variable config : RetryConfig.
Variable shouldRetryError : option (E → bool).

Let loop := retryLoop Math_pow operation config shouldRetryError.
Let outcome := outcomeAt operation.
Let world := worldBefore operation.
Let canRetry := retryable shouldRetryError.

Lemma invocations_app (l1 l2 : list Effect) :
  invocations (l1 ++ l2) = invocations l1 + invocations l2.
Proof. unfold invocations. by rewrite List.filter_app, length_app. Qed.

Lemma invocations_schedule (attempt n : nat) :
  invocations (schedule Math_pow config attempt n) = n.
Proof.
  revert attempt. induction n as [|n IH]; intros attempt; [done|].
  destruct n as [|n]; [done|].
  change (invocations (Invoke attempt :: Sleep (getRetryDelay Math_pow attempt config)
                         :: schedule Math_pow config (S attempt) (S n)) = S (S n)).
  unfold invocations in *. simpl List.filter. simpl length.
  f_equal. apply IH.
Qed.

Lemma schedule_step (attempt n : nat) :
  schedule Math_pow config attempt (S (S n))
  = [Invoke attempt; Sleep (getRetryDelay Math_pow attempt config)]
    ++ schedule Math_pow config (S attempt) (S n).
Proof. reflexivity. Qed.

Lemma schedule_head (attempt n : nat) :
  ∃ rest, schedule Math_pow config attempt (S n) = Invoke attempt :: rest.
Proof. by eexists. Qed.

(** One retryable failure with attempts left: sleep, then go round again. *)
Lemma loop_unfold_retry (remaining attempt : nat) (last : option E) (w : W)
    (log : list Effect) (e : E) :
  S remaining + attempt = maxAttempts config →
  outcome 0 w = inr e → canRetry e = true → remaining ≠ 0 →
  loop (S remaining) attempt last w log
  = loop remaining (S attempt) (Some e) (world 1 w)
         (log ++ [Invoke attempt; Sleep (getRetryDelay Math_pow attempt config)]).
Proof.
  intros Hsum Hout Hcan Hrem.
  unfold loop, outcome, outcomeAt, world, canRetry, retryable in *. simpl in *.
  destruct (operation w) as [r w'] eqn:Hop. simpl in Hout. subst r.
  assert (Hp : match shouldRetryError with
               | Some p => negb (p e) | None => false end = false).
  { destruct shouldRetryError; [by rewrite Hcan|done]. }
  rewrite Hp. unfold shouldRetry.
  assert (Hlt : (attempt + 1 <? maxAttempts config)%nat = true)
    by (apply Nat.ltb_lt; lia).
  rewrite Hlt. simpl negb. cbv iota.
  replace (attempt + 1) with (S attempt) by lia.
  by rewrite <- app_assoc.
Qed.

Lemma outcome_shift (k : nat) (w : W) : outcome (S k) w = outcome k (world 1 w).
Proof. reflexivity. Qed.

Lemma world_shift (k : nat) (w : W) : world (S k) w = world k (world 1 w).
Proof. reflexivity. Qed.

(** Every run makes at most [remaining] invocations, and at least one
    when the loop is entered, laid out as [schedule] says. *)
Lemma loop_shape (remaining attempt : nat) (last : option E) (w : W)
    (log : list Effect) :
  remaining + attempt = maxAttempts config →
  ∃ n, n ≤ remaining ∧ (remaining ≠ 0 → n ≠ 0)
       ∧ (loop remaining attempt last w log).2
         = log ++ schedule Math_pow config attempt n.
Proof.
  revert attempt last w log.
  induction remaining as [|remaining IH]; intros attempt last w log Hsum.
  { exists 0. split; [lia|]. split; [done|]. simpl. by rewrite app_nil_r. }
  unfold loop in *. simpl.
  destruct (operation w) as [[v|e] w'] eqn:Hop.
  { exists 1. repeat split; [lia|done]. }
  destruct (match shouldRetryError with
            | Some p => negb (p e) | None => false end) eqn:Hp.
  { exists 1. repeat split; [lia|done]. }
  unfold shouldRetry.
  destruct (attempt + 1 <? maxAttempts config)%nat eqn:Hlt; simpl negb; cbv iota.
  - apply Nat.ltb_lt in Hlt.
    destruct (IH (attempt + 1) (Some e) w'
                 ((log ++ [Invoke attempt]) ++ [Sleep (getRetryDelay Math_pow attempt config)]))
      as (n & Hn & Hpos & Hlog); [lia|].
    destruct n as [|n]; [exfalso; apply Hpos; lia|].
    exists (S (S n)). split; [lia|]. split; [done|].
    rewrite Hlog, schedule_step, <- !app_assoc. simpl.
    by replace (attempt + 1) with (S attempt) by lia.
  - exists 1. repeat split; [lia|done].
Qed.

(** [k] retryable failures, then a success. *)
Lemma loop_success (k remaining attempt : nat) (last : option E) (w : W)
    (log : list Effect) (v : T) :
  remaining + attempt = maxAttempts config → k < remaining →
  (∀ j, j < k → ∃ e, outcome j w = inr e ∧ canRetry e = true) →
  outcome k w = inl v →
  loop remaining attempt last w log
  = (Resolve v, world (S k) w, log ++ schedule Math_pow config attempt (S k)).
Proof.
  revert remaining attempt last w log.
  induction k as [|k IH]; intros remaining attempt last w log Hsum Hk Hfail Hout.
  - destruct remaining as [|remaining]; [lia|].
    unfold loop, outcome, outcomeAt, world in *. simpl in *.
    destruct (operation w) as [r w']. simpl in Hout. by subst r.
  - destruct remaining as [|remaining]; [lia|].
    destruct (Hfail 0) as (e & He & Hcan); [lia|].
    rewrite (loop_unfold_retry _ _ _ _ _ e); [|done|done|done|lia].
    rewrite (IH remaining (S attempt) (Some e) (world 1 w)); [|lia|lia| |done].
    + by rewrite schedule_step, <- app_assoc.
    + intros j Hj. apply (Hfail (S j)). lia.
Qed.

(** [k] retryable failures, then a failure that the predicate refuses. *)
Lemma loop_refused (k remaining attempt : nat) (last : option E) (w : W)
    (log : list Effect) (e : E) :
  remaining + attempt = maxAttempts config → k < remaining →
  (∀ j, j < k → ∃ e', outcome j w = inr e' ∧ canRetry e' = true) →
  outcome k w = inr e → canRetry e = false →
  loop remaining attempt last w log
  = (Throw (Some e), world (S k) w, log ++ schedule Math_pow config attempt (S k)).
Proof.
  revert remaining attempt last w log.
  induction k as [|k IH]; intros remaining attempt last w log Hsum Hk Hfail Hout Hno.
  - destruct remaining as [|remaining]; [lia|].
    unfold loop, outcome, outcomeAt, world, canRetry, retryable in *. simpl in *.
    destruct (operation w) as [r w']. simpl in Hout. subst r.
    destruct shouldRetryError as [p|]; [|done]. by rewrite Hno.
  - destruct remaining as [|remaining]; [lia|].
    destruct (Hfail 0) as (e' & He' & Hcan); [lia|].
    rewrite (loop_unfold_retry _ _ _ _ _ e'); [|done|done|done|lia].
    rewrite (IH remaining (S attempt) (Some e') (world 1 w)); [|lia|lia| |done|done].
    + by rewrite schedule_step, <- app_assoc.
    + intros j Hj. apply (Hfail (S j)). lia.
Qed.

(** Retryable failures at every one of the [remaining] attempts. *)
Lemma loop_exhausted (remaining attempt : nat) (last : option E) (w : W)
    (log : list Effect) (e : E) :
  S remaining + attempt = maxAttempts config →
  (∀ j, j < remaining → ∃ e', outcome j w = inr e' ∧ canRetry e' = true) →
  outcome remaining w = inr e → canRetry e = true →
  loop (S remaining) attempt last w log
  = (Throw (Some e), world (S remaining) w,
     log ++ schedule Math_pow config attempt (S remaining)).
Proof.
  revert attempt last w log.
  induction remaining as [|remaining IH]; intros attempt last w log Hsum Hfail Hout Hcan.
  - unfold loop, outcome, outcomeAt, world, canRetry, retryable in *. simpl in *.
    destruct (operation w) as [r w']. simpl in Hout. subst r.
    assert (Hp : match shouldRetryError with
                 | Some p => negb (p e) | None => false end = false).
    { destruct shouldRetryError; [by rewrite Hcan|done]. }
    rewrite Hp. unfold shouldRetry.
    assert (Hlt : (attempt + 1 <? maxAttempts config)%nat = false)
      by (apply Nat.ltb_ge; lia).
    by rewrite Hlt.
  - destruct (Hfail 0) as (e' & He' & Hcan'); [lia|].
    rewrite (loop_unfold_retry _ _ _ _ _ e'); [|done|done|done|lia].
    rewrite (IH (S attempt) (Some e') (world 1 w)); [|lia| |done|done].
    + by rewrite schedule_step, <- app_assoc.
    + intros j Hj. apply (Hfail (S j)). lia.
Qed.

(** Retryable failures at the attempts [0..k], with attempts left. *)
Lemma loop_retries (k remaining attempt : nat) (last : option E) (w : W)
    (log : list Effect) (e : E) :
  remaining + attempt = maxAttempts config → S k < remaining →
  (∀ j, j < k → ∃ e', outcome j w = inr e' ∧ canRetry e' = true) →
  outcome k w = inr e → canRetry e = true →
  loop remaining attempt last w log
  = loop (remaining - S k) (attempt + S k) (Some e) (world (S k) w)
         (log ++ schedule Math_pow config attempt (S k)
              ++ [Sleep (getRetryDelay Math_pow (attempt + k) config)]).
Proof.
  revert remaining attempt last w log.
  induction k as [|k IH]; intros remaining attempt last w log Hsum Hk Hfail Hout Hcan.
  - destruct remaining as [|remaining]; [lia|].
    rewrite (loop_unfold_retry _ _ _ _ _ e); [|done|done|done|lia].
    replace (S remaining - 1) with remaining by lia.
    replace (attempt + 1) with (S attempt) by lia.
    by replace (attempt + 0) with attempt by lia.
  - destruct remaining as [|remaining]; [lia|].
    destruct (Hfail 0) as (e' & He' & Hcan'); [lia|].
    rewrite (loop_unfold_retry _ _ _ _ _ e'); [|done|done|done|lia].
    rewrite (IH remaining (S attempt) (Some e') (world 1 w)); [|lia|lia| |done|done].
    + replace (S remaining - S (S k)) with (remaining - S k) by lia.
      replace (S attempt + S k) with (attempt + S (S k)) by lia.
      replace (S attempt + k) with (attempt + S k) by lia.
      by rewrite schedule_step, <- !app_assoc.
    + intros j Hj. apply (Hfail (S j)). lia.
Qed.

(** C5: [withRetry] calls the operation at most [maxAttempts] times, and
    between two calls it sleeps the backoff delay of the attempt that
    failed; a failure that the supplied predicate refuses is thrown at
    once, whatever attempts are left; after a retryable failure with
    attempts left the loop sleeps [getRetryDelay k] and calls the operation
    again; and when every attempt failed the error of the last attempt is
    thrown as it is.  (With [maxAttempts = 0] the operation is never
    called and the initial, undefined [lastError] is thrown.) *)
Theorem withRetry_semantics (w : W) :
  let run := withRetry Math_pow operation config shouldRetryError w in
  (∃ n, n ≤ maxAttempts config
        ∧ run.2 = schedule Math_pow config 0 n
        ∧ invocations run.2 = n)
  ∧ (∀ k p e,
       shouldRetryError = Some p →
       k < maxAttempts config →
       (∀ j, j < k → ∃ e', outcomeAt operation j w = inr e'
                           ∧ retryable shouldRetryError e' = true) →
       outcomeAt operation k w = inr e →
       p e = false →
       run = (Throw (Some e), worldBefore operation (S k) w,
              schedule Math_pow config 0 (S k)))
  ∧ (∀ k e,
       S k < maxAttempts config →
       (∀ j, j < k → ∃ e', outcomeAt operation j w = inr e'
                           ∧ retryable shouldRetryError e' = true) →
       outcomeAt operation k w = inr e →
       retryable shouldRetryError e = true →
       ∃ rest, run.2 = schedule Math_pow config 0 (S k)
                       ++ [Sleep (getRetryDelay Math_pow k config); Invoke (S k)] ++ rest)
  ∧ (∀ e,
       maxAttempts config ≠ 0 →
       (∀ j, j < maxAttempts config →
             ∃ e', outcomeAt operation j w = inr e'
                   ∧ retryable shouldRetryError e' = true) →
       outcomeAt operation (maxAttempts config - 1) w = inr e →
       run = (Throw (Some e), worldBefore operation (maxAttempts config) w,
              schedule Math_pow config 0 (maxAttempts config)))
  ∧ (maxAttempts config = 0 → run = (Throw None, w, [])).
Proof.
  unfold withRetry. fold loop outcome world canRetry.
  split; [|split; [|split; [|split]]]; [| | | |by intros ->].
  - destruct (loop_shape (maxAttempts config) 0 None w []) as (n & Hn & _ & Hlog);
      [lia|].
    exists n. split; [done|]. split; [done|].
    rewrite Hlog. apply invocations_schedule.
  - intros k p e Hp Hk Hfail Hout Hno.
    apply (loop_refused k); [lia|done|done|done|].
    unfold canRetry, retryable. by rewrite Hp.
  - intros k e Hk Hfail Hout Hcan.
    rewrite (loop_retries k _ _ _ _ _ e); [|lia|done|done|done|done].
    destruct (loop_shape (maxAttempts config - S k) (0 + S k) (Some e)
                (world (S k) w)
                ([] ++ schedule Math_pow config 0 (S k) ++ [Sleep (getRetryDelay Math_pow (0 + k) config)]))
      as (n & _ & Hpos & Hlog); [lia|].
    destruct n as [|n]; [exfalso; apply Hpos; lia|].
    rewrite Hlog, app_nil_l. change (0 + S k) with (S k). change (0 + k) with k.
    destruct (schedule_head (S k) n) as [rest ->].
    exists rest. by rewrite <- app_assoc.
  - intros e Hmax Hfail Hout.
    destruct (maxAttempts config) as [|r] eqn:Hr; [done|].
    replace (S r - 1) with r in Hout by lia.
    destruct (Hfail r) as (e' & He' & Hcan); [lia|].
    fold outcome in He'. rewrite Hout in He'. injection He' as <-.
    rewrite (loop_exhausted r 0 None w [] e); [done|lia| |done|done].
    intros j Hj. apply Hfail. lia.
Qed.

(** *** Recovery and the time spent sleeping *)

Lemma sleeps_schedule (attempt n : nat) :
  sleeps (schedule Math_pow config attempt n) = n - 1.
Proof.
  revert attempt. induction n as [|n IH]; intros attempt; [done|].
  destruct n as [|n]; [done|].
  rewrite schedule_step. unfold sleeps in *. rewrite List.filter_app, length_app.
  rewrite IH. simpl. lia.
Qed.

Lemma last_schedule (attempt n : nat) :
  last (schedule Math_pow config attempt (S n)) = Some (Invoke (attempt + n)).
Proof.
  revert attempt. induction n as [|n IH]; intros attempt.
  { simpl. by replace (attempt + 0) with attempt by lia. }
  rewrite schedule_step, last_app, IH.
  by replace (S attempt + n) with (attempt + S n) by lia.
Qed.

Lemma slept_schedule (attempt n : nat) (q : Q) :
  valueOf (maxDelay config) = Some (Real q) → (0 <= q)%Q →
  (slept (schedule Math_pow config attempt (S n)) <= inject_Z (Z.of_nat n) * q)%Q.
Proof.
  intros Hmax Hq. revert attempt. induction n as [|n IH]; intros attempt.
  { simpl. rewrite Qmult_0_l. apply Qle_refl. }
  change (slept (schedule Math_pow config attempt (S (S n))))
    with (timeoutOf (getRetryDelay Math_pow attempt config)
          + slept (schedule Math_pow config (S attempt) (S n)))%Q.
  rewrite Nat2Z.inj_succ, <- Z.add_1_l, inject_Z_plus, Qmult_plus_distr_l, Qmult_1_l.
  apply Qplus_le_compat; [by apply timeoutOf_capped|apply IH].
Qed.

(** X1: after [k] retryable failures, with an attempt left, the value of the
    first attempt that succeeds is the result: the operation has run
    [k + 1] times, with [k] sleeps in between, and is not called again. *)
Theorem withRetry_first_success (w : W) (k : nat) (v : T) :
  k < maxAttempts config →
  (∀ j, j < k → ∃ e, outcomeAt operation j w = inr e
                     ∧ retryable shouldRetryError e = true) →
  outcomeAt operation k w = inl v →
  let run := withRetry Math_pow operation config shouldRetryError w in
  run = (Resolve v, worldBefore operation (S k) w, schedule Math_pow config 0 (S k))
  ∧ invocations run.2 = S k
  ∧ sleeps run.2 = k.
Proof.
  intros Hk Hfail Hout run.
  assert (run = (Resolve v, worldBefore operation (S k) w, schedule Math_pow config 0 (S k)))
    as ->.
  { subst run. unfold withRetry. fold loop.
    rewrite (loop_success k (maxAttempts config) 0 None w [] v); [done|lia|done|done|done]. }
  split; [done|]. cbn [snd].
  split; [apply invocations_schedule|].
  rewrite sleeps_schedule. lia.
Qed.

(** X2: whatever the operation does, a run sleeps only between two
    invocations: once less than it invokes, never after the last
    invocation, and for no longer than [maxAttempts - 1] times
    [maxDelay] in total, [maxDelay] being a finite number that is not
    negative; a delay that is negative or not finite counts as 0. *)
Theorem withRetry_sleep_budget (w : W) :
  let log := (withRetry Math_pow operation config shouldRetryError w).2 in
  sleeps log = invocations log - 1
  ∧ (∀ delay, last log ≠ Some (Sleep delay))
  ∧ (∀ q, valueOf (maxDelay config) = Some (Real q) → (0 <= q)%Q →
          (slept log <= inject_Z (Z.of_nat (maxAttempts config - 1)) * q)%Q).
Proof.
  intros log.
  destruct (loop_shape (maxAttempts config) 0 None w []) as (n & Hn & _ & Hlog);
    [lia|].
  assert (log = schedule Math_pow config 0 n) as -> by (subst log; exact Hlog).
  split; [by rewrite sleeps_schedule, invocations_schedule|].
  split.
  { intros delay. destruct n as [|n]; [done|]. by rewrite last_schedule. }
  intros q Hmax Hq. destruct n as [|n].
  { simpl. apply Qmult_le_0_compat; [|done].
    change 0%Q with (inject_Z 0). rewrite <- Zle_Qle. lia. }
  eapply Qle_trans; [by apply slept_schedule|].
  apply Qmult_le_compat_r; [|done].
  rewrite <- Zle_Qle. lia.
Qed.

End WithRetry.

End Platform.

Lemma withRetry_semantics_witness :
  withRetry examplePow alwaysRejects DEFAULT_RETRY_CONFIG None 0
  = (Throw (Some 2), 3, schedule examplePow DEFAULT_RETRY_CONFIG 0 3).
Proof.
  destruct (withRetry_semantics examplePow alwaysRejects DEFAULT_RETRY_CONFIG None 0)
    as (_ & _ & _ & Hexhausted & _).
  apply (Hexhausted 2).
  - discriminate.
  - intros j Hj. exists j. split; [|reflexivity].
    destruct j as [|[|[|j]]]; [reflexivity..|simpl in Hj; lia].
  - reflexivity.
Defined.

Lemma withRetry_first_success_witness :
  withRetry examplePow flaky DEFAULT_RETRY_CONFIG None 0
  = (Resolve 2, 3, schedule examplePow DEFAULT_RETRY_CONFIG 0 3).
Proof.
  apply (withRetry_first_success examplePow flaky DEFAULT_RETRY_CONFIG None 0 2 2).
  - simpl. lia.
  - intros j Hj. exists j. split; [|reflexivity].
    destruct j as [|[|j]]; [reflexivity..|lia].
  - reflexivity.
Defined.

Lemma withRetry_sleep_budget_witness :
  (slept (withRetry examplePow alwaysRejects DEFAULT_RETRY_CONFIG None 0%nat).2
   <= 2 * 30000)%Q.
Proof.
  destruct (withRetry_sleep_budget examplePow alwaysRejects DEFAULT_RETRY_CONFIG
              None 0)
    as (_ & _ & Hbudget).
  eapply Qle_trans; [apply Hbudget; [reflexivity|]|]; vm_compute; discriminate.
Defined.


End RetryTheory.

(** ** utils/error-handler.ts *)

Module ErrorHandlerTheory.
Import ErrorHandler.

Lemma statusAtLeast500 (error : AppError) :
  match statusCode error with
  | Some c => negb (c =? 0)%Z && (500 <=? c)%Z
  | None => false
  end = true
  ↔ ∃ c, statusCode error = Some c ∧ (500 ≤ c)%Z.
Proof.
  destruct (statusCode error) as [c|]; split.
  - intros [_ H]%andb_true_iff. exists c. split; [done|]. by apply Z.leb_le.
  - intros (c' & [= <-] & Hc). apply andb_true_iff. split.
    + apply negb_true_iff, Z.eqb_neq. lia.
    + by apply Z.leb_le.
  - done.
  - by intros (c & [=] & _).
Qed.

Lemma isRetryableError_true_iff (error : AppError) :
  isRetryableError error = true ↔ retryCondition error.
Proof.
  unfold isRetryableError, retryCondition.
  pose proof (statusAtLeast500 error) as Hstatus.
  destruct (decide (category error = NETWORK)) as [Hnet|Hnet].
  { rewrite (bool_decide_eq_true_2 _ Hnet). tauto. }
  rewrite (bool_decide_eq_false_2 _ Hnet).
  destruct (decide (category error = WEBSOCKET)) as [Hws|Hws].
  { rewrite (bool_decide_eq_true_2 _ Hws). tauto. }
  rewrite (bool_decide_eq_false_2 _ Hws).
  destruct (match statusCode error with
            | Some c => negb (c =? 0)%Z && (500 <=? c)%Z
            | None => false
            end) eqn:H500; [tauto|].
  assert (¬ ∃ c, statusCode error = Some c ∧ (500 ≤ c)%Z) as Hno.
  { intros Hex. apply Hstatus in Hex. done. }
  destruct (includes (code error) "TIMEOUT") eqn:Htimeout; [tauto|].
  assert (false = true ↔ False) as Hff by (split; [discriminate|tauto]).
  repeat match goal with
         | |- context [if ?b then false else _] => destruct b
         end;
    rewrite Hff; intuition congruence.
Qed.

(** C7 (as stated it fails): an error with a 4xx status code whose code
    contains "TIMEOUT" is classified as retryable. *)
Lemma isRetryableError_4xx_retried :
  isRetryableError requestTimeout = true
  ∧ ∃ c, statusCode requestTimeout = Some c ∧ (400 ≤ c < 500)%Z.
Proof. split; [reflexivity|]. exists 408%Z. split; [reflexivity|lia]. Qed.

(** C7 (amended): [isRetryableError] answers [true] exactly when the
    category is NETWORK or WEBSOCKET, or the status code is at least 500,
    or the code contains "TIMEOUT".  In every other case it answers
    [false]: so it does for the rate-limit code, for a 4xx status code and
    for the AUTHENTICATION and VALIDATION categories whenever none of
    these four conditions holds. *)
Theorem isRetryableError_classification (error : AppError) :
  (category error = NETWORK → isRetryableError error = true)
  ∧ (category error = WEBSOCKET → isRetryableError error = true)
  ∧ (∀ c, statusCode error = Some c → (500 ≤ c)%Z → isRetryableError error = true)
  ∧ (includes (code error) "TIMEOUT" = true → isRetryableError error = true)
  ∧ (¬ retryCondition error → isRetryableError error = false).
Proof.
  pose proof (isRetryableError_true_iff error) as Hiff.
  unfold retryCondition in *.
  split; [tauto|]. split; [tauto|].
  split; [intros c Hc H500; apply Hiff; eauto 6|].
  split; [tauto|].
  intros Hno. destruct (isRetryableError error); [tauto|done].
Qed.

Lemma isRetryableError_classification_witness :
  isRetryableError rateLimited = false.
Proof.
  destruct (isRetryableError_classification rateLimited)
    as (_ & _ & _ & _ & Hclosed).
  apply Hclosed.
  intros [Hnet|[Hws|[(c & Hc & H500)|Htimeout]]]; try discriminate.
  injection Hc as <-. lia.
Defined.

(** *** The handlers that build an [AppError] *)

Lemma prefix_app_l (a b s : string) :
  String.prefix (a +:+ b) s = true → String.prefix a s = true.
Proof.
  revert s. induction a as [|c a IH]; intros s; [by destruct s|].
  destruct s as [|c' s]; [done|]. simpl.
  destruct (ascii_dec c c'); [apply IH|done].
Qed.

Lemma includes_nil (sub : string) : includes "" sub = String.prefix sub "".
Proof. unfold includes. by destruct (String.prefix sub ""). Qed.

Lemma includes_cons (c : Ascii.ascii) (s sub : string) :
  includes (String c s) sub = String.prefix sub (String c s) || includes s sub.
Proof.
  change (includes (String c s) sub)
    with (if String.prefix sub (String c s) then true else includes s sub).
  by destruct (String.prefix sub (String c s)).
Qed.

(** A string that contains a text contains every beginning of it. *)
Lemma includes_app_l (s a b : string) :
  includes s (a +:+ b) = true → includes s a = true.
Proof.
  induction s as [|c s IH].
  - rewrite !includes_nil. apply prefix_app_l.
  - rewrite !includes_cons. intros [Hp|Hin]%orb_true_iff; apply orb_true_iff.
    + left. by apply (prefix_app_l a b).
    + right. by apply IH.
Qed.

Lemma truthy_orElse (a : option json) (b : json) :
  truthy b = true → truthy (orElse a b) = true.
Proof. intros Hb. destruct a as [v|]; [|done]. simpl. by destruct (truthy v) eqn:Hv. Qed.

(** X4: the error that [handleApiError] builds is classified as retryable
    exactly when the request got no response or the status of the
    response is 500 or more: no 4xx answer is retried, the rate limit and
    the request timeout 408 included. *)
Theorem handleApiError_retryable (now : string) (error : AxiosError) (text : string) :
  isRetryableError (asAppError text (handleApiError now error))
  = match response error with
    | None => true
    | Some r => (500 <=? status r)%Z
    end.
Proof.
  apply Bool.eq_true_iff_eq. rewrite isRetryableError_true_iff.
  unfold retryCondition, handleApiError.
  destruct (response error) as [r|]; [|simpl; by intuition].
  cbv zeta. destruct (Z.leb_spec 500 (status r)) as [Hhigh|Hlow].
  - rewrite (proj2 (Z.eqb_neq _ 401)), (proj2 (Z.eqb_neq _ 403)) by lia.
    rewrite (proj2 (Z.ltb_ge _ 500)), andb_false_r by lia.
    simpl. split; [done|]. intros _. right. right. left.
    exists (status r). by split.
  - assert (∀ c, retryCondition c → statusCode c = Some (status r) →
                 category c ≠ NETWORK → category c ≠ WEBSOCKET →
                 includes (code c) "TIMEOUT" = false → false = true) as Hnever.
    { intros c [Hc|[Hc|[(s & Hs & Hc)|Hc]]] Hstatus Hnet Hws Htimeout;
        [done|done| |congruence].
      rewrite Hstatus in Hs. injection Hs as <-. lia. }
    destruct (status r =? 401)%Z; [|destruct (status r =? 403)%Z;
      [|destruct ((400 <=? status r)%Z && (status r <? 500)%Z);
        [destruct (status r =? 404)%Z; [|destruct (status r =? 429)%Z]|]]];
      (split; [|done]); intros Hc; by apply (Hnever _ Hc).
Qed.

(** X5: the message of the error that [handleApiError] builds is never
    falsy.  For a 4xx status other than 401, 403, 404 and 429 it is the
    [message] of the response body when that is truthy, else the [error]
    of the body when that is truthy, else a fixed text; for 401, 403, 404
    and 429 the body has no say in it. *)
Theorem handleApiError_message (now : string) (error : AxiosError) :
  let e := handleApiError now error in
  truthy (apiMessage e) = true
  ∧ (∀ r,
       response error = Some r →
       (400 ≤ status r < 500)%Z → fixedMessageStatus (status r) = false →
       apiCode e = "CLIENT_ERROR"
       ∧ apiCategory e = VALIDATION
       ∧ apiStatusCode e = Some (status r)
       ∧ apiDetails e = data r
       ∧ (∀ v, optionalOf (data r) "message" = Some v → truthy v = true →
               apiMessage e = v)
       ∧ (truthyOpt (optionalOf (data r) "message") = false →
          ∀ v, optionalOf (data r) "error" = Some v → truthy v = true →
               apiMessage e = v)
       ∧ (truthyOpt (optionalOf (data r) "message") = false →
          truthyOpt (optionalOf (data r) "error") = false →
          apiMessage e = JString "Invalid request. Please check your input."))
  ∧ (∀ r body,
       response error = Some r → fixedMessageStatus (status r) = true →
       apiMessage e
       = apiMessage (handleApiError now
                       {| response := Some {| status := status r; data := body;
                                              headers := headers r |};
                          errorMessage := errorMessage error |})).
Proof.
  intros e. split; [|split].
  - subst e. unfold handleApiError. destruct (response error) as [r|]; [|done].
    cbv zeta.
    repeat match goal with
           | |- context [if ?b then _ else _] => destruct b
           end; try done.
    simpl. by do 2 apply truthy_orElse.
  - intros r Hr Hrange Hfixed. subst e. unfold handleApiError. rewrite Hr. cbv zeta.
    unfold fixedMessageStatus in Hfixed.
    apply orb_false_iff in Hfixed as [Hfixed H429].
    apply orb_false_iff in Hfixed as [Hfixed H404].
    apply orb_false_iff in Hfixed as [H401 H403].
    rewrite H401, H403, H404, H429.
    assert ((400 <=? status r)%Z && (status r <? 500)%Z = true) as ->.
    { apply andb_true_iff. split; [apply Z.leb_le|apply Z.ltb_lt]; lia. }
    simpl. do 4 (split; [done|]).
    split; [|split].
    + intros v -> Hv. simpl. by rewrite Hv.
    + intros Hno v -> Hv.
      destruct (optionalOf (data r) "message") as [m|]; simpl in *;
        [rewrite Hno|]; by rewrite Hv.
    + intros Hno Hno'.
      destruct (optionalOf (data r) "message") as [m|],
               (optionalOf (data r) "error") as [m'|]; simpl in *;
        by rewrite ?Hno, ?Hno'.
  - intros r body Hr Hfixed. subst e. unfold handleApiError. rewrite Hr. simpl.
    unfold fixedMessageStatus in Hfixed.
    destruct (status r =? 401)%Z; [done|].
    destruct (status r =? 403)%Z; [done|].
    destruct ((400 <=? status r)%Z && (status r <? 500)%Z); [|simpl in Hfixed].
    + destruct (status r =? 404)%Z; [done|].
      destruct (status r =? 429)%Z; [done|]. done.
    + by destruct (500 <=? status r)%Z.
Qed.

Lemma handleApiError_message_witness :
  apiMessage (handleApiError "2026-01-01T00:00:00.000Z" unprocessable)
  = JString "Title is required".
Proof.
  destruct (handleApiError_message "2026-01-01T00:00:00.000Z" unprocessable)
    as (_ & Hclient & _).
  destruct (Hclient {| status := 422;
                       data := Some (JObject [("message", JString "");
                                              ("error", JString "Title is required")]);
                       headers := ∅ |})
    as (_ & _ & _ & _ & _ & Herror & _); [reflexivity|simpl; lia|reflexivity|].
  apply Herror; reflexivity.
Defined.

(** X6: whatever the message, [handleWebSocketError] builds an error of the
    WEBSOCKET category that carries the message in its details and is
    classified as retryable.  Its code follows the first keyword found, in
    the order timeout, disconnect, connect; the further test for
    "connection" never decides. *)
Theorem handleWebSocketError_retryable (now : string) (error : Error) :
  let e := handleWebSocketError now error in
  category e = WEBSOCKET
  ∧ isRetryableError e = true
  ∧ statusCode e = None
  ∧ details e = Some (JString (reason error))
  ∧ timestamp e = now
  ∧ formatErrorMessage e ≠ ""
  ∧ code e
    = (if includes (reason error) "timeout" then "WEBSOCKET_TIMEOUT"
       else if includes (reason error) "disconnect" then "WEBSOCKET_DISCONNECTED"
       else if includes (reason error) "connect" then "WEBSOCKET_CONNECTION_ERROR"
       else "WEBSOCKET_ERROR").
Proof.
  intros e. subst e. unfold handleWebSocketError. cbv zeta.
  pose proof (includes_app_l (reason error) "connect" "ion") as Hconnection.
  change ("connect" +:+ "ion") with "connection" in Hconnection.
  destruct (includes (reason error) "timeout"); [done|].
  destruct (includes (reason error) "disconnect"); [done|].
  destruct (includes (reason error) "connect"); [done|].
  destruct (includes (reason error) "connection"); [|done].
  by specialize (Hconnection eq_refl).
Qed.

(** X7: whatever the message, [handleNetworkError] builds an error of the
    NETWORK category that carries the message in its details and is
    classified as retryable.  Its code is one of five; a message that
    names a DNS failure is a DNS error even when it also names a timeout,
    and a timeout is reported only for a message that names no DNS
    failure. *)
Theorem handleNetworkError_retryable (now : string) (error : Error) :
  let e := handleNetworkError now error in
  category e = NETWORK
  ∧ isRetryableError e = true
  ∧ statusCode e = None
  ∧ details e = Some (JString (reason error))
  ∧ timestamp e = now
  ∧ formatErrorMessage e ≠ ""
  ∧ code e ∈ ["DNS_ERROR"; "TIMEOUT_ERROR"; "CONNECTION_REFUSED";
              "NETWORK_UNREACHABLE"; "NETWORK_ERROR"]
  ∧ (code e = "DNS_ERROR"
     ↔ includes (reason error) "DNS" = true
       ∨ includes (reason error) "ENOTFOUND" = true)
  ∧ (code e = "TIMEOUT_ERROR"
     ↔ code e ≠ "DNS_ERROR"
       ∧ (includes (reason error) "timeout" = true
          ∨ includes (reason error) "ETIMEDOUT" = true)).
Proof.
  intros e. subst e. unfold handleNetworkError. cbv zeta.
  rewrite <- !orb_true_iff.
  destruct (includes (reason error) "DNS" || includes (reason error) "ENOTFOUND");
    [|destruct (includes (reason error) "timeout"
                || includes (reason error) "ETIMEDOUT");
      [|destruct (includes (reason error) "ECONNREFUSED");
        [|destruct (includes (reason error) "ENETUNREACH")]]];
    simpl; repeat split; try done; try (by repeat constructor); try (by intros []).
Qed.

End ErrorHandlerTheory.

(** ** services/auth-service.ts *)

Module AuthServiceTheory.
Import AuthService.

Lemma getStorage_local (b : Browser) (t : string) :
  localStorage b !! ACCESS_TOKEN = Some t → t ≠ "" → getStorage b = LocalStorage.
Proof.
  intros Ht Hne. unfold getStorage. simpl. rewrite Ht. simpl.
  destruct (String.eqb_spec t ""); [done|reflexivity].
Qed.

Lemma getStorage_session (b : Browser) :
  localStorage b !! ACCESS_TOKEN = None → getStorage b = SessionStorage.
Proof. intros Ht. unfold getStorage. simpl. by rewrite Ht. Qed.

Lemma logout_clears (b : Browser) (key : string) :
  key ∈ [ACCESS_TOKEN; REFRESH_TOKEN; EXPIRES_IN] →
  localStorage (logout b) !! key = None ∧ sessionStorage (logout b) !! key = None.
Proof.
  intros Hkey. unfold logout, ACCESS_TOKEN, REFRESH_TOKEN, EXPIRES_IN in *. simpl.
  rewrite !lookup_delete.
  repeat (apply elem_of_cons in Hkey as [->|Hkey]); [..|by apply elem_of_nil in Hkey];
    by repeat case_decide.
Qed.

Lemma logout_no_tokens (b : Browser) :
  getAccessToken (logout b) = None ∧ getRefreshToken (logout b) = None.
Proof.
  unfold getAccessToken, getRefreshToken.
  destruct (logout_clears b ACCESS_TOKEN) as [Hlocal Hsession]; [set_solver|].
  destruct (logout_clears b REFRESH_TOKEN) as [Hlocal' Hsession']; [set_solver|].
  rewrite (getStorage_session _ Hlocal). by split.
Qed.

(** C9: which scope [getRefreshToken] and [getAccessToken] read is decided
    by the access-token entry of the durable scope and by nothing else: a
    non-empty entry selects the durable scope, a missing one the session
    scope.  So when the durable scope holds an access token and no
    refresh token while the session scope holds both, [getRefreshToken]
    is [null]: the session's refresh token is not consulted. *)
Theorem getRefreshToken_coupled_to_access_key :
  (∀ b b',
     localStorage b !! ACCESS_TOKEN = localStorage b' !! ACCESS_TOKEN →
     getStorage b = getStorage b')
  ∧ (∀ b t,
       localStorage b !! ACCESS_TOKEN = Some t → t ≠ "" →
       getRefreshToken b = localStorage b !! REFRESH_TOKEN
       ∧ getAccessToken b = Some t)
  ∧ (∀ b,
       localStorage b !! ACCESS_TOKEN = None →
       getRefreshToken b = sessionStorage b !! REFRESH_TOKEN
       ∧ getAccessToken b = sessionStorage b !! ACCESS_TOKEN)
  ∧ (∀ b t,
       localStorage b !! ACCESS_TOKEN = Some t → t ≠ "" →
       localStorage b !! REFRESH_TOKEN = None →
       is_Some (sessionStorage b !! ACCESS_TOKEN) →
       is_Some (sessionStorage b !! REFRESH_TOKEN) →
       getRefreshToken b = None)
  ∧ (localStorage sessionLogin !! ACCESS_TOKEN = Some "stale.access.token"
     ∧ localStorage sessionLogin !! REFRESH_TOKEN = None
     ∧ sessionStorage sessionLogin !! ACCESS_TOKEN = Some "a.b.c"
     ∧ sessionStorage sessionLogin !! REFRESH_TOKEN = Some "r.s.t"
     ∧ getRefreshToken sessionLogin = None).
Proof.
  split; [|split; [|split; [|split]]].
  - intros b b' Heq. unfold getStorage. simpl. by rewrite Heq.
  - intros b t Ht Hne. unfold getRefreshToken, getAccessToken.
    by rewrite (getStorage_local b t).
  - intros b Ht. unfold getRefreshToken, getAccessToken.
    by rewrite (getStorage_session b).
  - intros b t Ht Hne Hnone _ _. unfold getRefreshToken.
    by rewrite (getStorage_local b t).
  - by vm_compute.
Qed.

Lemma getRefreshToken_coupled_to_access_key_witness :
  getRefreshToken sessionLogin = None.
Proof.
  destruct getRefreshToken_coupled_to_access_key as (_ & _ & _ & Hcoupled & _).
  apply (Hcoupled sessionLogin "stale.access.token").
  - reflexivity.
  - discriminate.
  - reflexivity.
  - exists "a.b.c". reflexivity.
  - exists "r.s.t". reflexivity.
Defined.

(** *** Strings *)

Lemma Qeq_bool_inject_Z (x y : Z) : Qeq_bool (inject_Z x) (inject_Z y) = (x =? y)%Z.
Proof. unfold Qeq_bool. simpl. by rewrite !Z.mul_1_r. Qed.

Lemma Qle_bool_inject_Z (x y : Z) : Qle_bool (inject_Z x) (inject_Z y) = (x <=? y)%Z.
Proof. unfold Qle_bool. simpl. by rewrite !Z.mul_1_r. Qed.

Lemma append_cons (c : Ascii.ascii) (a b : string) :
  String c a +:+ b = String c (a +:+ b).
Proof. reflexivity. Qed.

Lemma append_nil_l (b : string) : "" +:+ b = b.
Proof. reflexivity. Qed.

Lemma append_nil_r (s : string) : s +:+ "" = s.
Proof.
  induction s as [|c s IH]; [done|]. by rewrite append_cons, IH.
Qed.

Lemma length_append (a b : string) :
  String.length (a +:+ b) = String.length a + String.length b.
Proof.
  induction a as [|c a IH]; [done|].
  rewrite append_cons. simpl. by rewrite IH.
Qed.

Lemma length_repeatChar (c : Ascii.ascii) (k : nat) :
  String.length (repeatChar c k) = k.
Proof. induction k as [|k IH]; simpl; by rewrite ?IH. Qed.

Lemma replaceAll_app (from to : Ascii.ascii) (a b : string) :
  replaceAll from to (a +:+ b) = replaceAll from to a +:+ replaceAll from to b.
Proof.
  induction a as [|c a IH]; [done|].
  rewrite append_cons. cbn [replaceAll]. by rewrite IH, append_cons.
Qed.

Lemma removeAll_app (c : Ascii.ascii) (a b : string) :
  removeAll c (a +:+ b) = removeAll c a +:+ removeAll c b.
Proof.
  induction a as [|c' a IH]; [done|].
  rewrite append_cons. cbn [removeAll].
  destruct (Ascii.eqb c' c); by rewrite IH, ?append_cons.
Qed.

Lemma replaceAll_padding (from to : Ascii.ascii) (k : nat) :
  from ≠ "="%char → replaceAll from to (repeatChar "=" k) = repeatChar "=" k.
Proof.
  intros Hne. induction k as [|k IH]; [done|].
  cbn [repeatChar replaceAll]. rewrite IH.
  destruct (Ascii.eqb_spec "="%char from); [congruence|done].
Qed.

Lemma removeAll_padding (k : nat) : removeAll "=" (repeatChar "=" k) = "".
Proof.
  induction k as [|k IH]; [done|].
  cbn [repeatChar removeAll]. rewrite Ascii.eqb_refl. exact IH.
Qed.

Lemma isAlphanumeric_other (c : Ascii.ascii) :
  isAlphanumeric c = true →
  c ≠ "+"%char ∧ c ≠ "/"%char ∧ c ≠ "-"%char ∧ c ≠ "_"%char ∧ c ≠ "="%char
  ∧ c ≠ "."%char.
Proof. intros Hc. repeat split; intros ->; by vm_compute in Hc. Qed.

Lemma base64Char_cases (c : Ascii.ascii) :
  isBase64Char c = true →
  c = "+"%char ∨ c = "/"%char ∨ isAlphanumeric c = true.
Proof.
  unfold isBase64Char. intros [[?|Hp%Ascii.eqb_eq]%orb_true_iff|Hs%Ascii.eqb_eq]%orb_true_iff;
    auto.
Qed.

Lemma urlSafe_body (body : string) :
  allChars isBase64Char body = true →
  let safe := replaceAll "/" "_" (replaceAll "+" "-" body) in
  removeAll "=" safe = safe
  ∧ replaceAll "_" "/" (replaceAll "-" "+" safe) = body
  ∧ allChars isBase64UrlChar safe = true
  ∧ String.length safe = String.length body.
Proof.
  induction body as [|c body IH]; [done|].
  simpl. intros [Hc Hbody]%andb_true_iff.
  destruct (IH Hbody) as (Hremove & Hback & Hsafe & Hlen).
  rewrite Hlen.
  destruct (base64Char_cases c Hc) as [->|[->|Halnum]].
  - simpl. rewrite Hremove, Hback, Hsafe. done.
  - simpl. rewrite Hremove, Hback, Hsafe. done.
  - destruct (isAlphanumeric_other c Halnum) as (H1 & H2 & H3 & H4 & H5 & _).
    rewrite (proj2 (Ascii.eqb_neq c "+") H1), (proj2 (Ascii.eqb_neq c "/") H2).
    simpl.
    rewrite (proj2 (Ascii.eqb_neq c "=") H5), (proj2 (Ascii.eqb_neq c "-") H3),
      (proj2 (Ascii.eqb_neq c "_") H4).
    simpl. rewrite Hremove, Hback, Hsafe.
    unfold isBase64UrlChar. by rewrite Halnum.
Qed.

Lemma allChars_app (p : Ascii.ascii → bool) (a b : string) :
  allChars p (a +:+ b) = allChars p a && allChars p b.
Proof.
  induction a as [|c a IH]; [done|].
  rewrite append_cons. cbn [allChars]. by rewrite IH, andb_assoc.
Qed.

(** A text without the separator is one part. *)
Lemma split_whole (sep : Ascii.ascii) (s : string) :
  allChars (λ c, negb (Ascii.eqb c sep)) s = true → split sep s = [s].
Proof.
  induction s as [|c s IH]; [done|].
  cbn [allChars split]. intros [Hc Hs]%andb_true_iff.
  apply negb_true_iff in Hc. by rewrite Hc, (IH Hs).
Qed.

Lemma split_first (sep : Ascii.ascii) (a rest : string) :
  allChars (λ c, negb (Ascii.eqb c sep)) a = true →
  split sep (a +:+ String sep rest) = a :: split sep rest.
Proof.
  induction a as [|c a IH].
  - intros _. rewrite append_nil_l. cbn [split]. by rewrite Ascii.eqb_refl.
  - cbn [allChars]. intros [Hc Ha]%andb_true_iff.
    apply negb_true_iff in Hc.
    rewrite append_cons. cbn [split]. by rewrite Hc, (IH Ha).
Qed.

Lemma allChars_impl (p q : Ascii.ascii → bool) (s : string) :
  (∀ c, p c = true → q c = true) → allChars p s = true → allChars q s = true.
Proof.
  intros Hpq. induction s as [|c s IH]; [done|].
  cbn [allChars]. intros [Hc Hs]%andb_true_iff.
  by rewrite (Hpq c Hc), (IH Hs).
Qed.

Lemma base64UrlChar_no_dot (c : Ascii.ascii) :
  isBase64UrlChar c = true → negb (Ascii.eqb c ".") = true.
Proof.
  intros Hc. apply negb_true_iff, Ascii.eqb_neq. intros ->. by vm_compute in Hc.
Qed.

Section Decoding.
Variable atob : string → option string.
Variable decodeURIComponent : string → option string.
Variable JSON_parse : string → option json.
Variable ToNumber : json → option Q.

Let decode := decodeToken atob decodeURIComponent JSON_parse.
Let expired := isTokenExpired atob decodeURIComponent JSON_parse ToNumber.

Lemma isTokenExpired_null (dateNow : Z) (token : string) :
  decode token = JNull → expired dateNow token = true.
Proof.
  intros Hnull. unfold expired, isTokenExpired. fold decode. by rewrite Hnull.
Qed.

Lemma decodeToken_segments (token : string) :
  length (split "." token) ≠ 3 → decode token = JNull.
Proof.
  intros Hlen. unfold decode, decodeToken.
  destruct (Nat.eqb_spec (length (split "." token)) 3); [done|reflexivity].
Qed.

Lemma decodeToken_three (token header payload signature : string) :
  split "." token = [header; payload; signature] →
  decode token
  = match base64UrlDecode atob decodeURIComponent payload with
    | None => JNull
    | Some decoded =>
        match JSON_parse decoded with
        | None => JNull
        | Some v => v
        end
    end.
Proof. intros Hparts. unfold decode, decodeToken. by rewrite Hparts. Qed.

Lemma base64UrlDecode_fails (payload : string) :
  base64UrlDecode atob decodeURIComponent payload = None
  ↔ let base64 := replaceAll "_" "/" (replaceAll "-" "+" payload) in
    let padded :=
      if negb (String.length base64 mod 4 =? 0)%nat
      then base64 +:+ repeatChar "=" (4 - String.length base64 mod 4)
      else base64 in
    atob padded = None
    ∨ ∃ decoded, atob padded = Some decoded
                 ∧ decodeURIComponent (percentEncodeAll decoded) = None.
Proof.
  unfold base64UrlDecode. cbv zeta.
  destruct (atob _) as [decoded|]; [|by split; [left|]].
  split.
  - intros Hfail. right. by exists decoded.
  - intros [?|(d & [= <-] & Hfail)]; done.
Qed.

Lemma decodeToken_text (token header payload signature bytes text : string) :
  split "." token = [header; payload; signature] →
  atob (let base64 := replaceAll "_" "/" (replaceAll "-" "+" payload) in
        if negb (String.length base64 mod 4 =? 0)%nat
        then base64 +:+ repeatChar "=" (4 - String.length base64 mod 4)
        else base64) = Some bytes →
  decodeURIComponent (percentEncodeAll bytes) = Some text →
  decode token = match JSON_parse text with
                 | None => JNull
                 | Some v => v
                 end.
Proof.
  intros Hparts Hatob Htext.
  rewrite (decodeToken_three _ _ _ _ Hparts).
  unfold base64UrlDecode. cbv zeta in *. by rewrite Hatob, Htext.
Qed.

(** C6 (amended): [isTokenExpired] answers [true] when the token has not
    exactly three dot-separated segments; when [atob] rejects the payload
    segment, taken with ["-"] and ["_"] replaced and padded to a multiple
    of four characters, or [decodeURIComponent] rejects the bytes;
    when the decoded text is not JSON; and when the claims have no
    expiry.  For claims with a numeric expiry it answers [true] exactly
    when the expiry is 0, which counts as missing, or is at most the
    current time plus 30 seconds: so it answers [true] for every expiry
    up to that bound, and [false] for every expiry beyond it that is not
    0. *)
Theorem isTokenExpired_spec (dateNow : Z) (token : string) :
  let currentTime := (dateNow / 1000)%Z in
  let padded payload :=
    let base64 := replaceAll "_" "/" (replaceAll "-" "+" payload) in
    if negb (String.length base64 mod 4 =? 0)%nat
    then base64 +:+ repeatChar "=" (4 - String.length base64 mod 4)
    else base64 in
  (length (split "." token) ≠ 3 → expired dateNow token = true)
  ∧ (∀ header payload signature,
       split "." token = [header; payload; signature] →
       atob (padded payload) = None →
       expired dateNow token = true)
  ∧ (∀ header payload signature bytes,
       split "." token = [header; payload; signature] →
       atob (padded payload) = Some bytes →
       decodeURIComponent (percentEncodeAll bytes) = None →
       expired dateNow token = true)
  ∧ (∀ header payload signature bytes text,
       split "." token = [header; payload; signature] →
       atob (padded payload) = Some bytes →
       decodeURIComponent (percentEncodeAll bytes) = Some text →
       (JSON_parse text = None → expired dateNow token = true)
       ∧ (∀ claims,
            JSON_parse text = Some claims →
            (getProperty claims "exp" = None → expired dateNow token = true)
            ∧ (∀ expiresAt,
                 getProperty claims "exp" = Some (JNumber expiresAt) →
                 expired dateNow token
                 = Qeq_bool expiresAt 0
                   || Qle_bool expiresAt (inject_Z (currentTime + 30))
                 ∧ ((expiresAt <= inject_Z (currentTime + 30))%Q →
                    expired dateNow token = true)
                 ∧ ((inject_Z (currentTime + 30) < expiresAt)%Q →
                    ¬ (expiresAt == 0)%Q →
                    expired dateNow token = false)))).
Proof.
  intros currentTime padded.
  split; [|split; [|split]].
  - intros Hlen. by apply isTokenExpired_null, decodeToken_segments.
  - intros header payload signature Hparts Hfail.
    apply isTokenExpired_null. rewrite (decodeToken_three _ _ _ _ Hparts).
    unfold base64UrlDecode. cbv zeta. subst padded. cbv beta zeta in Hfail.
    by rewrite Hfail.
  - intros header payload signature bytes Hparts Hatob Hfail.
    apply isTokenExpired_null. rewrite (decodeToken_three _ _ _ _ Hparts).
    unfold base64UrlDecode. cbv zeta. subst padded. cbv beta zeta in Hatob.
    by rewrite Hatob, Hfail.
  - intros header payload signature bytes text Hparts Hatob Htext.
    pose proof (decodeToken_text _ _ _ _ _ _ Hparts Hatob Htext) as Hdecode.
    split.
    { intros Hparse. apply isTokenExpired_null. by rewrite Hdecode, Hparse. }
    intros claims Hparse. rewrite Hparse in Hdecode.
    split.
    { intros Hexp. unfold expired, isTokenExpired. fold decode.
      rewrite Hdecode, Hexp. simpl. by rewrite orb_true_r. }
    intros expiresAt Hexp.
    assert (expired dateNow token
            = Qeq_bool expiresAt 0
              || Qle_bool expiresAt (inject_Z (currentTime + 30))) as Hexpired.
    { unfold expired, isTokenExpired. fold decode. rewrite Hdecode, Hexp.
      destruct claims; try done. simpl.
      by destruct (Qeq_bool expiresAt 0). }
    split; [done|]. rewrite Hexpired. split.
    + intros Hle. apply orb_true_iff. right. by apply Qle_bool_iff.
    + intros Hlt Hnonzero. apply orb_false_iff. split.
      * destruct (Qeq_bool expiresAt 0) eqn:Hzero; [|done].
        by apply Qeq_bool_eq in Hzero.
      * destruct (Qle_bool expiresAt (inject_Z (currentTime + 30))) eqn:Hle; [|done].
        apply Qle_bool_iff in Hle. exfalso. by apply (Qlt_not_le _ _ Hlt).
Qed.

(** X13: the entry [auth_expires_in] is written and removed but never read:
    two stores that differ in that entry only hand out the same tokens,
    and [isAuthenticated] and [refreshAccessToken] answer the same for
    them. *)
Theorem expiry_entry_never_read (dateNow : Z) (b b' : Browser) :
  (∀ ref key, key ≠ EXPIRES_IN → getItem ref key b' = getItem ref key b) →
  getStorage b' = getStorage b
  ∧ getAccessToken b' = getAccessToken b
  ∧ getRefreshToken b' = getRefreshToken b
  ∧ isAuthenticated atob decodeURIComponent JSON_parse ToNumber dateNow b'
    = isAuthenticated atob decodeURIComponent JSON_parse ToNumber dateNow b
  ∧ refreshAccessTokenBegin atob decodeURIComponent JSON_parse ToNumber dateNow b'
    = refreshAccessTokenBegin atob decodeURIComponent JSON_parse ToNumber dateNow b.
Proof.
  intros Hsame.
  assert (getStorage b' = getStorage b) as Hstorage.
  { unfold getStorage. by rewrite (Hsame LocalStorage ACCESS_TOKEN). }
  assert (getAccessToken b' = getAccessToken b) as Haccess.
  { unfold getAccessToken. by rewrite Hstorage, Hsame. }
  assert (getRefreshToken b' = getRefreshToken b) as Hrefresh.
  { unfold getRefreshToken. by rewrite Hstorage, Hsame. }
  split; [done|]. split; [done|]. split; [done|].
  split.
  - unfold isAuthenticated. by rewrite Haccess.
  - unfold refreshAccessTokenBegin. by rewrite Hrefresh.
Qed.

Section Refreshing.
Variable btoaUtf8 : string → string.
Variable JSON_stringify : json → string.

Lemma generateMockToken_nonempty (dateNow : Z) (username : json) (expiresIn : Z) :
  generateMockToken btoaUtf8 JSON_stringify dateNow username expiresIn ≠ "".
Proof.
  unfold generateMockToken. cbv zeta.
  by destruct (base64UrlEncode btoaUtf8 _).
Qed.

(** The token that [refreshAccessToken] returns is not empty, and it is
    the access token that the store hands out afterwards. *)
Lemma refreshAccessTokenEnd_stores (dateNow : Z) (refreshToken : string)
    (b : Browser) :
  let result :=
    refreshAccessTokenEnd atob decodeURIComponent JSON_parse btoaUtf8
                          JSON_stringify dateNow refreshToken b in
  result.1 ≠ "" ∧ getAccessToken result.2 = Some result.1.
Proof.
  unfold refreshAccessTokenEnd. cbv zeta. simpl fst. simpl snd.
  set (token := generateMockToken _ _ _ _ _).
  assert (token ≠ "") as Htoken by apply generateMockToken_nonempty.
  split; [done|].
  assert (truthyStr (Some token) = true) as Htruthy.
  { simpl. by destruct (String.eqb_spec token ""). }
  unfold getAccessToken, getStorage at 1.
  destruct (getStorage b) eqn:Hstorage; simpl.
  - rewrite lookup_insert_ne by done. rewrite lookup_insert_eq.
    rewrite Htruthy. simpl.
    rewrite lookup_insert_ne by done. apply lookup_insert_eq.
  - unfold getStorage in Hstorage. simpl in Hstorage.
    destruct (truthyStr (localStorage b !! ACCESS_TOKEN)); [done|].
    simpl. rewrite lookup_insert_ne by done. apply lookup_insert_eq.
Qed.

(** *** Encoding and decoding *)

Let mint := generateMockToken btoaUtf8 JSON_stringify.
Let holds := carries atob decodeURIComponent JSON_parse btoaUtf8 JSON_stringify.
Let authenticated := isAuthenticated atob decodeURIComponent JSON_parse ToNumber.

Lemma base64UrlDecode_encode (str : string) :
  standardBase64 (btoaUtf8 str) →
  allChars isBase64UrlChar (base64UrlEncode btoaUtf8 str) = true
  ∧ base64UrlDecode atob decodeURIComponent (base64UrlEncode btoaUtf8 str)
    = match atob (btoaUtf8 str) with
      | None => None
      | Some decoded => decodeURIComponent (percentEncodeAll decoded)
      end.
Proof.
  intros (body & k & Hshape & Hk & Hbody & Hlen).
  destruct (urlSafe_body body Hbody) as (Hremove & Hback & Hsafe & Hlength).
  assert (base64UrlEncode btoaUtf8 str
          = replaceAll "/" "_" (replaceAll "+" "-" body)) as Hencoded.
  { unfold base64UrlEncode. cbv zeta. rewrite Hshape.
    rewrite !replaceAll_app, !replaceAll_padding by done.
    by rewrite removeAll_app, removeAll_padding, append_nil_r. }
  split; [by rewrite Hencoded|].
  unfold base64UrlDecode. cbv zeta. rewrite Hencoded, Hback.
  rewrite Hshape, length_append, length_repeatChar in Hlen.
  assert ((if negb (String.length body mod 4 =? 0)%nat
           then body +:+ repeatChar "=" (4 - String.length body mod 4)
           else body) = btoaUtf8 str) as ->; [|done].
  rewrite Hshape.
  pose proof (Nat.div_mod_eq (String.length body) 4) as Hdiv.
  pose proof (Nat.mod_upper_bound (String.length body) 4) as Hupper.
  pose proof (Nat.div_mod_eq (String.length body + k) 4) as Hdiv'.
  rewrite Hlen in Hdiv'.
  destruct k as [|[|[|k]]]; [| | |lia].
  - replace (String.length body mod 4) with 0 by lia.
    by rewrite append_nil_r.
  - replace (String.length body mod 4) with 3 by lia. done.
  - replace (String.length body mod 4) with 2 by lia. done.
Qed.

(** X8: when [btoa] returns standard base64, the URL-safe text that
    [base64UrlEncode] makes of it has only letters, digits, ["-"] and
    ["_"], and [base64UrlDecode] hands to [atob] exactly what [btoa]
    returned: the two replacements are undone and the padding is put
    back. *)
Theorem base64Url_round_trip (str : string) :
  standardBase64 (btoaUtf8 str) →
  allChars isBase64UrlChar (base64UrlEncode btoaUtf8 str) = true
  ∧ base64UrlDecode atob decodeURIComponent (base64UrlEncode btoaUtf8 str)
    = match atob (btoaUtf8 str) with
      | None => None
      | Some decoded => decodeURIComponent (percentEncodeAll decoded)
      end.
Proof. apply base64UrlDecode_encode. Qed.

Lemma generateMockToken_segments (dateNow : Z) (username : json) (expiresIn : Z) :
  standardBase64 (btoaUtf8 (JSON_stringify mockHeader)) →
  standardBase64 (btoaUtf8 (JSON_stringify (mockPayload dateNow username expiresIn))) →
  split "." (mint dateNow username expiresIn)
  = [base64UrlEncode btoaUtf8 (JSON_stringify mockHeader);
     base64UrlEncode btoaUtf8 (JSON_stringify (mockPayload dateNow username expiresIn));
     "mock_signature"].
Proof.
  intros Hheader Hpayload.
  destruct (base64UrlDecode_encode _ Hheader)
    as [Hh _].
  destruct (base64UrlDecode_encode _ Hpayload)
    as [Hp _].
  apply (allChars_impl _ _ _ base64UrlChar_no_dot) in Hh, Hp.
  unfold mint, generateMockToken. cbv zeta.
  fold mockHeader. fold (mockPayload dateNow username expiresIn).
  change ("." +:+ ?x) with (String "." x).
  rewrite (split_first "." _ _ Hh).
  change (String "." "mock_signature") with ("." +:+ "mock_signature").
  change (?p +:+ "." +:+ "mock_signature") with (p +:+ String "." "mock_signature").
  rewrite (split_first "." _ _ Hp).
  by rewrite split_whole.
Qed.

Lemma generateMockToken_decodes (dateNow : Z) (username : json) (expiresIn : Z) :
  standardBase64 (btoaUtf8 (JSON_stringify mockHeader)) →
  holds (mockPayload dateNow username expiresIn) →
  decode (mint dateNow username expiresIn) = mockPayload dateNow username expiresIn.
Proof.
  intros Hheader (Hstandard & (bytes & Hatob & Hutf8) & Hparse).
  rewrite (decodeToken_three _ _ _ _
             (generateMockToken_segments _ _ _ Hheader Hstandard)).
  destruct (base64UrlDecode_encode _ Hstandard)
    as [_ ->].
  by rewrite Hatob, Hutf8, Hparse.
Qed.

Lemma generateMockToken_expired (dateNow : Z) (username : json) (expiresIn now' : Z) :
  standardBase64 (btoaUtf8 (JSON_stringify mockHeader)) →
  holds (mockPayload dateNow username expiresIn) →
  expired now' (mint dateNow username expiresIn)
  = ((dateNow / 1000 + expiresIn =? 0)%Z
     || (dateNow / 1000 + expiresIn <=? now' / 1000 + 30)%Z).
Proof.
  intros Hheader Hholds. unfold expired, isTokenExpired. cbv zeta.
  fold decode mint. rewrite (generateMockToken_decodes _ _ _ Hheader Hholds).
  simpl. change 0%Q with (inject_Z 0).
  rewrite Qeq_bool_inject_Z, Qle_bool_inject_Z.
  by destruct (dateNow / 1000 + expiresIn =? 0)%Z.
Qed.

Lemma truthyStr_nonempty (t : string) : t ≠ "" → truthyStr (Some t) = true.
Proof. intros Hne. simpl. by destruct (String.eqb_spec t ""). Qed.

(** X9: a token that [generateMockToken] has made has three segments and
    decodes to the claims that went into it, when the platform carries
    them through; [isTokenExpired] then answers [true] exactly from 30
    seconds before the expiry [floor(now / 1000) + expiresIn] on (or when
    that expiry is 0). *)
Theorem generated_token_lifetime (dateNow : Z) (username : json)
    (expiresIn now' : Z) :
  standardBase64 (btoaUtf8 (JSON_stringify mockHeader)) →
  holds (mockPayload dateNow username expiresIn) →
  let token := mint dateNow username expiresIn in
  let expiry := (dateNow / 1000 + expiresIn)%Z in
  length (split "." token) = 3
  ∧ decode token = mockPayload dateNow username expiresIn
  ∧ getProperty (decode token) "exp" = Some (JNumber (inject_Z expiry))
  ∧ expired now' token = ((expiry =? 0)%Z || (expiry <=? now' / 1000 + 30)%Z).
Proof.
  intros Hheader Hholds token expiry.
  pose proof Hholds as (Hstandard & _).
  split; [by subst token; rewrite generateMockToken_segments|].
  split; [by apply generateMockToken_decodes|].
  split; [by subst token; rewrite generateMockToken_decodes|].
  by apply generateMockToken_expired.
Qed.

Lemma storeTokens_get (tokens : AuthTokens) (remember : bool) (b : Browser) :
  accessToken tokens ≠ "" →
  remember = true ∨ truthyStr (localStorage b !! ACCESS_TOKEN) = false →
  getAccessToken (storeTokens tokens remember b) = Some (accessToken tokens)
  ∧ getRefreshToken (storeTokens tokens remember b) = Some (refreshToken tokens).
Proof.
  intros Hne Hcase. unfold getAccessToken, getRefreshToken, getStorage, storeTokens.
  destruct remember; simpl.
  - rewrite !lookup_insert_ne by done. rewrite lookup_insert_eq.
    rewrite (truthyStr_nonempty _ Hne). simpl.
    rewrite !lookup_insert_ne by done. rewrite lookup_insert_eq.
    by rewrite lookup_insert_ne, lookup_insert_eq by done.
  - destruct Hcase as [?|Hnone]; [done|]. rewrite Hnone. simpl.
    rewrite !lookup_insert_ne by done. rewrite lookup_insert_eq.
    by rewrite lookup_insert_ne, lookup_insert_eq by done.
Qed.

(** X10: after [login], when the user asked to be remembered or the durable
    scope holds no access token, the store hands out the two tokens that
    [login] returned; [isAuthenticated] answers [true] until 30 seconds
    before the 3600 seconds of the access token are over, and
    [refreshAccessToken] accepts the refresh token until 30 seconds before
    its 86400 seconds are over, and throws after that. *)
Theorem login_session (dateNow1 dateNow2 now' : Z) (credentials : LoginCredentials)
    (b : Browser) :
  (0 ≤ dateNow1)%Z → (0 ≤ dateNow2)%Z →
  standardBase64 (btoaUtf8 (JSON_stringify mockHeader)) →
  holds (mockPayload dateNow1 (JString (username credentials)) 3600) →
  holds (mockPayload dateNow2 (JString (username credentials)) 86400) →
  rememberMe credentials = Some true
  ∨ truthyStr (localStorage b !! ACCESS_TOKEN) = false →
  let result := login btoaUtf8 JSON_stringify dateNow1 dateNow2 credentials b in
  expiresIn result.1 = 3600%Z
  ∧ getAccessToken result.2 = Some (accessToken result.1)
  ∧ getRefreshToken result.2 = Some (refreshToken result.1)
  ∧ authenticated now' result.2
    = negb (dateNow1 / 1000 + 3600 <=? now' / 1000 + 30)%Z
  ∧ refreshAccessTokenBegin atob decodeURIComponent JSON_parse ToNumber now' result.2
    = if (dateNow2 / 1000 + 86400 <=? now' / 1000 + 30)%Z
      then inl (mkError "Refresh token has expired")
      else inr (refreshToken result.1).
Proof.
  intros Hclock1 Hclock2 Hheader Haccess Hrefresh Hscope result.
  set (access := mint dateNow1 (JString (username credentials)) 3600).
  set (refresh := mint dateNow2 (JString (username credentials)) 86400).
  assert (access ≠ "") as Hne by apply generateMockToken_nonempty.
  assert (refresh ≠ "") as Hne' by apply generateMockToken_nonempty.
  assert (getAccessToken result.2 = Some access
          ∧ getRefreshToken result.2 = Some refresh) as [Hget Hget'].
  { apply (storeTokens_get {| accessToken := access; refreshToken := refresh;
                              expiresIn := 3600 |}); [done|].
    destruct Hscope as [->|?]; [by left|by right]. }
  split; [done|]. split; [done|]. split; [done|].
  assert (∀ x, (0 ≤ x)%Z → ∀ e, (0 < e)%Z → (x / 1000 + e =? 0)%Z = false) as Hpos.
  { intros x Hx e He. apply Z.eqb_neq. pose proof (Z.div_pos x 1000 Hx). lia. }
  split.
  - unfold authenticated, isAuthenticated. rewrite Hget, (truthyStr_nonempty _ Hne).
    simpl negb. cbv iota. fold expired. unfold access.
    rewrite (generateMockToken_expired _ _ _ _ Hheader Haccess), Hpos by lia.
    simpl. by destruct (_ <=? _)%Z.
  - unfold refreshAccessTokenBegin. rewrite Hget', (truthyStr_nonempty _ Hne').
    simpl negb. cbv iota. fold expired. unfold refresh.
    rewrite (generateMockToken_expired _ _ _ _ Hheader Hrefresh), Hpos by lia.
    simpl. by destruct (_ <=? _)%Z.
Qed.

(** X11: after [logout] no token can be read, [isAuthenticated] answers
    [false] and [refreshAccessToken] throws for want of a refresh token;
    every other entry of the two storage areas is left as it was, and a
    second [logout] changes nothing. *)
Theorem logout_ends_session (dateNow : Z) (b : Browser) :
  getAccessToken (logout b) = None
  ∧ getRefreshToken (logout b) = None
  ∧ authenticated dateNow (logout b) = false
  ∧ refreshAccessTokenBegin atob decodeURIComponent JSON_parse ToNumber dateNow
      (logout b)
    = inl (mkError "No refresh token available")
  ∧ (∀ ref key,
       key ∉ [ACCESS_TOKEN; REFRESH_TOKEN; EXPIRES_IN] →
       getItem ref key (logout b) = getItem ref key b)
  ∧ logout (logout b) = logout b.
Proof.
  destruct (logout_no_tokens b) as [Haccess Hrefresh].
  split; [done|]. split; [done|].
  split; [unfold authenticated, isAuthenticated; by rewrite Haccess|].
  split; [unfold refreshAccessTokenBegin; by rewrite Hrefresh|].
  split.
  - intros ref key Hkey.
    apply not_elem_of_cons in Hkey as [H1 Hkey].
    apply not_elem_of_cons in Hkey as [H2 Hkey].
    apply not_elem_of_cons in Hkey as [H3 _].
    destruct ref; simpl; by rewrite !lookup_delete_ne.
  - unfold logout. simpl. f_equal; apply map_eq; intros key;
      rewrite !lookup_delete; by repeat case_decide.
Qed.

Lemma getStorage_refreshed (token : string) (b : Browser) :
  token ≠ "" →
  getStorage (setItem (getStorage b) EXPIRES_IN "3600"
                (setItem (getStorage b) ACCESS_TOKEN token b))
  = getStorage b.
Proof.
  intros Hne. destruct (getStorage b) eqn:Hstorage; unfold getStorage; simpl.
  - rewrite lookup_insert_ne, lookup_insert_eq by done.
    by rewrite (truthyStr_nonempty _ Hne).
  - unfold getStorage in Hstorage. simpl in Hstorage.
    by destruct (truthyStr (localStorage b !! ACCESS_TOKEN)).
Qed.

(** X12: what a successful [refreshAccessToken] leaves behind: the token it
    returns is the access token that the store hands out; it is written,
    with the expiry "3600", to the scope that was in use, which stays in
    use; the refresh token is not renewed and no other entry is touched;
    and the new token makes [isAuthenticated] answer [true] until 30
    seconds before its 3600 seconds are over. *)
Theorem refreshAccessToken_effects (dateNow : Z) (refreshToken : string) (b : Browser) :
  let result :=
    refreshAccessTokenEnd atob decodeURIComponent JSON_parse btoaUtf8
                          JSON_stringify dateNow refreshToken b in
  let username :=
    orElse (optionalProperty (decode refreshToken) "sub") (JString "user") in
  result.1 = mint dateNow username 3600
  ∧ getAccessToken result.2 = Some result.1
  ∧ getStorage result.2 = getStorage b
  ∧ getRefreshToken result.2 = getRefreshToken b
  ∧ getItem (getStorage b) EXPIRES_IN result.2 = Some "3600"
  ∧ (∀ ref key,
       ref ≠ getStorage b ∨ key ∉ [ACCESS_TOKEN; EXPIRES_IN] →
       getItem ref key result.2 = getItem ref key b)
  ∧ ((0 ≤ dateNow)%Z →
     standardBase64 (btoaUtf8 (JSON_stringify mockHeader)) →
     holds (mockPayload dateNow username 3600) →
     ∀ now', authenticated now' result.2
             = negb (dateNow / 1000 + 3600 <=? now' / 1000 + 30)%Z).
Proof.
  intros result username.
  destruct (refreshAccessTokenEnd_stores dateNow refreshToken b) as [Hne Hget].
  fold result in Hne, Hget.
  assert (result.1 = mint dateNow username 3600) as Htoken by done.
  assert (result.2
          = setItem (getStorage b) EXPIRES_IN "3600"
              (setItem (getStorage b) ACCESS_TOKEN result.1 b)) as Hstore by done.
  split; [done|]. split; [done|].
  assert (getStorage result.2 = getStorage b) as Hsame.
  { rewrite Hstore. by apply getStorage_refreshed. }
  split; [done|].
  split.
  { unfold getRefreshToken. rewrite Hsame, Hstore.
    destruct (getStorage b); simpl; by rewrite !lookup_insert_ne. }
  split.
  { rewrite Hstore. destruct (getStorage b); simpl; apply lookup_insert_eq. }
  split.
  { intros ref key Hother. rewrite Hstore.
    destruct (getStorage b), ref; simpl; try done;
      (destruct Hother as [?|Hkey]; [done|]);
      apply not_elem_of_cons in Hkey as [H1 Hkey];
      apply not_elem_of_cons in Hkey as [H2 _];
      by rewrite !lookup_insert_ne. }
  intros Hclock Hheader Hholds now'.
  unfold authenticated, isAuthenticated.
  rewrite Hget, (truthyStr_nonempty _ Hne). simpl negb. cbv iota.
  fold expired. rewrite Htoken.
  rewrite (generateMockToken_expired _ _ _ _ Hheader Hholds).
  assert ((dateNow / 1000 + 3600 =? 0)%Z = false) as ->.
  { apply Z.eqb_neq. pose proof (Z.div_pos dateNow 1000 Hclock). lia. }
  simpl. by destruct (_ <=? _)%Z.
Qed.

End Refreshing.

End Decoding.

(** C6 (as stated it fails): an expiry of 0 counts as missing.  With the
    clock 31 seconds before the epoch, the token whose claims are
    [{exp: 0}] has an expiry beyond the current time plus 30 seconds, and
    [isTokenExpired] answers [true]. *)
Lemma isTokenExpired_zero_expiry :
  decodeToken jwtAtob jwtDecodeURIComponent jwtParse zeroExpiryToken
  = JObject [("exp", JNumber 0)]
  ∧ (inject_Z (-31000 / 1000 + 30) < 0)%Q
  ∧ isTokenExpired jwtAtob jwtDecodeURIComponent jwtParse noNumber (-31000)
      zeroExpiryToken
    = true.
Proof. split; [|split]; vm_compute; reflexivity. Qed.

Lemma isTokenExpired_spec_witness :
  isTokenExpired jwtAtob jwtDecodeURIComponent jwtParse noNumber 1700000000000
    validToken
  = false.
Proof.
  destruct (isTokenExpired_spec jwtAtob jwtDecodeURIComponent jwtParse noNumber
              1700000000000 validToken)
    as (_ & _ & _ & Hdecoded).
  destruct (Hdecoded "eyJhbGciOiJIUzI1NiIsInR5cCI6IkpXVCJ9"
                     "eyJzdWIiOiJhbCIsImV4cCI6MjAwMDAwMDAwMH0" "signature"
                     claimsText claimsText)
    as [_ Hparsed]; [vm_compute; reflexivity..|].
  destruct (Hparsed (JObject [("sub", JString "al"); ("exp", JNumber 2000000000)]))
    as [_ Hclaims]; [vm_compute; reflexivity|].
  destruct (Hclaims 2000000000%Q) as (_ & _ & Hvalid); [reflexivity|].
  apply Hvalid; vm_compute; [reflexivity|discriminate].
Defined.

Lemma expiry_entry_never_read_witness :
  getAccessToken (setItem SessionStorage EXPIRES_IN "0" sessionLogin)
  = getAccessToken sessionLogin.
Proof.
  destruct (expiry_entry_never_read plainAtob plainDecodeURIComponent fixedParse
              noNumber 0 sessionLogin
              (setItem SessionStorage EXPIRES_IN "0" sessionLogin))
    as (_ & Haccess & _); [|exact Haccess].
  intros ref key Hkey. destruct ref; simpl; [done|].
  by rewrite lookup_insert_ne.
Defined.

Lemma base64Url_round_trip_witness :
  base64UrlDecode tableAtob tableDecodeURIComponent (base64UrlEncode tableBtoa "a")
  = Some "a".
Proof.
  destruct (base64Url_round_trip tableAtob tableDecodeURIComponent tableBtoa "a")
    as [_ Hback].
  - exists "YQ", 2. repeat split. lia.
  - exact Hback.
Defined.

Lemma generated_token_lifetime_witness :
  isTokenExpired tableAtob tableDecodeURIComponent tableParse noNumber
    1700003570000
    (generateMockToken tableBtoa tableStringify 1700000000000 (JString "ada") 3600)
  = true.
Proof.
  destruct (generated_token_lifetime tableAtob tableDecodeURIComponent tableParse
              noNumber tableBtoa tableStringify 1700000000000 (JString "ada")
              3600 1700003570000)
    as (_ & _ & _ & Hexpired).
  - exists "aA", 2. repeat split. lia.
  - split; [|split].
    + exists "YQ", 2. repeat split. lia.
    + exists "a". split; reflexivity.
    + reflexivity.
  - exact Hexpired.
Defined.

Lemma login_session_witness :
  isAuthenticated tableAtob tableDecodeURIComponent tableParse noNumber
    1700003000000
    (login tableBtoa tableStringify 1700000000000 1700000000000 ada staleDurable).2
  = true.
Proof.
  destruct (login_session tableAtob tableDecodeURIComponent tableParse noNumber
              tableBtoa tableStringify 1700000000000 1700000000000 1700003000000
              ada staleDurable)
    as (_ & _ & _ & Hauthenticated & _).
  - lia.
  - lia.
  - exists "aA", 2. repeat split. lia.
  - split; [|split].
    + exists "YQ", 2. repeat split. lia.
    + exists "a". split; reflexivity.
    + reflexivity.
  - split; [|split].
    + exists "cg", 2. repeat split. lia.
    + exists "r". split; reflexivity.
    + reflexivity.
  - by left.
  - exact Hauthenticated.
Defined.

Lemma refreshAccessToken_effects_witness :
  isAuthenticated tableAtob tableDecodeURIComponent tableParse noNumber
    1700006000000
    (refreshAccessTokenEnd tableAtob tableDecodeURIComponent tableParse tableBtoa
       tableStringify 1700003000000 "aA.cg.mock_signature" staleDurable).2
  = true.
Proof.
  destruct (refreshAccessToken_effects tableAtob tableDecodeURIComponent tableParse
              noNumber tableBtoa tableStringify 1700003000000
              "aA.cg.mock_signature" staleDurable)
    as (_ & _ & _ & _ & _ & _ & Hauthenticated).
  apply Hauthenticated.
  - lia.
  - exists "aA", 2. repeat split. lia.
  - split; [|split].
    + exists "bg", 2. repeat split. lia.
    + exists "n". split; reflexivity.
    + reflexivity.
Defined.

End AuthServiceTheory.

(** ** services/api-client.ts *)

Module ApiClientTheory.
Import ApiClient.

Lemma settlementsOf_app (p : PromiseId) (l1 l2 : list Effect) :
  settlementsOf p (l1 ++ l2) = settlementsOf p l1 ++ settlementsOf p l2.
Proof.
  induction l1 as [|ev l1 IH]; [done|].
  destruct ev; simpl; try apply IH.
  destruct (promise =? p)%nat; simpl; by rewrite IH.
Qed.

Lemma processRequest_success (token : string) (q : QueuedRequest) :
  token ≠ "" → processRequest None (Some token) q = replayed token q.
Proof.
  intros Hne. unfold processRequest, replayed, truthyStr.
  by destruct (String.eqb_spec token "").
Qed.

Lemma flat_map_ext_all {A B : Type} (f g : A → list B) (l : list A) :
  (∀ x, f x = g x) → flat_map f l = flat_map g l.
Proof. intros Heq. induction l as [|x l IH]; simpl; by rewrite ?Heq, ?IH. Qed.

Lemma flat_map_singleton {A B : Type} (f : A → B) (l : list A) :
  flat_map (λ x, [f x]) l = map f l.
Proof. induction l as [|x l IH]; simpl; by rewrite ?IH. Qed.

(** The whole of the [try] branch. *)
Lemma resume_success (promise : PromiseId) (originalRequest : RequestConfig)
    (token : string) (st : State) :
  token ≠ "" →
  let st' := resume promise originalRequest (inl token) st in
  effects st'
  = effects st ++ flat_map (replayed token) (requestQueue st)
      ++ [Dispatched (setAuthorization token originalRequest);
          Settled promise (ResolvedWith (setAuthorization token originalRequest))]
  ∧ requestQueue st' = []
  ∧ isRefreshing st' = false
  ∧ suspended st' = suspended st
  ∧ nextPromise st' = nextPromise st
  ∧ browser st' = browser st
  ∧ location st' = location st.
Proof.
  intros Hne. simpl. repeat split.
  rewrite (flat_map_ext_all _ (replayed token)); [by rewrite <- app_assoc|].
  intros q. by apply processRequest_success.
Qed.

(** The whole of the [catch] branch. *)
Lemma resume_failure (promise : PromiseId) (originalRequest : RequestConfig)
    (refreshError : Error) (st : State) :
  let st' := resume promise originalRequest (inr refreshError) st in
  effects st'
  = effects st ++ map (rejected refreshError) (requestQueue st)
      ++ [LogoutCalled; Settled promise (RejectedWith refreshError)]
  ∧ requestQueue st' = []
  ∧ isRefreshing st' = false
  ∧ suspended st' = suspended st
  ∧ nextPromise st' = nextPromise st
  ∧ browser st' = AuthService.logout (browser st)
  ∧ location st' = match location st with
                   | Some _ => Some "/login"
                   | None => None
                   end.
Proof.
  simpl. repeat split.
  change (processRequest (Some refreshError) None)
    with (λ q, [rejected refreshError q]).
  by rewrite flat_map_singleton, <- !app_assoc.
Qed.

Lemma filter_app_nil {A : Type} (f : A → bool) (l1 l2 : list A) :
  List.filter f l2 = [] → List.filter f (l1 ++ l2) = List.filter f l1.
Proof. intros Hnil. by rewrite List.filter_app, Hnil, app_nil_r. Qed.

Lemma no_dispatch_in_rejections (refreshError : Error) (promise : PromiseId)
    (queue : list QueuedRequest) :
  List.filter isDispatch
    (map (rejected refreshError) queue
     ++ [LogoutCalled; Settled promise (RejectedWith refreshError)]) = [].
Proof. induction queue as [|q queue IH]; [done|]. simpl. apply IH. Qed.

Lemma no_refresh_in_rejections (refreshError : Error) (promise : PromiseId)
    (queue : list QueuedRequest) :
  List.filter isRefreshCall
    (map (rejected refreshError) queue
     ++ [LogoutCalled; Settled promise (RejectedWith refreshError)]) = [].
Proof. induction queue as [|q queue IH]; [done|]. simpl. apply IH. Qed.

Lemma one_logout_in_rejections (refreshError : Error) (promise : PromiseId)
    (queue : list QueuedRequest) :
  List.filter isLogoutCall
    (map (rejected refreshError) queue
     ++ [LogoutCalled; Settled promise (RejectedWith refreshError)]) = [LogoutCalled].
Proof. induction queue as [|q queue IH]; [done|]. simpl. apply IH. Qed.

(** C8: when the refresh that a 401 started fails, every queued request
    and the request that started the refresh are rejected with the refresh
    error and none is replayed, [logout] is called exactly once and leaves
    no token in either storage scope, the page is sent to [/login], and
    the refresh flag is cleared. *)
Theorem failed_refresh_teardown (st : State) (promise : PromiseId)
    (originalRequest : RequestConfig) (refreshError : Error) (href : string) :
  lookupSuspended promise (suspended st) = Some originalRequest →
  location st = Some href →
  let st' := step st (RefreshSettled promise (inr refreshError)) in
  effects st'
  = effects st ++ map (rejected refreshError) (requestQueue st)
      ++ [LogoutCalled; Settled promise (RejectedWith refreshError)]
  ∧ logoutCalls st' = S (logoutCalls st)
  ∧ refreshCalls st' = refreshCalls st
  ∧ List.filter isDispatch (effects st') = List.filter isDispatch (effects st)
  ∧ browser st' = AuthService.logout (browser st)
  ∧ (∀ key,
       key ∈ [AuthService.ACCESS_TOKEN; AuthService.REFRESH_TOKEN;
               AuthService.EXPIRES_IN] →
       AuthService.localStorage (browser st') !! key = None
       ∧ AuthService.sessionStorage (browser st') !! key = None)
  ∧ location st' = Some "/login"
  ∧ isRefreshing st' = false
  ∧ requestQueue st' = [].
Proof.
  intros Hsuspended Hwindow st'.
  destruct (resume_failure promise originalRequest refreshError
              (dropSuspended promise st))
    as (Heffects & Hqueue & Hflag & _ & _ & Hbrowser & Hlocation).
  assert (st' = resume promise originalRequest (inr refreshError)
                       (dropSuspended promise st)) as ->.
  { subst st'. unfold step. by rewrite Hsuspended. }
  change (effects (dropSuspended promise st)) with (effects st) in Heffects.
  change (requestQueue (dropSuspended promise st)) with (requestQueue st) in Heffects.
  change (browser (dropSuspended promise st)) with (browser st) in Hbrowser.
  change (location (dropSuspended promise st)) with (location st) in Hlocation.
  rewrite Hwindow in Hlocation.
  split; [done|].
  split.
  { unfold logoutCalls. rewrite Heffects, List.filter_app,
      one_logout_in_rejections, length_app. simpl. lia. }
  split.
  { unfold refreshCalls. by rewrite Heffects, filter_app_nil
      by apply no_refresh_in_rejections. }
  split.
  { by rewrite Heffects, filter_app_nil by apply no_dispatch_in_rejections. }
  split; [done|].
  split.
  { intros key Hkey. rewrite Hbrowser. by apply AuthServiceTheory.logout_clears. }
  done.
Qed.

Lemma failed_refresh_teardown_witness :
  let st' := step twoInFlight
                  (RefreshSettled 0 (inr (mkError "Refresh token has expired"))) in
  location st' = Some "/login" ∧ isRefreshing st' = false ∧ requestQueue st' = [].
Proof.
  apply (failed_refresh_teardown twoInFlight 0 (markRetried getPosts)
           (mkError "Refresh token has expired") "/").
  - reflexivity.
  - reflexivity.
Defined.

(** *** Reachable states *)

Lemma settlementsOf_processQueue_other (error : option Error)
    (token : option string) (queue : list QueuedRequest) (p : PromiseId) :
  p ∉ map queuedPromise queue →
  settlementsOf p (flat_map (processRequest error token) queue) = [].
Proof.
  induction queue as [|q queue IH]; [done|].
  intros Hnotin. simpl in Hnotin.
  apply not_elem_of_cons in Hnotin as [Hne Hnotin].
  simpl. rewrite settlementsOf_app, (IH Hnotin), app_nil_r.
  assert ((queuedPromise q =? p)%nat = false) as Hneq
    by (apply Nat.eqb_neq; congruence).
  unfold processRequest. destruct error; simpl; by rewrite Hneq.
Qed.

Lemma settlementsOf_replayed_other (token : string) (queue : list QueuedRequest)
    (p : PromiseId) :
  p ∉ map queuedPromise queue →
  settlementsOf p (flat_map (replayed token) queue) = [].
Proof.
  induction queue as [|q queue IH]; [done|].
  intros Hnotin. simpl in Hnotin.
  apply not_elem_of_cons in Hnotin as [Hne Hnotin].
  assert ((queuedPromise q =? p)%nat = false) as Hneq
    by (apply Nat.eqb_neq; congruence).
  simpl. rewrite Hneq. by apply IH.
Qed.

Lemma settlementsOf_replayed (token : string) (queue : list QueuedRequest)
    (q : QueuedRequest) :
  NoDup (map queuedPromise queue) → q ∈ queue →
  settlementsOf (queuedPromise q) (flat_map (replayed token) queue)
  = [ResolvedWith (setAuthorization token (queuedConfig q))].
Proof.
  induction queue as [|q' queue IH]; intros Hnodup Hin.
  { by apply elem_of_nil in Hin. }
  simpl in Hnodup. apply NoDup_cons in Hnodup as [Hfresh Hnodup].
  simpl. apply elem_of_cons in Hin as [->|Hin].
  - rewrite Nat.eqb_refl. f_equal. by apply settlementsOf_replayed_other.
  - assert ((queuedPromise q' =? queuedPromise q)%nat = false) as Hneq.
    { apply Nat.eqb_neq. intros Heq. apply Hfresh. rewrite Heq.
      by apply list_elem_of_fmap_2. }
    rewrite Hneq. by apply IH.
Qed.

Lemma consistent_initial (b : AuthService.Browser) (href : option string) :
  consistent (initial b href).
Proof.
  unfold consistent, pending. simpl. split; [by left|].
  split; [constructor|]. split; [by intros p Hp%elem_of_nil|].
  split; [by intros p Hp%elem_of_nil|done].
Qed.

Lemma settlementsOf_snoc_other (p promise : PromiseId) (how : Settlement)
    (evs : list Effect) :
  promise ≠ p →
  settlementsOf p (evs ++ [Settled promise how]) = settlementsOf p evs.
Proof.
  intros Hne. rewrite settlementsOf_app. simpl.
  assert ((promise =? p)%nat = false) as -> by by apply Nat.eqb_neq.
  apply app_nil_r.
Qed.

(** A failure that is not answered with a refresh: the promise is
    rejected on the spot. *)
Lemma consistent_rejected (st : State) (how : Settlement) :
  consistent st →
  consistent
    (emit [Settled (nextPromise st) how]
       {| isRefreshing := isRefreshing st; requestQueue := requestQueue st;
          suspended := suspended st; browser := browser st;
          location := location st; nextPromise := S (nextPromise st);
          effects := effects st |}).
Proof.
  intros (Hmode & Hnodup & Hlt & Hunsettled & Hfuture).
  unfold consistent, pending in *. simpl.
  split; [done|]. split; [done|].
  split; [intros p Hp; specialize (Hlt p Hp); lia|].
  split.
  - intros p Hp. specialize (Hlt p Hp).
    rewrite settlementsOf_snoc_other by lia. by apply Hunsettled.
  - intros p Hp. rewrite settlementsOf_snoc_other by lia. apply Hfuture. lia.
Qed.

Lemma consistent_onResponseError (st : State) (error : AxiosError) :
  consistent st → consistent (onResponseError error st).2.
Proof.
  intros Hst. unfold onResponseError.
  destruct (config error) as [originalRequest|];
    [|by apply consistent_rejected].
  destruct (is401 error && negb (_retry originalRequest));
    [|by apply consistent_rejected].
  destruct Hst as (Hmode & Hnodup & Hlt & Hunsettled & Hfuture).
  simpl. destruct (isRefreshing st) eqn:Hflag; simpl.
  - (* a refresh is in flight: enqueue *)
    destruct Hmode as [(_ & Hidle & _)|(p0 & r0 & Hsusp & _)]; [congruence|].
    unfold consistent, pending in *. simpl. rewrite Hsusp in *. simpl in *.
    split; [right; by exists p0, r0|].
    rewrite map_app. simpl.
    assert (nextPromise st ∉ map queuedPromise (requestQueue st) ++ [p0]) as Hfresh.
    { intros Hin. specialize (Hlt _ Hin). lia. }
    split.
    { rewrite <- app_assoc. simpl. rewrite <- Permutation_middle.
      by apply NoDup_cons. }
    assert (∀ p, p ∈ (map queuedPromise (requestQueue st) ++ [nextPromise st]) ++ [p0] →
                 p = nextPromise st
                 ∨ p ∈ map queuedPromise (requestQueue st) ++ [p0]) as Hsplit.
    { intros p. rewrite !elem_of_app, !list_elem_of_singleton. tauto. }
    split; [|split].
    + intros p [->|Hp]%Hsplit; [lia|]. specialize (Hlt p Hp). lia.
    + intros p [->|Hp]%Hsplit; [by apply Hfuture|by apply Hunsettled].
    + intros p Hp. apply Hfuture. lia.
  - (* no refresh in flight: start one *)
    destruct Hmode as [(Hsusp & _ & Hqueue)|(p0 & r0 & _ & Hbusy)]; [|congruence].
    unfold consistent, pending in *. simpl. rewrite Hsusp, Hqueue in *. simpl in *.
    split; [right; by eexists _, _|].
    split; [apply NoDup_singleton|].
    split; [intros p ->%list_elem_of_singleton; lia|].
    split.
    + intros p ->%list_elem_of_singleton. rewrite settlementsOf_app. simpl.
      rewrite app_nil_r. by apply Hfuture.
    + intros p Hp. rewrite settlementsOf_app. simpl.
      rewrite app_nil_r. apply Hfuture. lia.
Qed.

Lemma lookupSuspended_singleton (promise p : PromiseId) (r r0 : RequestConfig) :
  lookupSuspended promise [(p, r)] = Some r0 → promise = p ∧ r0 = r.
Proof.
  simpl. destruct (Nat.eqb_spec p promise); [|done].
  intros [= <-]. by split.
Qed.

Lemma consistent_step (st : State) (ev : Event) :
  consistent st → consistent (step st ev).
Proof.
  intros Hst. destruct ev as [error|promise outcome]; simpl.
  { by apply consistent_onResponseError. }
  destruct (lookupSuspended promise (suspended st)) as [originalRequest|] eqn:Hlookup;
    [|done].
  destruct Hst as (Hmode & Hnodup & Hlt & Hunsettled & Hfuture).
  destruct Hmode as [(Hsusp & _ & _)|(p0 & r0 & Hsusp & Hbusy)].
  { by rewrite Hsusp in Hlookup. }
  rewrite Hsusp in Hlookup.
  apply lookupSuspended_singleton in Hlookup as [-> ->].
  assert (suspended (dropSuspended p0 st) = []) as Hdropped.
  { unfold dropSuspended. simpl. rewrite Hsusp. simpl. by rewrite Nat.eqb_refl. }
  unfold pending in *. rewrite Hsusp in *. simpl in Hnodup, Hlt, Hunsettled.
  assert (p0 ∉ map queuedPromise (requestQueue st)) as Hp0.
  { apply NoDup_app in Hnodup as (_ & Hdisj & _). intros Hin.
    apply (Hdisj p0 Hin). by apply list_elem_of_singleton. }
  assert (∀ p, nextPromise st ≤ p → p ∉ map queuedPromise (requestQueue st)) as Hnew.
  { intros p Hp Hin. assert (p < nextPromise st); [|lia].
    apply Hlt, elem_of_app. by left. }
  assert (∀ p, nextPromise st ≤ p → p ≠ p0) as Hnew0.
  { intros p Hp ->. assert (p0 < nextPromise st); [|lia].
    apply Hlt, elem_of_app. right. by apply list_elem_of_singleton. }
  unfold consistent, pending.
  destruct outcome as [token|refreshError]; simpl; rewrite Hsusp; simpl;
    rewrite Nat.eqb_refl; simpl.
  - split; [by left|]. split; [constructor|].
    split; [by intros p Hp%elem_of_nil|]. split; [by intros p Hp%elem_of_nil|].
    intros p Hp.
    rewrite !settlementsOf_app, Hfuture by done.
    rewrite settlementsOf_processQueue_other by by apply Hnew.
    simpl. assert ((p0 =? p)%nat = false) as ->; [|done].
    apply Nat.eqb_neq. intros <-. by apply (Hnew0 p0).
  - split; [by left|]. split; [constructor|].
    split; [by intros p Hp%elem_of_nil|]. split; [by intros p Hp%elem_of_nil|].
    intros p Hp.
    rewrite !settlementsOf_app, Hfuture by done.
    rewrite settlementsOf_processQueue_other by by apply Hnew.
    simpl. assert ((p0 =? p)%nat = false) as ->; [|done].
    apply Nat.eqb_neq. intros <-. by apply (Hnew0 p0).
Qed.

Lemma consistent_run (evs : list Event) (st : State) :
  consistent st → consistent (run evs st).
Proof.
  revert st. induction evs as [|ev evs IH]; intros st Hst; [done|].
  apply IH. by apply consistent_step.
Qed.

(** A promise that has left the interceptor is not touched again. *)
Lemma settled_step (st : State) (ev : Event) (p : PromiseId) :
  consistent st → p < nextPromise st → p ∉ pending st →
  settlementsOf p (effects (step st ev)) = settlementsOf p (effects st)
  ∧ p < nextPromise (step st ev)
  ∧ p ∉ pending (step st ev).
Proof.
  intros (Hmode & _) Hold Hgone.
  destruct ev as [error|promise outcome]; simpl.
  - unfold onResponseError.
    assert (∀ how,
              settlementsOf p (effects st ++ [Settled (nextPromise st) how])
              = settlementsOf p (effects st)) as Hrejected.
    { intros how. apply settlementsOf_snoc_other. lia. }
    destruct (config error) as [originalRequest|]; simpl;
      [|split; [apply Hrejected|split; [lia|done]]].
    destruct (is401 error && negb (_retry originalRequest)); simpl;
      [|split; [apply Hrejected|split; [lia|done]]].
    destruct (isRefreshing st); simpl.
    + split; [done|]. split; [lia|].
      unfold pending in *. simpl. rewrite map_app. simpl.
      rewrite !elem_of_app, list_elem_of_singleton in *.
      intros [[?| ->]|?]; [tauto|lia|tauto].
    + split.
      { rewrite settlementsOf_app. simpl. apply app_nil_r. }
      split; [lia|].
      unfold pending in *. simpl. rewrite map_app. simpl.
      rewrite !elem_of_app, list_elem_of_singleton in *.
      intros [?|[?| ->]]; [tauto|tauto|lia].
  - destruct (lookupSuspended promise (suspended st)) as [originalRequest|] eqn:Hlookup;
      [|done].
    destruct Hmode as [(Hsusp & _ & _)|(p0 & r0 & Hsusp & _)].
    { by rewrite Hsusp in Hlookup. }
    rewrite Hsusp in Hlookup.
    apply lookupSuspended_singleton in Hlookup as [-> ->].
    unfold pending in Hgone. rewrite Hsusp in Hgone. simpl in Hgone.
    apply not_elem_of_app in Hgone as [Hqueue Hp0%not_elem_of_cons].
    destruct Hp0 as [Hp0 _].
    assert ((p0 =? p)%nat = false) as Hneq by (apply Nat.eqb_neq; congruence).
    unfold pending.
    destruct outcome as [token|refreshError]; simpl; rewrite Hsusp; simpl;
      rewrite Nat.eqb_refl; simpl.
    + split; [|split; [done|by intros ?%elem_of_nil]].
      rewrite !settlementsOf_app, settlementsOf_processQueue_other by done.
      simpl. rewrite Hneq. by rewrite !app_nil_r.
    + split; [|split; [done|by intros ?%elem_of_nil]].
      rewrite !settlementsOf_app, settlementsOf_processQueue_other by done.
      simpl. rewrite Hneq. by rewrite !app_nil_r.
Qed.

Lemma settled_run (evs : list Event) (st : State) (p : PromiseId) :
  consistent st → p < nextPromise st → p ∉ pending st →
  settlementsOf p (effects (run evs st)) = settlementsOf p (effects st).
Proof.
  revert st. induction evs as [|ev evs IH]; intros st Hst Hold Hgone; [done|].
  destruct (settled_step st ev p Hst Hold Hgone) as (Heq & Hold' & Hgone').
  simpl. rewrite IH; [done| |done|done]. by apply consistent_step.
Qed.

Lemma processRequest_settles (error : option Error) (token : option string)
    (q : QueuedRequest) (p : PromiseId) :
  length (settlementsOf p (processRequest error token q))
  = if (queuedPromise q =? p)%nat then 1 else 0.
Proof.
  unfold processRequest. destruct error; simpl; by destruct (_ =? _)%nat.
Qed.

Lemma settlementsOf_processQueue_one (error : option Error) (token : option string)
    (queue : list QueuedRequest) (p : PromiseId) :
  NoDup (map queuedPromise queue) → p ∈ map queuedPromise queue →
  length (settlementsOf p (flat_map (processRequest error token) queue)) = 1.
Proof.
  induction queue as [|q queue IH]; intros Hnodup Hin.
  { by apply elem_of_nil in Hin. }
  simpl in Hnodup, Hin. apply NoDup_cons in Hnodup as [Hfresh Hnodup].
  cbn [flat_map]. rewrite settlementsOf_app, length_app, processRequest_settles.
  apply elem_of_cons in Hin as [->|Hin].
  - rewrite Nat.eqb_refl, settlementsOf_processQueue_other by done. done.
  - assert ((queuedPromise q =? p)%nat = false) as ->.
    { apply Nat.eqb_neq. by intros <-. }
    by rewrite IH.
Qed.

Lemma accounted_step (st : State) (ev : Event) :
  consistent st → accounted st → accounted (step st ev).
Proof.
  intros Hst Hacc p Hlt Hgone.
  destruct (decide (p < nextPromise st ∧ p ∉ pending st)) as [[Hold Hleft]|Hnew].
  { destruct (settled_step st ev p Hst Hold Hleft) as (-> & _). by apply Hacc. }
  destruct Hst as (Hmode & Hnodup & Hbound & Hunsettled & Hfuture).
  destruct ev as [error|promise outcome]; simpl in *.
  - (* a response error *)
    assert (p ∉ pending st) as Hleft.
    { intros Hin. apply Hgone. unfold onResponseError.
      destruct (config error) as [r|]; [|done].
      destruct (is401 error && negb (_retry r)); [|done].
      unfold pending in *. destruct (isRefreshing st); simpl;
        rewrite ?map_app, !elem_of_app in *; tauto. }
    assert (p = nextPromise st) as ->.
    { assert (nextPromise (onResponseError error st).2 = S (nextPromise st)) as Hnext.
      { unfold onResponseError. destruct (config error) as [r|]; [|done].
        destruct (is401 error && negb (_retry r)); [|done].
        by destruct (isRefreshing st). }
      rewrite Hnext in Hlt.
      destruct (decide (p < nextPromise st)); [|lia]. by destruct Hnew. }
    unfold onResponseError in *.
    assert (∀ how, length (settlementsOf (nextPromise st)
                             (effects st ++ [Settled (nextPromise st) how])) = 1)
      as Hone.
    { intros how. rewrite settlementsOf_app, Hfuture by done. simpl.
      by rewrite Nat.eqb_refl. }
    destruct (config error) as [r|]; [|apply Hone].
    destruct (is401 error && negb (_retry r)); [|apply Hone].
    exfalso. apply Hgone. unfold pending.
    destruct (isRefreshing st); simpl; rewrite ?map_app, !elem_of_app; simpl;
      rewrite ?list_elem_of_singleton, ?elem_of_app, ?list_elem_of_singleton; tauto.
  - (* the refresh settles *)
    destruct (lookupSuspended promise (suspended st)) as [r|] eqn:Hlookup.
    2:{ destruct (decide (p ∈ pending st)); [done|]. by destruct Hnew. }
    destruct Hmode as [(Hsusp & _ & _)|(p0 & r0 & Hsusp & _)].
    { by rewrite Hsusp in Hlookup. }
    rewrite Hsusp in Hlookup.
    apply lookupSuspended_singleton in Hlookup as [-> ->].
    assert (p < nextPromise st) as Hold by (by destruct outcome).
    assert (p ∈ pending st) as Hin.
    { destruct (decide (p ∈ pending st)); [done|]. by destruct Hnew. }
    specialize (Hunsettled p Hin).
    unfold pending in Hin, Hnodup. rewrite Hsusp in Hin, Hnodup. simpl in Hin, Hnodup.
    apply NoDup_app in Hnodup as (Hqueue & Hdisj & _).
    assert (length (settlementsOf p
                      (flat_map (processRequest
                                   match outcome with
                                   | inl _ => None
                                   | inr e => Some e
                                   end
                                   match outcome with
                                   | inl t => Some t
                                   | inr _ => None
                                   end) (requestQueue st)))
            + (if (p0 =? p)%nat then 1 else 0) = 1) as Hone.
    { apply elem_of_app in Hin as [Hin|Hin%list_elem_of_singleton].
      - rewrite settlementsOf_processQueue_one by done.
        assert ((p0 =? p)%nat = false) as ->; [|done].
        apply Nat.eqb_neq. intros ->. apply (Hdisj p Hin).
        by apply list_elem_of_singleton.
      - subst p. rewrite Nat.eqb_refl, settlementsOf_processQueue_other; [done|].
        intros Hin. apply (Hdisj p0 Hin). by apply list_elem_of_singleton. }
    destruct outcome as [token|refreshError]; simpl in *;
      rewrite !settlementsOf_app, Hunsettled; simpl;
      destruct (p0 =? p)%nat; simpl; rewrite ?app_nil_r, ?length_app; simpl; lia.
Qed.

Lemma accounted_run (evs : list Event) (st : State) :
  consistent st → accounted st → accounted (run evs st).
Proof.
  revert st. induction evs as [|ev evs IH]; intros st Hst Hacc; [done|].
  apply IH; [by apply consistent_step|by apply accounted_step].
Qed.

Lemma onResponseError_enqueue (st : State) (error : AxiosError)
    (originalRequest : RequestConfig) :
  isRefreshing st = true → unauthorized error originalRequest →
  onResponseError error st
  = (nextPromise st,
     {| isRefreshing := true;
        requestQueue := requestQueue st
                        ++ [mkQueuedRequest originalRequest (nextPromise st)];
        suspended := suspended st; browser := browser st;
        location := location st; nextPromise := S (nextPromise st);
        effects := effects st |}).
Proof.
  intros Hflag (H401 & Hconfig & Hretry).
  unfold onResponseError. rewrite Hconfig, H401, Hretry. simpl. by rewrite Hflag.
Qed.

Lemma onResponseError_start (st : State) (error : AxiosError)
    (originalRequest : RequestConfig) :
  isRefreshing st = false → unauthorized error originalRequest →
  onResponseError error st
  = (nextPromise st,
     {| isRefreshing := true;
        requestQueue := requestQueue st;
        suspended := suspended st ++ [(nextPromise st, markRetried originalRequest)];
        browser := browser st;
        location := location st; nextPromise := S (nextPromise st);
        effects := effects st ++ [RefreshCalled] |}).
Proof.
  intros Hflag (H401 & Hconfig & Hretry).
  unfold onResponseError. rewrite Hconfig, H401, Hretry. simpl. by rewrite Hflag.
Qed.

Lemma refreshCalls_replayed (token : string) (queue : list QueuedRequest) :
  List.filter isRefreshCall (flat_map (replayed token) queue) = [].
Proof. induction queue as [|q queue IH]; [done|]. simpl. apply IH. Qed.

(** The refresh of a suspended handler succeeds. *)
Lemma refresh_succeeds (st : State) (promise : PromiseId)
    (originalRequest : RequestConfig) (token : string) :
  consistent st →
  lookupSuspended promise (suspended st) = Some originalRequest →
  token ≠ "" →
  let st' := step st (RefreshSettled promise (inl token)) in
  effects st'
  = effects st ++ flat_map (replayed token) (requestQueue st)
      ++ replayed token (mkQueuedRequest originalRequest promise)
  ∧ refreshCalls st' = refreshCalls st
  ∧ (∀ q, q ∈ requestQueue st →
          settlementsOf (queuedPromise q) (effects st')
          = [ResolvedWith (setAuthorization token (queuedConfig q))]
          ∧ headers (setAuthorization token (queuedConfig q)) !! "Authorization"
            = Some ("Bearer " +:+ token))
  ∧ settlementsOf promise (effects st')
    = [ResolvedWith (setAuthorization token originalRequest)]
  ∧ (∀ evs p, p ∈ promise :: map queuedPromise (requestQueue st) →
              settlementsOf p (effects (run evs st'))
              = settlementsOf p (effects st'))
  ∧ requestQueue st' = []
  ∧ isRefreshing st' = false
  ∧ suspended st' = [].
Proof.
  intros Hst Hlookup Htoken st'.
  assert (consistent st') as Hst' by by apply consistent_step.
  destruct Hst as (Hmode & Hnodup & Hlt & Hunsettled & Hfuture).
  destruct Hmode as [(Hsusp & _ & _)|(p0 & r0 & Hsusp & Hbusy)].
  { by rewrite Hsusp in Hlookup. }
  rewrite Hsusp in Hlookup.
  apply lookupSuspended_singleton in Hlookup as [-> ->].
  destruct (resume_success p0 r0 token (dropSuspended p0 st) Htoken)
    as (Heffects & Hqueue & Hflag & Hsuspended & Hnext & _).
  assert (st' = resume p0 r0 (inl token) (dropSuspended p0 st)) as Hst'eq.
  { subst st'. unfold step. rewrite Hsusp. simpl. by rewrite Nat.eqb_refl. }
  clearbody st'. subst st'.
  change (nextPromise (dropSuspended p0 st)) with (nextPromise st) in Hnext.
  assert (suspended (resume p0 r0 (inl token) (dropSuspended p0 st)) = [])
    as Hnone.
  { rewrite Hsuspended. simpl. rewrite Hsusp. simpl. by rewrite Nat.eqb_refl. }
  change (effects (dropSuspended p0 st)) with (effects st) in Heffects.
  change (requestQueue (dropSuspended p0 st)) with (requestQueue st) in Heffects.
  unfold pending in *. rewrite Hsusp in *. simpl in Hnodup, Hlt, Hunsettled.
  apply NoDup_app in Hnodup as (Hqueued & Hdisj & _).
  assert (p0 ∉ map queuedPromise (requestQueue st)) as Hp0.
  { intros Hin. apply (Hdisj p0 Hin). by apply list_elem_of_singleton. }
  split; [done|].
  split.
  { unfold refreshCalls. rewrite Heffects, !List.filter_app, refreshCalls_replayed.
    simpl. by rewrite app_nil_r. }
  split.
  { intros q Hq. split.
    - assert (queuedPromise q ∈ map queuedPromise (requestQueue st)) as Hin
        by by apply list_elem_of_fmap_2.
      rewrite Heffects, !settlementsOf_app.
      rewrite Hunsettled by (apply elem_of_app; by left).
      rewrite settlementsOf_replayed by done.
      simpl. assert ((p0 =? queuedPromise q)%nat = false) as ->; [|done].
      apply Nat.eqb_neq. intros Heq. apply Hp0. by rewrite Heq.
    - simpl. apply lookup_insert_eq. }
  split.
  { rewrite Heffects, !settlementsOf_app.
    rewrite Hunsettled by (apply elem_of_app; right; by apply list_elem_of_singleton).
    rewrite settlementsOf_replayed_other by done.
    simpl. by rewrite Nat.eqb_refl. }
  split.
  { intros evs p Hp. apply settled_run; [done| |].
    - rewrite Hnext. apply Hlt.
      apply elem_of_cons in Hp as [->|Hp]; apply elem_of_app;
        [right; by apply list_elem_of_singleton|by left].
    - unfold pending. rewrite Hqueue, Hnone. simpl. by intros ?%elem_of_nil. }
  done.
Qed.

(** C1: while a refresh is in flight (the flag is set), a request that
    fails with 401 and has not been retried is put on the queue and its
    promise is left pending, without another call of [refreshAccessToken];
    in every reachable state at most one handler waits for a refresh; when
    two requests fail with 401 one after the other before the refresh
    settles, [refreshAccessToken] is called exactly once; and when the
    refresh succeeds with a non-empty token, every queued request and the
    request that started the refresh are resolved exactly once, each with
    its replay under [Authorization: Bearer <token>], and no later event
    settles them again.  The token that [refreshAccessToken] returns is
    never empty. *)
Theorem single_flight_refresh :
  (∀ st error originalRequest,
     isRefreshing st = true → unauthorized error originalRequest →
     let st' := (onResponseError error st).2 in
     (onResponseError error st).1 = nextPromise st
     ∧ requestQueue st'
       = requestQueue st ++ [mkQueuedRequest originalRequest (nextPromise st)]
     ∧ effects st' = effects st
     ∧ refreshCalls st' = refreshCalls st
     ∧ isRefreshing st' = true
     ∧ suspended st' = suspended st)
  ∧ (∀ b href evs,
       let st := run evs (initial b href) in
       consistent st ∧ length (suspended st) ≤ 1)
  ∧ (∀ st e1 r1 e2 r2 token,
       consistent st → isRefreshing st = false →
       unauthorized e1 r1 → unauthorized e2 r2 → token ≠ "" →
       let p1 := nextPromise st in
       let p2 := S p1 in
       let st2 := run [ResponseError e1; ResponseError e2] st in
       let st3 := step st2 (RefreshSettled p1 (inl token)) in
       refreshCalls st2 = S (refreshCalls st)
       ∧ requestQueue st2 = [mkQueuedRequest r2 p2]
       ∧ refreshCalls st3 = S (refreshCalls st)
       ∧ effects st3
         = effects st ++ [RefreshCalled]
             ++ replayed token (mkQueuedRequest r2 p2)
             ++ replayed token (mkQueuedRequest (markRetried r1) p1)
       ∧ settlementsOf p1 (effects st3)
         = [ResolvedWith (setAuthorization token (markRetried r1))]
       ∧ settlementsOf p2 (effects st3)
         = [ResolvedWith (setAuthorization token r2)]
       ∧ isRefreshing st3 = false
       ∧ requestQueue st3 = [])
  ∧ (∀ st promise originalRequest token,
       consistent st →
       lookupSuspended promise (suspended st) = Some originalRequest →
       token ≠ "" →
       let st' := step st (RefreshSettled promise (inl token)) in
       effects st'
       = effects st ++ flat_map (replayed token) (requestQueue st)
           ++ replayed token (mkQueuedRequest originalRequest promise)
       ∧ refreshCalls st' = refreshCalls st
       ∧ (∀ q, q ∈ requestQueue st →
               settlementsOf (queuedPromise q) (effects st')
               = [ResolvedWith (setAuthorization token (queuedConfig q))]
               ∧ headers (setAuthorization token (queuedConfig q)) !! "Authorization"
                 = Some ("Bearer " +:+ token))
       ∧ settlementsOf promise (effects st')
         = [ResolvedWith (setAuthorization token originalRequest)]
       ∧ (∀ evs p, p ∈ promise :: map queuedPromise (requestQueue st) →
                   settlementsOf p (effects (run evs st'))
                   = settlementsOf p (effects st'))
       ∧ requestQueue st' = []
       ∧ isRefreshing st' = false
       ∧ suspended st' = [])
  ∧ (∀ atob decodeURIComponent JSON_parse btoaUtf8 JSON_stringify
       dateNow refreshToken b,
       (AuthService.refreshAccessTokenEnd atob decodeURIComponent JSON_parse
          btoaUtf8 JSON_stringify dateNow refreshToken b).1 ≠ "").
Proof.
  split; [|split; [|split; [|split]]];
    [| | | |intros; apply AuthServiceTheory.refreshAccessTokenEnd_stores].
  - intros st error originalRequest Hflag Hun.
    by rewrite (onResponseError_enqueue _ _ _ Hflag Hun).
  - intros b href evs st.
    assert (consistent st) as Hst
      by apply consistent_run, consistent_initial.
    split; [done|].
    destruct Hst as ([(-> & _)|(p & r & -> & _)] & _); simpl; lia.
  - intros st e1 r1 e2 r2 token Hst Hidle Hun1 Hun2 Htoken p1 p2 st2 st3.
    pose proof Hst as (Hmode & _ & _ & _ & Hfuture).
    destruct Hmode as [(Hsusp & _ & Hqueue)|(? & ? & _ & Hbusy)]; [|congruence].
    assert (consistent st2) as Hst2 by by apply consistent_run.
    assert (st2 = {| isRefreshing := true;
                     requestQueue := [mkQueuedRequest r2 p2];
                     suspended := [(p1, markRetried r1)];
                     browser := browser st; location := location st;
                     nextPromise := S p2;
                     effects := effects st ++ [RefreshCalled] |}) as Hst2eq.
    { subst st2. unfold run. simpl.
      rewrite (onResponseError_start _ _ _ Hidle Hun1). simpl.
      rewrite (onResponseError_enqueue _ _ r2); [|done|done]. simpl.
      by rewrite Hsusp, Hqueue. }
    destruct (refresh_succeeds st2 p1 (markRetried r1) token Hst2)
      as (Heffects & Hcalls & Hqueued & Hfirst & _ & Hdrained & Hflag & _);
      [rewrite Hst2eq; simpl; by rewrite Nat.eqb_refl|done|].
    fold st3 in Heffects, Hcalls, Hqueued, Hfirst, Hdrained, Hflag.
    assert (refreshCalls st2 = S (refreshCalls st)) as Hcalls2.
    { rewrite Hst2eq. unfold refreshCalls. simpl.
      rewrite List.filter_app, length_app. simpl. lia. }
    split; [done|].
    split; [by rewrite Hst2eq|].
    split; [by rewrite Hcalls|].
    split.
    { rewrite Heffects, Hst2eq. simpl. by rewrite <- app_assoc. }
    split; [done|].
    split.
    { apply (Hqueued (mkQueuedRequest r2 p2)). rewrite Hst2eq. simpl.
      by apply list_elem_of_singleton. }
    done.
  - intros st promise originalRequest token Hst Hlookup Htoken.
    by apply refresh_succeeds.
Qed.

Lemma single_flight_refresh_witness :
  let st3 := step twoInFlight (RefreshSettled 0 (inl "new.access.token")) in
  refreshCalls st3 = 1
  ∧ settlementsOf 1 (effects st3)
    = [ResolvedWith (setAuthorization "new.access.token" postAlarm)].
Proof.
  destruct single_flight_refresh as (_ & _ & Htwo & _).
  destruct (Htwo (initial emptyBrowser (Some "/"))
                 (failed401 getPosts) getPosts (failed401 postAlarm) postAlarm
                 "new.access.token")
    as (_ & _ & Hcalls & _ & _ & Hsecond & _).
  - apply consistent_initial.
  - reflexivity.
  - repeat split.
  - repeat split.
  - discriminate.
  - split; [exact Hcalls|exact Hsecond].
Defined.

(** *** Errors that start no refresh *)

(** X14: the object that [formatError] builds always has a truthy code.  With
    a response it carries the status, the status text and the body of the
    response, its code and its message are those of the body when they
    are truthy, and otherwise "API_ERROR" and the message of the Axios
    error; without a response its message is truthy too, and its code
    tells whether the request was sent. *)
Theorem formatError_code (error : AxiosError) :
  let e := formatError error in
  truthy (fmtCode e) = true
  ∧ (∀ r, response error = Some r →
          fmtStatus e = Some (status r)
          ∧ fmtStatusText e = Some (statusText r)
          ∧ fmtData e = Some (data r)
          ∧ fmtOriginalError e = None
          ∧ (∀ v, optionalProperty (data r) "code" = Some v → truthy v = true →
                  fmtCode e = v)
          ∧ (truthyOpt (optionalProperty (data r) "code") = false →
             fmtCode e = JString "API_ERROR")
          ∧ (∀ v, optionalProperty (data r) "message" = Some v → truthy v = true →
                  fmtMessage e = v)
          ∧ (truthyOpt (optionalProperty (data r) "message") = false →
             fmtMessage e = JString (errorMessage error)))
  ∧ (response error = None →
     truthy (fmtMessage e) = true
     ∧ fmtStatus e = None ∧ fmtData e = None
     ∧ fmtCode e = JString (if request error then "NETWORK_ERROR" else "UNKNOWN_ERROR")
     ∧ fmtOriginalError e
       = (if request error then Some (errorMessage error) else None)).
Proof.
  intros e. subst e. unfold formatError.
  destruct (response error) as [r|].
  - split; [by apply ErrorHandlerTheory.truthy_orElse|]. split; [|done].
    intros ? [= <-].
    cbn [fmtStatus fmtStatusText fmtData fmtOriginalError fmtCode fmtMessage].
    do 4 (split; [done|]).
    split; [intros v -> Hv; simpl; by rewrite Hv|].
    split.
    { intros Hno. destruct (optionalProperty (data r) "code") as [v|]; [|done].
      simpl in *. by rewrite Hno. }
    split; [intros v -> Hv; simpl; by rewrite Hv|].
    intros Hno. destruct (optionalProperty (data r) "message") as [v|]; [|done].
    simpl in *. by rewrite Hno.
  - split; [by destruct (request error)|]. split; [done|]. intros _.
    destruct (request error); simpl; repeat split.
    destruct (negb (errorMessage error =? "")%string) eqn:Hempty; [|done].
    simpl. exact Hempty.
Qed.

Lemma formatError_code_witness :
  fmtCode (formatError (failed500 getPosts)) = JString "API_ERROR"
  ∧ fmtMessage (formatError (failed500 getPosts)) = JString "Database is down".
Proof.
  destruct (formatError_code (failed500 getPosts)) as (_ & Hresponse & _).
  destruct (Hresponse {| status := 500; statusText := "Internal Server Error";
                         data := JObject [("message", JString "Database is down")] |})
    as (_ & _ & _ & _ & _ & Hcode & Hmessage & _); [reflexivity|].
  split; [by apply Hcode|by apply Hmessage].
Defined.

(** X15: a failure that is not a 401, or has no request configuration, or
    belongs to a request that has been retried already, is handed to the
    caller as it is formatted by [formatError]: the promise is rejected
    once, no refresh is started, nothing is queued, replayed or logged
    out, whether a refresh is in flight or not. *)
Theorem other_errors_rejected (st : State) (error : AxiosError) :
  is401 error = false
  ∨ config error = None
  ∨ (∃ r, config error = Some r ∧ _retry r = true) →
  let promise := (onResponseError error st).1 in
  let st' := (onResponseError error st).2 in
  promise = nextPromise st
  ∧ effects st'
    = effects st ++ [Settled promise (RejectedFormatted (formatError error))]
  ∧ settlementsOf promise (effects st')
    = settlementsOf promise (effects st)
      ++ [RejectedFormatted (formatError error)]
  ∧ refreshCalls st' = refreshCalls st
  ∧ logoutCalls st' = logoutCalls st
  ∧ List.filter isDispatch (effects st') = List.filter isDispatch (effects st)
  ∧ isRefreshing st' = isRefreshing st
  ∧ requestQueue st' = requestQueue st
  ∧ suspended st' = suspended st
  ∧ browser st' = browser st
  ∧ location st' = location st.
Proof.
  intros Hother promise st'.
  assert (onResponseError error st
          = (nextPromise st,
             {| isRefreshing := isRefreshing st; requestQueue := requestQueue st;
                suspended := suspended st; browser := browser st;
                location := location st; nextPromise := S (nextPromise st);
                effects := effects st
                           ++ [Settled (nextPromise st)
                                 (RejectedFormatted (formatError error))] |}))
    as Heq.
  { unfold onResponseError.
    destruct (config error) as [r|]; [|done].
    destruct Hother as [->|[?|(r' & [= <-] & ->)]]; [done|done|].
    by rewrite andb_false_r. }
  subst promise st'. rewrite Heq. simpl.
  split; [done|]. split; [done|].
  split. { rewrite settlementsOf_app. simpl. by rewrite Nat.eqb_refl. }
  unfold refreshCalls, logoutCalls. simpl.
  by rewrite !List.filter_app, !app_nil_r.
Qed.

Lemma other_errors_rejected_witness :
  effects (onResponseError (failed500 getPosts) twoInFlight).2
  = effects twoInFlight
    ++ [Settled 2 (RejectedFormatted (formatError (failed500 getPosts)))].
Proof.
  destruct (other_errors_rejected twoInFlight (failed500 getPosts))
    as (_ & Heffects & _); [by left|].
  exact Heffects.
Defined.

(** X16: only the request that started a refresh is marked as retried.  When
    two requests have failed with 401 and the refresh has succeeded, the
    queued one is replayed first and without the mark: a 401 on its
    replay starts a second refresh, whereas a 401 on the replay of the
    first request is handed to the caller. *)
Theorem queued_replay_not_marked :
  ∀ st e1 r1 e2 r2 token,
    consistent st → isRefreshing st = false →
    unauthorized e1 r1 → unauthorized e2 r2 → token ≠ "" →
    let p1 := nextPromise st in
    let st3 := run [ResponseError e1; ResponseError e2;
                    RefreshSettled p1 (inl token)] st in
    let first := setAuthorization token (markRetried r1) in
    let second := setAuthorization token r2 in
    List.filter isDispatch (effects st3)
    = List.filter isDispatch (effects st) ++ [Dispatched second; Dispatched first]
    ∧ _retry first = true
    ∧ _retry second = false
    ∧ (∀ e, is401 e = true → config e = Some first →
            let st4 := step st3 (ResponseError e) in
            refreshCalls st4 = refreshCalls st3
            ∧ isRefreshing st4 = false
            ∧ settlementsOf (nextPromise st3) (effects st4)
              = [RejectedFormatted (formatError e)])
    ∧ (∀ e, is401 e = true → config e = Some second →
            let st4 := step st3 (ResponseError e) in
            refreshCalls st4 = S (refreshCalls st3)
            ∧ isRefreshing st4 = true
            ∧ suspended st4 = [(nextPromise st3, markRetried second)]
            ∧ settlementsOf (nextPromise st3) (effects st4) = []).
Proof.
  intros st e1 r1 e2 r2 token Hst Hidle Hun1 Hun2 Htoken p1 st3 first second.
  pose proof Hst as (Hmode & _ & _ & _ & Hfuture).
  destruct Hmode as [(Hsusp & _ & Hqueue)|(? & ? & _ & Hbusy)]; [|congruence].
  set (st2 := run [ResponseError e1; ResponseError e2] st).
  assert (consistent st2) as Hst2 by by apply consistent_run.
  assert (st2 = {| isRefreshing := true;
                   requestQueue := [mkQueuedRequest r2 (S p1)];
                   suspended := [(p1, markRetried r1)];
                   browser := browser st; location := location st;
                   nextPromise := S (S p1);
                   effects := effects st ++ [RefreshCalled] |}) as Hst2eq.
  { subst st2. unfold run. simpl.
    rewrite (onResponseError_start _ _ _ Hidle Hun1). simpl.
    rewrite (onResponseError_enqueue _ _ r2); [|done|done]. simpl.
    by rewrite Hsusp, Hqueue. }
  assert (st3 = step st2 (RefreshSettled p1 (inl token))) as Hst3 by done.
  assert (consistent st3) as Hcons3 by (rewrite Hst3; by apply consistent_step).
  destruct (refresh_succeeds st2 p1 (markRetried r1) token Hst2)
    as (Heffects & _ & _ & _ & _ & Hdrained & Hflag & Hnone);
    [rewrite Hst2eq; simpl; by rewrite Nat.eqb_refl|done|].
  rewrite <- Hst3 in Heffects, Hdrained, Hflag, Hnone.
  destruct Hun2 as (_ & _ & Hfresh).
  split.
  { rewrite Heffects, Hst2eq. simpl. rewrite !List.filter_app. simpl.
    by rewrite app_nil_r. }
  split; [done|]. split; [done|].
  split.
  - intros e H401 Hconfig st4.
    destruct (Hcons3) as (_ & _ & _ & _ & Hfuture3).
    assert (onResponseError e st3
            = (nextPromise st3,
               emit [Settled (nextPromise st3) (RejectedFormatted (formatError e))]
                    {| isRefreshing := isRefreshing st3;
                       requestQueue := requestQueue st3;
                       suspended := suspended st3; browser := browser st3;
                       location := location st3;
                       nextPromise := S (nextPromise st3);
                       effects := effects st3 |})) as Heq.
    { unfold onResponseError. rewrite Hconfig, H401. done. }
    subst st4. unfold step. rewrite Heq. simpl.
    split; [unfold refreshCalls; simpl; by rewrite List.filter_app, app_nil_r|].
    split; [done|].
    rewrite settlementsOf_app, Hfuture3 by lia. simpl. by rewrite Nat.eqb_refl.
  - intros e H401 Hconfig st4.
    destruct (Hcons3) as (_ & _ & _ & _ & Hfuture3).
    subst st4. unfold step.
    rewrite (onResponseError_start st3 e second); [|done|done].
    simpl. rewrite Hnone.
    split; [unfold refreshCalls; simpl; rewrite List.filter_app, length_app; simpl; lia|].
    split; [done|]. split; [done|].
    rewrite settlementsOf_app, Hfuture3 by lia. done.
Qed.

Lemma queued_replay_not_marked_witness :
  let st3 := step twoInFlight (RefreshSettled 0 (inl "new.access.token")) in
  let again :=
    failed401 (setAuthorization "new.access.token" postAlarm) in
  refreshCalls (step st3 (ResponseError again)) = 2.
Proof.
  destruct (queued_replay_not_marked (initial emptyBrowser (Some "/"))
              (failed401 getPosts) getPosts (failed401 postAlarm) postAlarm
              "new.access.token")
    as (_ & _ & _ & _ & Hsecond).
  - apply consistent_initial.
  - reflexivity.
  - repeat split.
  - repeat split.
  - discriminate.
  - destruct (Hsecond (failed401 (setAuthorization "new.access.token" postAlarm)))
      as (Hcalls & _); [reflexivity..|].
    exact Hcalls.
Defined.

(** *** The request interceptor *)

(** X17: the request interceptor changes the headers only: it always sets
    [X-Request-ID], and it sets [Authorization] to the stored access
    token when there is a non-empty one, leaving the caller's header in
    place otherwise.  So a request sent after a successful
    [refreshAccessToken] carries the token that the refresh returned, and
    a request sent after [logout] carries no token of the store. *)
Theorem onRequest_token (dateNow : Z) (suffix : string) (b : AuthService.Browser)
    (config : RequestConfig) :
  let sent := onRequest dateNow suffix b config in
  (url sent = url config ∧ method sent = method config ∧ _retry sent = _retry config)
  ∧ headers sent !! "X-Request-ID"
    = Some ("req_" +:+ pretty dateNow +:+ "_" +:+ suffix)
  ∧ (∀ name, name ≠ "Authorization" → name ≠ "X-Request-ID" →
             headers sent !! name = headers config !! name)
  ∧ (∀ t, AuthService.getAccessToken b = Some t → t ≠ "" →
          headers sent !! "Authorization" = Some ("Bearer " +:+ t))
  ∧ (AuthService.getAccessToken b = None ∨ AuthService.getAccessToken b = Some "" →
     headers sent !! "Authorization" = headers config !! "Authorization")
  ∧ (∀ atob decodeURIComponent JSON_parse btoaUtf8 JSON_stringify now refreshToken,
       let refreshed :=
         AuthService.refreshAccessTokenEnd atob decodeURIComponent JSON_parse
           btoaUtf8 JSON_stringify now refreshToken b in
       headers (onRequest dateNow suffix refreshed.2 config) !! "Authorization"
       = Some ("Bearer " +:+ refreshed.1))
  ∧ headers (onRequest dateNow suffix (AuthService.logout b) config) !! "Authorization"
    = headers config !! "Authorization".
Proof.
  assert (∀ b' t, AuthService.getAccessToken b' = Some t → t ≠ "" →
                  headers (onRequest dateNow suffix b' config) !! "Authorization"
                  = Some ("Bearer " +:+ t)) as Hattach.
  { intros b' t Ht Hne. unfold onRequest. rewrite Ht. cbv zeta.
    rewrite (AuthServiceTheory.truthyStr_nonempty _ Hne). simpl.
    rewrite lookup_insert_ne by done. apply lookup_insert_eq. }
  assert (∀ b', AuthService.getAccessToken b' = None
                ∨ AuthService.getAccessToken b' = Some "" →
                headers (onRequest dateNow suffix b' config) !! "Authorization"
                = headers config !! "Authorization") as Hkeep.
  { intros b' [Ht|Ht]; unfold onRequest; rewrite Ht; simpl;
      by rewrite lookup_insert_ne. }
  intros sent.
  split.
  { subst sent. unfold onRequest.
    by destruct (AuthService.getAccessToken b) as [t|]; [destruct (truthyStr _)|]. }
  split.
  { subst sent. unfold onRequest. simpl. apply lookup_insert_eq. }
  split.
  { intros name Hauth Hid. subst sent. unfold onRequest. simpl.
    rewrite lookup_insert_ne by done.
    destruct (AuthService.getAccessToken b) as [t|]; [|done].
    destruct (truthyStr _); [|done]. simpl. by rewrite lookup_insert_ne. }
  split; [apply Hattach|]. split; [apply Hkeep|].
  split.
  - intros atob decodeURIComponent JSON_parse btoaUtf8 JSON_stringify now
           refreshToken refreshed.
    destruct (AuthServiceTheory.refreshAccessTokenEnd_stores atob decodeURIComponent
                JSON_parse btoaUtf8 JSON_stringify now refreshToken b) as [Hne Hget].
    by apply Hattach.
  - apply Hkeep. left. apply AuthServiceTheory.logout_no_tokens.
Qed.

Lemma onRequest_token_witness :
  headers (onRequest 1700000000000 "k3j9x2a1b" AuthService.sessionLogin getPosts)
    !! "Authorization"
  = Some "Bearer stale.access.token".
Proof.
  destruct (onRequest_token 1700000000000 "k3j9x2a1b" AuthService.sessionLogin
              getPosts) as (_ & _ & _ & Hattach & _).
  apply (Hattach "stale.access.token"); [reflexivity|discriminate].
Defined.

(** X27: every promise is settled at most once, and exactly once when it
    has left the interceptor.  In every state that the interceptor reaches
    from the freshly loaded module, whatever failures arrive and however
    the refreshes end, the number of times a promise has been resolved or
    rejected is 1 if the promise has been handed out and waits neither in
    the queue nor for a refresh, and 0 otherwise: no caller is answered
    twice, and none that has left the queue is left unanswered. *)
Theorem settled_exactly_once (b : AuthService.Browser) (href : option string)
    (evs : list Event) (p : PromiseId) :
  let st := run evs (initial b href) in
  length (settlementsOf p (effects st))
  = if bool_decide (p < nextPromise st ∧ p ∉ pending st) then 1 else 0.
Proof.
  intros st.
  assert (consistent st) as Hst by apply consistent_run, consistent_initial.
  assert (accounted st) as Hacc.
  { apply accounted_run; [apply consistent_initial|].
    intros q Hq. simpl in Hq. lia. }
  destruct Hst as (_ & _ & _ & Hunsettled & Hfuture).
  case_bool_decide as Hcase.
  - destruct Hcase as [Hold Hgone]. by apply Hacc.
  - destruct (decide (p < nextPromise st)) as [Hold|Hnew].
    + destruct (decide (p ∈ pending st)) as [Hin|Hout].
      * by rewrite Hunsettled.
      * by destruct Hcase.
    + rewrite Hfuture by lia. done.
Qed.

End ApiClientTheory.

(** ** lib/websocket-manager.ts *)

Module WsManagerTheory.
Import WsManager.

(** *** The bounded buffer *)

Lemma lastN_short {A : Type} (n : nat) (l : list A) :
  length l ≤ n → lastN n l = l.
Proof. intros Hlen. unfold lastN. by replace (length l - n) with 0 by lia. Qed.

Lemma length_lastN {A : Type} (n : nat) (l : list A) :
  length (lastN n l) = length l `min` n.
Proof. unfold lastN. rewrite length_drop. lia. Qed.

Lemma tail_drop {A : Type} (l : list A) : tail l = drop 1 l.
Proof. by destruct l. Qed.

(** Pushing onto the last [n] entries and shifting above the bound gives
    the last [n] entries of the longer list. *)
Lemma push_lastN {A : Type} (n : nat) (l : list A) (d : A) :
  (if (n <? length (lastN n l ++ [d]))%nat
   then tail (lastN n l ++ [d]) else lastN n l ++ [d])
  = lastN n (l ++ [d]).
Proof.
  rewrite length_app, length_lastN. simpl.
  destruct (Nat.ltb_spec n (length l `min` n + 1)) as [Hfull|Hroom].
  - rewrite tail_drop. unfold lastN. rewrite length_app. simpl.
    destruct (decide (n = 0)) as [->|Hn].
    + rewrite !Nat.sub_0_r, (drop_ge l) by lia. simpl.
      by rewrite drop_ge by (rewrite length_app; simpl; lia).
    + rewrite drop_app_le by (rewrite length_drop; lia).
      rewrite drop_drop.
      rewrite (drop_app_le l) by lia.
      f_equal. f_equal. lia.
  - unfold lastN. rewrite length_app. simpl.
    replace (length l - n) with 0 by lia.
    by replace (length l + 1 - n) with 0 by lia.
Qed.

Lemma remember_lastN (d : json) (i : WebSocketInstance) (l : list json) :
  lastMessages i = lastN (maxMessages i) l →
  lastMessages (remember d i) = lastN (maxMessages i) (l ++ [d]).
Proof.
  intros Hhist. unfold remember. rewrite Hhist, <- push_lastN.
  by destruct (_ <? _)%nat.
Qed.

Lemma remember_max (d : json) (i : WebSocketInstance) :
  maxMessages (remember d i) = maxMessages i.
Proof. unfold remember. by destruct (_ <? _)%nat. Qed.

Lemma remember_url (d : json) (i : WebSocketInstance) :
  url (remember d i) = url i.
Proof. unfold remember. by destruct (_ <? _)%nat. Qed.

Lemma remember_subscribers (d : json) (i : WebSocketInstance) :
  subscribers (remember d i) = subscribers i.
Proof. unfold remember. by destruct (_ <? _)%nat. Qed.

(** *** How one event changes the heap *)

Lemma setAdd_elem (x y : Callback) (l : list Callback) :
  y ∈ setAdd x l → y ∈ l ∨ y = x.
Proof.
  unfold setAdd. case_bool_decide; [by left|].
  intros [?|?%list_elem_of_singleton]%elem_of_app; [by left|by right].
Qed.

Lemma setAdd_mem (x : Callback) (l : list Callback) : x ∈ setAdd x l.
Proof.
  unfold setAdd. case_bool_decide; [done|].
  apply elem_of_app. right. by apply list_elem_of_singleton.
Qed.

Lemma setDelete_elem (x y : Callback) (l : list Callback) :
  y ∈ setDelete x l → y ∈ l.
Proof.
  unfold setDelete. rewrite !list_elem_of_In. intros Hin.
  by apply List.filter_In in Hin as [Hin _].
Qed.

Lemma changes_id (arrived : option json) (subscribed : Callback → Prop) :
  arrived = None → Changes arrived subscribed id.
Proof. intros ->. split; try done. intros i cb Hcb. by left. Qed.

Lemma changes_connection (subscribed : Callback → Prop)
    (f : WebSocketInstance → WebSocketInstance) :
  (∀ i, ∃ rs c1 c2 e, f i = setConnection rs c1 c2 e i) →
  Changes None subscribed f.
Proof.
  intros Hf. split; intros i; destruct (Hf i) as (rs & c1 & c2 & e & ->);
    try done.
  intros cb Hcb. by left.
Qed.

Lemma changes_closing (subscribed : Callback → Prop) :
  Changes None subscribed closing.
Proof.
  split; intros i; unfold closing; destruct (readyState i); try done;
    intros cb Hcb; by left.
Qed.

Lemma changes_subscribe (cb : Callback) (subscribed : Callback → Prop) :
  subscribed cb → Changes None subscribed (setSubscribers (setAdd cb)).
Proof.
  intros Hcb. split; try done.
  intros i cb' [?| ->]%setAdd_elem; [by left|by right].
Qed.

Lemma changes_unsubscribe (cb : Callback) (subscribed : Callback → Prop) :
  Changes None subscribed (setSubscribers (setDelete cb)).
Proof.
  split; try done. intros i cb' Hin%setDelete_elem. by left.
Qed.

Lemma changes_status (g : list Callback → list Callback)
    (subscribed : Callback → Prop) :
  Changes None subscribed (setStatusSubscribers g).
Proof. split; try done. intros i cb Hcb. by left. Qed.

Lemma changes_remember (d : json) (subscribed : Callback → Prop) :
  Changes (Some d) subscribed (remember d).
Proof.
  split; intros i.
  - apply remember_url.
  - apply remember_max.
  - done.
  - intros cb. rewrite remember_subscribers. by left.
Qed.

(** [connect] hands out an old instance and leaves the manager alone, or
    it allocates a new instance at the end of the heap and registers it. *)
Lemma connect_cases (u : string) (m : Manager) :
  (connect u m = ((connect u m).1, m)
   ∧ connections m !! u = Some (connect u m).1
   ∧ ∃ i, heap m !! (connect u m).1 = Some i ∧ isLive i = true)
  ∨ (connect u m
     = (length (heap m),
        {| connections := <[u := length (heap m)]> (delete u (connections m));
           heap := heap m ++ [newInstance u];
           timers := timers m; outputs := outputs m |})
     ∧ ∀ a i, connections m !! u = Some a → heap m !! a = Some i →
              isLive i = false).
Proof.
  unfold connect.
  destruct (connections m !! u) as [a|] eqn:Hreg; [|by right].
  destruct (heap m !! a) as [i|] eqn:Hheap.
  - destruct (isLive i) eqn:Hlive.
    + left. simpl. split; [done|]. split; [done|]. by exists i.
    + right. split; [done|]. intros a' i' [= <-] Hi'. congruence.
  - right. split; [done|]. intros a' i' [= <-] Hi'. congruence.
Qed.

Lemma connect_address (u : string) (m : Manager) :
  (connect u m).1 < length (heap (connect u m).2).
Proof.
  destruct (connect_cases u m) as [(Heq & _ & i & Hi & _)|(Heq & _)].
  - rewrite Heq. simpl. by eapply lookup_lt_Some.
  - rewrite Heq. simpl. rewrite length_app. simpl. lia.
Qed.

Lemma heap_connect (u : string) (m : Manager) :
  heap (connect u m).2 = heap m
  ∨ (heap (connect u m).2 = heap m ++ [newInstance u]
     ∧ (connect u m).1 = length (heap m)).
Proof.
  destruct (connect_cases u m) as [(-> & _)|(-> & _)]; [by left|by right].
Qed.

(** *** Properties that every update keeps *)

Lemma alter_id_heap (a : Address) (H : list WebSocketInstance) : alter id a H = H.
Proof.
  apply list_eq. intros j. rewrite list_lookup_alter.
  case_decide; [|done]. subst. by destruct (H !! j).
Qed.

Lemma Forall_alter_heap (P : WebSocketInstance → Prop)
    (f : WebSocketInstance → WebSocketInstance) (a : Address)
    (H : list WebSocketInstance) :
  (∀ i, P i → P (f i)) → Forall P H → Forall P (alter f a H).
Proof.
  intros Hf HP. apply Forall_lookup. intros j i'.
  rewrite list_lookup_alter. case_decide.
  - subst. destruct (H !! j) as [i|] eqn:Hi; [|done]. intros [= <-].
    apply Hf. by eapply Forall_lookup_1.
  - intros Hi. by eapply Forall_lookup_1.
Qed.




Lemma setAdd_idem (x : Callback) (l : list Callback) :
  setAdd x (setAdd x l) = setAdd x l.
Proof.
  unfold setAdd at 1. by rewrite bool_decide_eq_true_2 by apply setAdd_mem.
Qed.


Lemma coherent_mutation (f : WebSocketInstance → WebSocketInstance)
    (i : WebSocketInstance) :
  Mutation f → coherent i → coherent (f i).
Proof.
  intros Hf Hi. unfold coherent in *. destruct Hf; simpl; try done.
  - unfold remember. by destruct (_ <? _)%nat.
  - unfold closing. destruct (readyState i) eqn:Hrs; simpl;
      [..|by rewrite Hrs]; intros Hc; destruct (Hi Hc) as [? _]; by split.
Qed.

Lemma output_nil (m : Manager) : output [] m = m.
Proof. destruct m. unfold output. simpl. by rewrite app_nil_r. Qed.

Lemma output_output (o1 o2 : list Output) (m : Manager) :
  output o2 (output o1 m) = output (o1 ++ o2) m.
Proof. unfold output. simpl. by rewrite app_assoc. Qed.

Lemma url_mutation (f : WebSocketInstance → WebSocketInstance)
    (i : WebSocketInstance) :
  Mutation f → url (f i) = url i.
Proof.
  intros Hf. destruct Hf; try done.
  - apply remember_url.
  - unfold closing. by destruct (readyState i).
Qed.

(** What [connect] registers that was not registered is the instance it
    has just created. *)
Lemma connect_connections (u0 : string) (m : Manager) (u : string) (a : Address) :
  connections (connect u0 m).2 !! u = Some a →
  connections m !! u = Some a
  ∨ (u = u0 ∧ a = (connect u0 m).1
     ∧ heap (connect u0 m).2 !! a = Some (newInstance u0)).
Proof.
  destruct (connect_cases u0 m) as [(Heq & _)|(Heq & _)].
  - rewrite Heq. simpl. by left.
  - rewrite Heq. simpl. destruct (decide (u = u0)) as [->|Hne].
    + rewrite lookup_insert_eq. intros [= <-]. right.
      split; [done|]. split; [done|]. by apply list_lookup_middle.
    + rewrite lookup_insert_ne, lookup_delete_ne by done. by left.
Qed.

Section Handlers.
Variable JSON_parse : string → option json.
Variable JSON_stringify : json → string.
Variable throws : list Output → bool.

Let step := step JSON_parse JSON_stringify throws.
Let run := run JSON_parse JSON_stringify throws.
Let arrival := arrival JSON_parse.
Let arrivals := arrivals JSON_parse.

(** *** Calling callbacks *)

(** [forEach] makes its calls in order, up to the first that throws, and
    does nothing else. *)
Lemma forEach_made (calls : list Output) (m : Manager) :
  ∃ made, (forEach throws calls m).1 = output made m
          ∧ made `prefix_of` calls
          ∧ ((forEach throws calls m).2 = false → made = calls).
Proof.
  revert m. induction calls as [|call rest IH]; intros m.
  { exists []. by rewrite output_nil. }
  simpl.
  destruct (throws (outputs m ++ [call])) eqn:Hthrows.
  - exists [call]. split; [done|]. split; [|done].
    exists rest. done.
  - destruct (IH (output [call] m)) as (made & Hmade & Hprefix & Hall).
    exists (call :: made). rewrite Hmade, output_output.
    split; [done|]. split; [by apply prefix_cons|].
    intros Hnone. by rewrite Hall.
Qed.

Lemma forEach_returning (calls : list Output) (m : Manager) :
  returning throws calls → forEach throws calls m = (output calls m, false).
Proof.
  revert m. induction calls as [|call rest IH]; intros m Hcalls.
  { by rewrite output_nil. }
  simpl.
  rewrite (Hcalls (outputs m) call) by by left.
  rewrite IH, output_output; [done|].
  intros log c Hc. apply Hcalls. by right.
Qed.

Lemma forEach_thrown (pre : list Output) (call : Output) (rest : list Output)
    (m : Manager) :
  returning throws pre → throws (outputs m ++ pre ++ [call]) = true →
  forEach throws (pre ++ call :: rest) m = (output (pre ++ [call]) m, true).
Proof.
  revert m. induction pre as [|c pre IH]; intros m Hpre Hthrows.
  { simpl in *. by rewrite Hthrows. }
  simpl.
  rewrite (Hpre (outputs m) c) by by left.
  rewrite IH, output_output; [done| |].
  - intros log c' Hc'. apply Hpre. by right.
  - simpl. by rewrite <- app_assoc.
Qed.

Lemma forEach_frame (calls : list Output) (m : Manager) :
  heap (forEach throws calls m).1 = heap m
  ∧ connections (forEach throws calls m).1 = connections m
  ∧ timers (forEach throws calls m).1 = timers m.
Proof. destruct (forEach_made calls m) as (made & -> & _). done. Qed.

Lemma forEach_outputs (calls : list Output) (m : Manager) :
  ∃ made, outputs (forEach throws calls m).1 = outputs m ++ made
          ∧ ∀ o, o ∈ made → o ∈ calls.
Proof.
  destruct (forEach_made calls m) as (made & -> & [rest ->] & _).
  exists made. split; [done|]. intros o Ho. apply elem_of_app. by left.
Qed.

Lemma heap_notify (a : Address) (m : Manager) :
  heap (notifyStatusSubscribers throws a m).1 = heap m.
Proof.
  unfold notifyStatusSubscribers.
  destruct (heap m !! a); [apply forEach_frame|done].
Qed.

Lemma connections_notify (a : Address) (m : Manager) :
  connections (notifyStatusSubscribers throws a m).1 = connections m.
Proof.
  unfold notifyStatusSubscribers.
  destruct (heap m !! a); [apply forEach_frame|done].
Qed.

Lemma timers_notify (a : Address) (m : Manager) :
  timers (notifyStatusSubscribers throws a m).1 = timers m.
Proof.
  unfold notifyStatusSubscribers.
  destruct (heap m !! a); [apply forEach_frame|done].
Qed.

(** What the notification of the status subscribers does: it calls
    some of them, with the status of the instance, and nothing else. *)
Lemma notify_made (a : Address) (m : Manager) :
  ∃ made, (notifyStatusSubscribers throws a m).1 = output made m
          ∧ ∀ o, o ∈ made →
                 ∃ cb i, heap m !! a = Some i ∧ o = StatusDelivered cb (statusOf i).
Proof.
  unfold notifyStatusSubscribers. destruct (heap m !! a) as [i|].
  - destruct (forEach_made (map (λ cb, StatusDelivered cb (statusOf i))
                                (statusSubscribers i)) m)
      as (made & Hmade & [rest Hprefix] & _).
    exists made. split; [done|]. intros o Ho.
    assert (o ∈ map (λ cb, StatusDelivered cb (statusOf i)) (statusSubscribers i))
      as Hin by (rewrite Hprefix; apply elem_of_app; by left).
    apply list_elem_of_fmap in Hin as (cb & -> & _). by exists cb, i.
  - exists []. rewrite output_nil. split; [done|]. intros o Ho.
    by apply elem_of_nil in Ho.
Qed.


(** [ws.onclose] on an instance that exists: the flags, the
    notification and, unless a status subscriber has thrown, the rest. *)
Lemma onclose_made (a : Address) (wasClean : bool) (m : Manager)
    (i0 : WebSocketInstance) :
  heap m !! a = Some i0 →
  let m1 := update a (λ i, setConnection CLOSED false false (error i) i) m in
  ∃ made thrown,
    notifyStatusSubscribers throws a m1 = (output made m1, thrown)
    ∧ (∀ o, o ∈ made →
            ∃ cb i, heap m1 !! a = Some i ∧ o = StatusDelivered cb (statusOf i))
    ∧ onclose throws a wasClean m
      = if thrown then output made m1
        else
          let m2 := withConnections (delete (url i0) (connections m))
                                    (output made m1) in
          if negb wasClean then setTimeout (ReconnectTask (url i0)) 2000 m2
          else m2.
Proof.
  intros Hi m1. destruct (notify_made a m1) as (made & Hmade & Hcalls).
  exists made, (notifyStatusSubscribers throws a m1).2.
  split; [rewrite <- Hmade; by destruct (notifyStatusSubscribers throws a m1)|].
  split; [done|].
  unfold onclose. rewrite Hi. fold m1.
  destruct (notifyStatusSubscribers throws a m1) as [m2 thrown]. simpl in *.
  by subst m2.
Qed.

Lemma heap_onclose (a : Address) (wasClean : bool) (m : Manager) :
  heap (onclose throws a wasClean m)
  = alter (λ i, setConnection CLOSED false false (error i) i) a (heap m).
Proof.
  destruct (heap m !! a) as [i0|] eqn:Hi.
  - destruct (onclose_made a wasClean m i0 Hi) as (made & thrown & _ & _ & ->).
    by destruct thrown, wasClean.
  - unfold onclose. rewrite Hi. apply list_eq. intros j.
    rewrite list_lookup_alter. case_decide; [subst; by rewrite Hi|done].
Qed.

(** After one event the heap is the old heap, possibly with one new
    instance at its end, and with at most one instance changed. *)
Lemma step_heap (m : Manager) (ev : Event) :
  ∃ H f t,
    heap (step m ev) = alter f t H
    ∧ (H = heap m
       ∨ ∃ u, H = heap m ++ [newInstance u] ∧ ∀ a, arrival a ev = None)
    ∧ Changes (arrival t ev) (λ cb, subscribes cb ev) f
    ∧ ∀ a, a ≠ t → arrival a ev = None.
Proof.
  assert (∀ H : list WebSocketInstance, alter id 0 H = H) as Hid.
  { intros H. apply list_eq. intros j. rewrite list_lookup_alter.
    case_decide; [|done]. subst. by destruct (H !! 0). }
  destruct ev as [u|u cb replayLast|a cb|u cb|a cb|u d|u|a|a raw|a|a wasClean|a|k];
    unfold step, WsManager.step.
  - (* Connect *)
    exists (heap (connect u m).2), id, 0. rewrite Hid.
    split; [done|]. split; [|split; [by apply changes_id|done]].
    destruct (heap_connect u m) as [->|[-> _]]; [by left|right; by exists u].
  - (* Subscribe *)
    exists (heap (connect u m).2), (setSubscribers (setAdd cb)), (connect u m).1.
    split.
    { unfold subscribe. destruct (connect u m) as [a m1]. simpl.
      by destruct (replayLast && _). }
    split; [|split; [apply changes_subscribe; by exists u, replayLast|done]].
    destruct (heap_connect u m) as [->|[-> _]]; [by left|right; by exists u].
  - (* Unsubscribe *)
    exists (heap m), (setSubscribers (setDelete cb)), a.
    split; [done|]. split; [by left|]. split; [apply changes_unsubscribe|done].
  - (* SubscribeToStatus *)
    exists (heap (connect u m).2), (setStatusSubscribers (setAdd cb)), (connect u m).1.
    split.
    { unfold subscribeToStatus. destruct (connect u m) as [a m1]. simpl.
      by destruct (_ !! a). }
    split; [|split; [apply changes_status|done]].
    destruct (heap_connect u m) as [->|[-> _]]; [by left|right; by exists u].
  - (* UnsubscribeStatus *)
    exists (heap m), (setStatusSubscribers (setDelete cb)), a.
    split; [done|]. split; [by left|]. split; [apply changes_status|done].
  - (* Send *)
    exists (heap m), id, 0. rewrite Hid.
    split; [|split; [by left|split; [by apply changes_id|done]]].
    unfold send.
    by match goal with |- heap (match ?x with _ => _ end) = _ => destruct x end.
  - (* Disconnect *)
    unfold disconnect. destruct (connections m !! u) as [a|].
    + exists (heap m), closing, a.
      split; [done|]. split; [by left|]. split; [apply changes_closing|done].
    + exists (heap m), id, 0. rewrite Hid.
      split; [done|]. split; [by left|]. split; [by apply changes_id|done].
  - (* OnOpen *)
    exists (heap m), (λ i, setConnection OPEN true false None i), a.
    split; [unfold onopen; by rewrite heap_notify|]. split; [by left|].
    split; [|done]. apply changes_connection. intros i. by eexists _, _, _, _.
  - (* OnMessage *)
    unfold onmessage. destruct (JSON_parse raw) as [d|] eqn:Hparse.
    + exists (heap m), (remember d), a.
      split.
      { destruct (heap (update a (remember d) m) !! a); [|done].
        by rewrite (proj1 (forEach_frame _ _)). }
      split; [by left|].
      split.
      * unfold arrival, WsManager.arrival. rewrite Nat.eqb_refl, Hparse.
        apply changes_remember.
      * intros a' Hne. unfold arrival, WsManager.arrival.
        by assert ((a =? a')%nat = false) as -> by by apply Nat.eqb_neq.
    + exists (heap m), id, a. 
      assert (alter id a (heap m) = heap m) as ->.
      { apply list_eq. intros j. rewrite list_lookup_alter.
        case_decide; [|done]. subst. by destruct (heap m !! j). }
      split; [done|]. split; [by left|].
      split.
      * apply changes_id. unfold arrival, WsManager.arrival.
        by rewrite Nat.eqb_refl.
      * intros a' Hne. unfold arrival, WsManager.arrival.
        by assert ((a =? a')%nat = false) as -> by by apply Nat.eqb_neq.
  - (* OnError *)
    exists (heap m),
      (λ i, setConnection CLOSED (isConnected i) false
              (Some (mkError "WebSocket connection error")) i), a.
    split; [unfold onerror; by rewrite heap_notify|]. split; [by left|].
    split; [|done]. apply changes_connection. intros i. by eexists _, _, _, _.
  - (* OnClose *)
    exists (heap m), (λ i, setConnection CLOSED false false (error i) i), a.
    split; [apply heap_onclose|]. split; [by left|]. split; [|done].
    apply changes_connection. intros i. by eexists _, _, _, _.
  - (* PeerCloses *)
    exists (heap m), closing, a.
    split; [done|]. split; [by left|]. split; [apply changes_closing|done].
  - (* Fire *)
    unfold fire. destruct (timers m !! k) as [[ms [a cb|u]]|]; simpl.
    + exists (heap m), id, 0. rewrite Hid.
      split.
      { destruct (heap m !! a); [|done]. by rewrite (proj1 (forEach_frame _ _)). }
      split; [by left|]. split; [by apply changes_id|done].
    + exists (heap (connect u (withTimers (delete k (timers m)) m)).2), id, 0.
      rewrite Hid. split; [done|]. split; [|split; [by apply changes_id|done]].
      destruct (heap_connect u (withTimers (delete k (timers m)) m))
        as [->|[-> _]]; [by left|right; by exists u].
    + exists (heap m), id, 0. rewrite Hid.
      split; [done|]. split; [by left|]. split; [by apply changes_id|done].
Qed.

(** An instance that exists stays where it is; its URL and bound are
    fixed, its history grows only by a message that arrives for it, and
    its subscribers grow only by a call of [subscribe]. *)
Lemma step_old (m : Manager) (ev : Event) (a : Address) (i : WebSocketInstance) :
  heap m !! a = Some i →
  ∃ i', heap (step m ev) !! a = Some i'
        ∧ url i' = url i
        ∧ maxMessages i' = maxMessages i
        ∧ lastMessages i'
          = match arrival a ev with
            | Some d => lastMessages (remember d i)
            | None => lastMessages i
            end
        ∧ ∀ cb, cb ∈ subscribers i' → cb ∈ subscribers i ∨ subscribes cb ev.
Proof.
  intros Hheap.
  destruct (step_heap m ev) as (H & f & t & -> & HH & Hf & Hother).
  assert (H !! a = Some i) as Hlookup.
  { destruct HH as [->|(u & -> & _)]; [done|].
    rewrite lookup_app_l; [done|]. by apply lookup_lt_Some in Hheap. }
  rewrite list_lookup_alter. case_decide as Hta.
  - subst t. rewrite Hlookup. simpl. exists (f i).
    split; [done|]. split; [apply Hf|]. split; [apply Hf|].
    split; [apply Hf|]. apply Hf.
  - exists i. rewrite Hlookup, (Hother a) by done.
    repeat split; try done. intros cb Hcb. by left.
Qed.

(** An instance that appears is a new one at the end of the heap: its
    history is empty, its bound is 100, and it has no subscriber but the
    one whose [subscribe] created it. *)
Lemma step_new (m : Manager) (ev : Event) (a : Address) (i' : WebSocketInstance) :
  heap m !! a = None → heap (step m ev) !! a = Some i' →
  a = length (heap m)
  ∧ lastMessages i' = []
  ∧ maxMessages i' = 100
  ∧ ∀ cb, cb ∈ subscribers i' → subscribes cb ev.
Proof.
  intros Hnone Hsome.
  destruct (step_heap m ev) as (H & f & t & Heq & HH & Hf & Hother).
  rewrite Heq in Hsome.
  destruct HH as [->|(u & -> & Hquiet)].
  { rewrite list_lookup_alter in Hsome. case_decide; [subst|congruence].
    by rewrite Hnone in Hsome. }
  apply lookup_ge_None in Hnone.
  assert (a = length (heap m)) as ->.
  { assert (a < length (alter f t (heap m ++ [newInstance u]))) as Hlt
      by by eapply lookup_lt_Some.
    rewrite length_alter, length_app in Hlt. simpl in Hlt. lia. }
  split; [done|].
  rewrite list_lookup_alter in Hsome.
  case_decide as Hta; [subst t|]; rewrite list_lookup_middle in Hsome by done.
  - simpl in Hsome. injection Hsome as <-.
    destruct Hf as [_ Hmax Hhist Hsubs].
    rewrite Hhist, Hmax, Hquiet.
    repeat split; try done.
    intros cb Hcb. destruct (Hsubs _ _ Hcb) as [Hin|?]; [|done].
    by apply elem_of_nil in Hin.
  - injection Hsome as <-. repeat split; try done.
    intros cb Hcb. by apply elem_of_nil in Hcb.
Qed.

Lemma step_heap_length (m : Manager) (ev : Event) :
  length (heap m) ≤ length (heap (step m ev)).
Proof.
  destruct (step_heap m ev) as (H & f & t & -> & HH & _).
  rewrite length_alter. destruct HH as [->|(u & -> & _)]; [done|].
  rewrite length_app. lia.
Qed.

Lemma bounded_step (m : Manager) (ev : Event) :
  bounded m → bounded (step m ev).
Proof.
  intros Hm a i' Hheap'.
  destruct (heap m !! a) as [i|] eqn:Hheap.
  - destruct (step_old m ev a i Hheap) as (i'' & Hlookup & _ & Hmax & Hhist & _).
    rewrite Hheap' in Hlookup. injection Hlookup as <-.
    destruct (Hm a i Hheap) as [Hmax0 Hlen].
    split; [congruence|].
    rewrite Hhist. destruct (arrival a ev) as [d|]; [|done].
    rewrite (remember_lastN d i (lastMessages i))
      by by rewrite lastN_short by lia.
    rewrite length_lastN, Hmax0. lia.
  - destruct (step_new m ev a i' Hheap Hheap') as (_ & -> & -> & _).
    simpl. split; [done|lia].
Qed.

Lemma bounded_run (evs : list Event) (m : Manager) :
  bounded m → bounded (run evs m).
Proof.
  revert m. induction evs as [|ev evs IH]; intros m Hm; [done|].
  apply IH. by apply bounded_step.
Qed.

Lemma bounded_empty : bounded empty.
Proof. intros a i Hheap. simpl in Hheap. by rewrite lookup_nil in Hheap. Qed.

(** The history of an instance after any events is made of the last 100
    of the messages that arrived for it. *)
Lemma history_run (evs : list Event) (m : Manager) (a : Address)
    (i : WebSocketInstance) (l : list json) :
  heap m !! a = Some i → maxMessages i = 100 →
  lastMessages i = lastN 100 l →
  ∃ i', heap (run evs m) !! a = Some i'
        ∧ maxMessages i' = 100
        ∧ lastMessages i' = lastN 100 (l ++ arrivals a evs).
Proof.
  revert m i l. induction evs as [|ev evs IH]; intros m i l Hheap Hmax Hhist.
  { exists i. by rewrite app_nil_r. }
  destruct (step_old m ev a i Hheap) as (i1 & Hheap1 & _ & Hmax1 & Hhist1 & _).
  unfold arrivals, WsManager.arrivals. simpl. fold (arrival a ev).
  destruct (arrival a ev) as [d|].
  - destruct (IH (step m ev) i1 (l ++ [d]) Hheap1) as (i' & ? & ? & Hlast);
      [congruence| |].
    { rewrite Hhist1, <- Hmax. apply remember_lastN. by rewrite Hmax. }
    exists i'. split; [done|]. split; [done|].
    by rewrite Hlast, <- app_assoc.
  - destruct (IH (step m ev) i1 l Hheap1) as (i' & ? & ? & Hlast);
      [congruence|congruence|].
    by exists i'.
Qed.

(** C3: in every state the manager can reach, no history holds more than
    100 entries; after any events the history of a connection is made of
    the last 100 of the parseable messages that arrived for it, so its
    length is 100 once 100 or more have arrived; a message that arrives
    when the history is full evicts the oldest entry; and a frame that
    does not parse changes nothing. *)
Theorem bounded_history :
  (∀ evs, bounded (run evs empty))
  ∧ (∀ m a i evs,
       heap m !! a = Some i → maxMessages i = 100 →
       length (lastMessages i) ≤ 100 →
       ∃ i', heap (run evs m) !! a = Some i'
             ∧ lastMessages i' = lastN 100 (lastMessages i ++ arrivals a evs)
             ∧ length (lastMessages i')
               = (length (lastMessages i) + length (arrivals a evs)) `min` 100)
  ∧ (∀ m a i raw d,
       heap m !! a = Some i → maxMessages i = 100 →
       length (lastMessages i) = 100 →
       JSON_parse raw = Some d →
       ∃ i', heap (onmessage JSON_parse throws a raw m) !! a = Some i'
             ∧ lastMessages i' = tail (lastMessages i) ++ [d]
             ∧ length (lastMessages i') = 100)
  ∧ (∀ m a raw, JSON_parse raw = None → onmessage JSON_parse throws a raw m = m).
Proof.
  split; [|split; [|split]].
  - intros evs. apply bounded_run, bounded_empty.
  - intros m a i evs Hheap Hmax Hlen.
    destruct (history_run evs m a i (lastMessages i) Hheap Hmax)
      as (i' & Hheap' & _ & Hhist); [by rewrite lastN_short|].
    exists i'. split; [done|]. split; [done|].
    by rewrite Hhist, length_lastN, length_app.
  - intros m a i raw d Hheap Hmax Hlen Hparse.
    destruct (step_old m (OnMessage a raw) a i Hheap)
      as (i' & Hheap' & _ & _ & Hhist & _).
    exists i'. split; [done|].
    unfold arrival, WsManager.arrival in Hhist.
    rewrite Nat.eqb_refl, Hparse in Hhist.
    assert (lastMessages i' = tail (lastMessages i) ++ [d]) as ->.
    { rewrite Hhist. unfold remember. rewrite Hmax, length_app, Hlen. simpl.
      destruct (lastMessages i); [done|]. done. }
    split; [done|].
    rewrite length_app. destruct (lastMessages i); simpl in *; lia.
  - intros m a raw Hparse. unfold onmessage. by rewrite Hparse.
Qed.

(** *** What one event delivers and schedules *)

Lemma connect_outputs (u : string) (m : Manager) :
  outputs (connect u m).2 = outputs m ∧ timers (connect u m).2 = timers m.
Proof. by destruct (connect_cases u m) as [(-> & _)|(-> & _)]. Qed.

Lemma notify_outputs (a : Address) (m : Manager) :
  ∃ new, outputs (notifyStatusSubscribers throws a m).1 = outputs m ++ new
         ∧ ∀ src cb d, Delivered src cb d ∉ new.
Proof.
  destruct (notify_made a m) as (made & -> & Hmade).
  exists made. split; [done|]. intros src cb d Hin.
  by destruct (Hmade _ Hin) as (c & i & _ & [=]).
Qed.

Lemma quiet_outputs (m : Manager) (ev : Event) (new : list Output) :
  (∀ src cb d, Delivered src cb d ∉ new) → deliveredBy m ev new.
Proof. intros Hnone src cb d Hin. by apply Hnone in Hin. Qed.

Lemma no_outputs (m : Manager) (ev : Event) (out : list Output) :
  out = outputs m → ∃ new, out = outputs m ++ new ∧ deliveredBy m ev new.
Proof.
  intros ->. exists []. split; [by rewrite app_nil_r|].
  apply quiet_outputs. intros src cb d Hin. by apply elem_of_nil in Hin.
Qed.

Lemma singleton_quiet (o : Output) :
  (∀ src cb d, o ≠ Delivered src cb d) →
  ∀ src cb d, Delivered src cb d ∉ [o].
Proof. intros Hne src cb d Hin%list_elem_of_singleton. by apply (Hne src cb d). Qed.

(** A data callback is called by the fan-out of a message, for the
    subscribers of the instance, or by a replay timeout. *)
Lemma step_outputs (m : Manager) (ev : Event) :
  ∃ new, outputs (step m ev) = outputs m ++ new ∧ deliveredBy m ev new.
Proof.
  destruct ev as [u|u cb replayLast|a cb|u cb|a cb|u d|u|a|a raw|a|a wasClean|a|k];
    unfold step, WsManager.step.
  - apply no_outputs, connect_outputs.
  - apply no_outputs. unfold subscribe.
    pose proof (connect_outputs u m) as [Hout _].
    destruct (connect u m) as [a m1]. simpl in *.
    by destruct (replayLast && _).
  - by apply no_outputs.
  - unfold subscribeToStatus. pose proof (connect_outputs u m) as [Hout _].
    destruct (connect u m) as [a m1]. simpl in *.
    destruct (_ !! a); simpl; rewrite Hout; [|by apply no_outputs].
    eexists. split; [done|]. by apply quiet_outputs, singleton_quiet.
  - by apply no_outputs.
  - unfold send.
    match goal with |- context [outputs (match ?x with _ => _ end)] => destruct x end;
      simpl; (eexists; split; [done|]); by apply quiet_outputs, singleton_quiet.
  - unfold disconnect. destruct (connections m !! u); [|by apply no_outputs].
    simpl. eexists. split; [done|]. by apply quiet_outputs, singleton_quiet.
  - unfold onopen.
    destruct (notify_outputs a (update a (λ i, setConnection OPEN true false None i) m))
      as (new & -> & Hnone).
    exists new. split; [done|]. by apply quiet_outputs.
  - unfold onmessage. destruct (JSON_parse raw) as [d|]; [|by apply no_outputs].
    simpl. rewrite list_lookup_alter_eq.
    destruct (heap m !! a) as [i|] eqn:Hheap; simpl; [|by apply no_outputs].
    destruct (forEach_outputs
                (map (λ cb, Delivered (Live a) cb d) (subscribers (remember d i)))
                (update a (remember d) m))
      as (made & -> & Hmade).
    exists made. split; [done|]. intros src cb d' Hin%Hmade.
    apply list_elem_of_fmap in Hin as (c & [= -> -> ->] & Hc).
    exists raw, i. by rewrite remember_subscribers in Hc.
  - unfold onerror.
    destruct (notify_outputs a
                (update a (λ i, setConnection CLOSED (isConnected i) false
                                  (Some (mkError "WebSocket connection error")) i) m))
      as (new & -> & Hnone).
    exists new. split; [done|]. by apply quiet_outputs.
  - destruct (heap m !! a) as [i0|] eqn:Hi;
      [|unfold onclose; rewrite Hi; by apply no_outputs].
    destruct (onclose_made a wasClean m i0 Hi) as (made & thrown & _ & Hmade & ->).
    exists made. split; [by destruct thrown, wasClean|].
    apply quiet_outputs. intros src cb d Hin.
    by destruct (Hmade _ Hin) as (c & i & _ & [=]).
  - by apply no_outputs.
  - unfold fire. destruct (timers m !! k) as [[ms [a cb|u]]|] eqn:Htimer;
      simpl; [| |by apply no_outputs].
    + destruct (heap m !! a) as [i|] eqn:Hheap; [|by apply no_outputs].
      destruct (forEach_outputs
                  (map (λ msg, Delivered (Replayed a) cb msg) (lastMessages i))
                  (withTimers (delete k (timers m)) m))
        as (made & -> & Hmade).
      exists made. split; [done|]. intros src c d Hin%Hmade.
      apply list_elem_of_fmap in Hin as (msg & [= -> -> ->] & _).
      exists k, ms. by rewrite Hheap.
    + apply no_outputs. by rewrite (proj1 (connect_outputs u _)).
Qed.

(** A replay is scheduled by [subscribe] only, for the callback that
    subscribes and the instance it joined. *)
Lemma step_timers (m : Manager) (ev : Event) (ms : nat) (a : Address)
    (cb : Callback) :
  mkTimer ms (ReplayTask a cb) ∈ timers (step m ev) →
  mkTimer ms (ReplayTask a cb) ∈ timers m
  ∨ (subscribes cb ev ∧ a < length (heap (step m ev))).
Proof.
  destruct ev as [u|u cb' replayLast|a' cb'|u cb'|a' cb'|u d|u|a'|a' raw|a'|a' wasClean|a'|k];
    unfold step, WsManager.step; try by left.
  - rewrite (proj2 (connect_outputs u m)). by left.
  - unfold subscribe.
    pose proof (connect_outputs u m) as [_ Htimers].
    pose proof (connect_address u m) as Haddress.
    destruct (connect u m) as [a1 m1]. simpl in *.
    destruct (replayLast && _); simpl; rewrite Htimers; [|by left].
    intros [?|[= -> -> ->]%list_elem_of_singleton]%elem_of_app; [by left|].
    right. split; [by exists u, replayLast|].
    by rewrite length_alter.
  - unfold subscribeToStatus. pose proof (connect_outputs u m) as [_ Htimers].
    destruct (connect u m) as [a1 m1]. simpl in *.
    destruct (_ !! a1); simpl; rewrite Htimers; by left.
  - unfold send.
    match goal with |- context [timers (match ?x with _ => _ end)] => destruct x end;
      by left.
  - unfold disconnect. destruct (connections m !! u); by left.
  - unfold onopen. rewrite timers_notify. by left.
  - unfold onmessage. destruct (JSON_parse raw); [|by left].
    destruct (heap _ !! a'); [|by left].
    rewrite (proj2 (proj2 (forEach_frame _ _))). by left.
  - unfold onerror. rewrite timers_notify. by left.
  - destruct (heap m !! a') as [i0|] eqn:Hi;
      [|unfold onclose; rewrite Hi; by left].
    destruct (onclose_made a' wasClean m i0 Hi) as (made & thrown & _ & _ & ->).
    destruct thrown, wasClean; simpl; try by left.
    intros [?|[=]%list_elem_of_singleton]%elem_of_app. by left.
  - unfold fire. destruct (timers m !! k) as [[ms' [a' cb'|u]]|] eqn:Htimer;
      simpl; [| |by left].
    + destruct (heap m !! a'); simpl;
        rewrite ?(proj2 (proj2 (forEach_frame _ _))); simpl; intros Hin; left;
        by eapply list_elem_of_delete_inv.
    + rewrite (proj2 (connect_outputs u _)). simpl. intros Hin. left.
      by eapply list_elem_of_delete_inv.
Qed.

(** *** Reconnection *)

Lemma closed_empty : closed empty.
Proof.
  split; simpl.
  - intros src cb d Hin. by apply elem_of_nil in Hin.
  - intros ms a cb Hin. by apply elem_of_nil in Hin.
Qed.

Lemma closed_step (m : Manager) (ev : Event) : closed m → closed (step m ev).
Proof.
  intros [Hout Htimers]. pose proof (step_heap_length m ev) as Hgrow.
  split.
  - intros src cb d Hin.
    destruct (step_outputs m ev) as (new & Heq & Hnew). rewrite Heq in Hin.
    apply elem_of_app in Hin as [Hold|Hin].
    { specialize (Hout _ _ _ Hold). lia. }
    specialize (Hnew _ _ _ Hin). destruct src as [a|a]; simpl.
    + destruct Hnew as (raw & i & _ & Hheap%lookup_lt_Some & _). lia.
    + destruct Hnew as (k & ms & _ & _ & [i Hheap%lookup_lt_Some]). lia.
  - intros ms a cb Hin.
    destruct (step_timers m ev ms a cb Hin) as [Hold|[_ Hlt]]; [|done].
    specialize (Htimers _ _ _ Hold). lia.
Qed.

Lemma closed_run (evs : list Event) (m : Manager) : closed m → closed (run evs m).
Proof.
  revert m. induction evs as [|ev evs IH]; intros m Hm; [done|].
  apply IH. by apply closed_step.
Qed.

Lemma unattached_step (n : nat) (cb : Callback) (m : Manager) (ev : Event) :
  unattached n cb m → ¬ subscribes cb ev → unattached n cb (step m ev).
Proof.
  intros (Hsubs & Htimers & Hout) Hev.
  split; [|split].
  - intros a i' Ha Hheap' Hin.
    destruct (heap m !! a) as [i|] eqn:Hheap.
    + destruct (step_old m ev a i Hheap) as (i'' & Hlookup & _ & _ & _ & Hgrow).
      rewrite Hheap' in Hlookup. injection Hlookup as <-.
      destruct (Hgrow cb Hin); [by apply (Hsubs a i)|by apply Hev].
    + destruct (step_new m ev a i' Hheap Hheap') as (_ & _ & _ & Hgrow).
      by apply Hev, Hgrow.
  - intros ms a Ha Hin.
    destruct (step_timers m ev ms a cb Hin) as [Hold|[? _]]; [|by apply Hev].
    by apply (Htimers ms a).
  - intros src d Hin.
    destruct (step_outputs m ev) as (new & Heq & Hnew). rewrite Heq in Hin.
    apply elem_of_app in Hin as [Hold|Hin]; [by apply (Hout src d)|].
    specialize (Hnew _ _ _ Hin). destruct src as [a|a]; simpl.
    + destruct Hnew as (raw & i & _ & Hheap & Hcb).
      destruct (Nat.lt_ge_cases a n) as [?|Ha]; [done|].
      by destruct (Hsubs a i Ha Hheap).
    + destruct Hnew as (k & ms & _ & Htimer & _).
      destruct (Nat.lt_ge_cases a n) as [?|Ha]; [done|].
      destruct (Htimers ms a Ha). by eapply list_elem_of_lookup_2.
Qed.

Lemma unattached_run (n : nat) (cb : Callback) (evs : list Event) (m : Manager) :
  unattached n cb m → Forall (λ ev, ¬ subscribes cb ev) evs →
  unattached n cb (run evs m).
Proof.
  revert m. induction evs as [|ev evs IH]; intros m Hm Hevs; [done|].
  apply Forall_cons in Hevs as [Hev Hevs].
  apply IH; [|done]. by apply unattached_step.
Qed.

(** Nothing is attached to instances that do not exist yet. *)
Lemma unattached_closed (cb : Callback) (m : Manager) :
  closed m → unattached (length (heap m)) cb m.
Proof.
  intros [Hout Htimers]. split; [|split].
  - intros a i Ha Hheap%lookup_lt_Some. lia.
  - intros ms a Ha Hin. specialize (Htimers _ _ _ Hin). lia.
  - intros src d Hin. by apply (Hout src cb d).
Qed.

Lemma fire_reconnect (m : Manager) (k ms : nat) (u : string) :
  timers m !! k = Some (mkTimer ms (ReconnectTask u)) →
  noLiveEntry u m →
  fire throws k m
  = {| connections := <[u := length (heap m)]> (delete u (connections m));
       heap := heap m ++ [newInstance u];
       timers := delete k (timers m);
       outputs := outputs m |}.
Proof.
  intros Htimer Hdead. unfold fire. rewrite Htimer. simpl.
  destruct (connect_cases u (withTimers (delete k (timers m)) m))
    as [(_ & Hreg & i & Hheap & Hlive)|(-> & _)]; [|done].
  simpl in *. by rewrite (Hdead _ _ Hreg Hheap) in Hlive.
Qed.

(** [ws.onclose] when every status subscriber returns, and when one
    throws. *)
Lemma onclose_returned (m : Manager) (a : Address) (i : WebSocketInstance)
    (wasClean : bool) :
  heap m !! a = Some i → returning throws (closeCalls i) →
  onclose throws a wasClean m
  = let m1 := output (closeCalls i)
                (update a (λ i, setConnection CLOSED false false (error i) i) m) in
    let m2 := withConnections (delete (url i) (connections m)) m1 in
    if negb wasClean then setTimeout (ReconnectTask (url i)) 2000 m2 else m2.
Proof.
  intros Hi Hreturn. unfold onclose, notifyStatusSubscribers. rewrite Hi. simpl.
  rewrite list_lookup_alter_eq, Hi. simpl.
  change (map _ (statusSubscribers i)) with (closeCalls i).
  by rewrite forEach_returning.
Qed.

Lemma onclose_thrown (m : Manager) (a : Address) (i : WebSocketInstance)
    (wasClean : bool) (pre : list Callback) (cb : Callback) (rest : list Callback) :
  heap m !! a = Some i → statusSubscribers i = pre ++ cb :: rest →
  let call c := StatusDelivered c (mkStatus false false (error i)) in
  returning throws (map call pre) →
  throws (outputs m ++ map call pre ++ [call cb]) = true →
  onclose throws a wasClean m
  = output (map call pre ++ [call cb])
           (update a (λ i, setConnection CLOSED false false (error i) i) m).
Proof.
  intros Hi Hsubs call Hreturn Hthrows.
  unfold onclose, notifyStatusSubscribers. rewrite Hi. simpl.
  rewrite list_lookup_alter_eq, Hi. simpl. rewrite Hsubs, map_app. simpl.
  by rewrite (forEach_thrown (map call pre) (call cb)).
Qed.

Lemma onclose_unclean (m : Manager) (a : Address) (i : WebSocketInstance) :
  heap m !! a = Some i → returning throws (closeCalls i) →
  connections (onclose throws a false m) = delete (url i) (connections m)
  ∧ timers (onclose throws a false m) = timers m ++ [mkTimer 2000 (ReconnectTask (url i))]
  ∧ heap (onclose throws a false m)
    = alter (λ i, setConnection CLOSED false false (error i) i) a (heap m).
Proof. intros Hheap Hreturn. by rewrite (onclose_returned m a i false). Qed.

Lemma fire_reconnect_live (m : Manager) (k ms : nat) (u : string)
    (a : Address) (i : WebSocketInstance) :
  timers m !! k = Some (mkTimer ms (ReconnectTask u)) →
  connections m !! u = Some a → heap m !! a = Some i → isLive i = true →
  fire throws k m = withTimers (delete k (timers m)) m.
Proof.
  intros Htimer Hreg Hheap Hlive. unfold fire. rewrite Htimer. simpl.
  unfold connect. simpl. by rewrite Hreg, Hheap, Hlive.
Qed.

(** C10 (amended): when a connection closes uncleanly and its status
    subscribers return from the notification, the manager takes it out of
    the registry and schedules a reconnect 2000 ms later; the old
    instance keeps its subscribers and history but is no longer
    registered.  When a status subscriber throws, the handler ends
    there: the later status subscribers are not called, the registry is
    left as it is and no reconnect is scheduled.  When the reconnect
    fires and finds no live instance under the URL, it registers a
    brand-new instance whose subscriber set, status-subscriber set and
    history are empty; when it finds a live instance, registered in the
    meantime, it creates nothing.  Callbacks are never carried over:
    through any events after the close in which a callback does not call
    [subscribe], it is subscribed to no instance created after the close
    and is never called on behalf of one. *)
Theorem reconnect_discards_subscribers :
  (∀ m a i,
     heap m !! a = Some i →
     returning throws (closeCalls i) →
     let m' := onclose throws a false m in
     connections m' !! url i = None
     ∧ timers m' = timers m ++ [mkTimer 2000 (ReconnectTask (url i))]
     ∧ ∃ i1, heap m' !! a = Some i1
             ∧ readyState i1 = CLOSED
             ∧ subscribers i1 = subscribers i
             ∧ statusSubscribers i1 = statusSubscribers i
             ∧ lastMessages i1 = lastMessages i)
  ∧ (∀ m a i wasClean pre cb rest,
       heap m !! a = Some i →
       statusSubscribers i = pre ++ cb :: rest →
       let call c := StatusDelivered c (mkStatus false false (error i)) in
       returning throws (map call pre) →
       throws (outputs m ++ map call pre ++ [call cb]) = true →
       let m' := onclose throws a wasClean m in
       connections m' = connections m
       ∧ timers m' = timers m
       ∧ outputs m' = outputs m ++ map call pre ++ [call cb])
  ∧ (∀ m k ms u,
       timers m !! k = Some (mkTimer ms (ReconnectTask u)) →
       noLiveEntry u m →
       let a' := length (heap m) in
       let m' := fire throws k m in
       heap m !! a' = None
       ∧ heap m' = heap m ++ [newInstance u]
       ∧ connections m' !! u = Some a'
       ∧ heap m' !! a' = Some (newInstance u)
       ∧ subscribers (newInstance u) = []
       ∧ statusSubscribers (newInstance u) = []
       ∧ lastMessages (newInstance u) = [])
  ∧ (∀ m k ms u a i,
       timers m !! k = Some (mkTimer ms (ReconnectTask u)) →
       connections m !! u = Some a → heap m !! a = Some i → isLive i = true →
       fire throws k m = withTimers (delete k (timers m)) m)
  ∧ (∀ m a i,
       heap m !! a = Some i →
       returning throws (closeCalls i) →
       let a' := length (heap m) in
       let m' := fire throws (length (timers m)) (onclose throws a false m) in
       connections m' !! url i = Some a'
       ∧ heap m' !! a' = Some (newInstance (url i))
       ∧ ∃ i1, heap m' !! a = Some i1
               ∧ subscribers i1 = subscribers i
               ∧ lastMessages i1 = lastMessages i)
  ∧ (∀ m a i cb evs,
       closed m →
       heap m !! a = Some i →
       Forall (λ ev, ¬ subscribes cb ev) evs →
       let m' := run evs (onclose throws a false m) in
       (∀ a' i', length (heap m) ≤ a' → heap m' !! a' = Some i' →
                 cb ∉ subscribers i')
       ∧ ∀ src d, Delivered src cb d ∈ outputs m' →
                  sourceAddress src < length (heap m))
  ∧ (∀ evs, closed (run evs empty)).
Proof.
  split; [|split; [|split; [|split; [|split; [|split]]]]].
  - intros m a i Hheap Hreturn m'.
    destruct (onclose_unclean m a i Hheap Hreturn) as (Hreg & Htimers & Hheap').
    subst m'. rewrite Hreg, Htimers, Hheap'.
    split; [apply lookup_delete_eq|]. split; [done|].
    rewrite list_lookup_alter_eq, Hheap. simpl. by eexists.
  - intros m a i wasClean pre cb rest Hheap Hsubs call Hreturn Hthrows m'.
    subst m'. by rewrite (onclose_thrown m a i wasClean pre cb rest).
  - intros m k ms u Htimer Hdead a' m'.
    subst m'. rewrite (fire_reconnect m k ms u Htimer Hdead). simpl.
    split; [by apply lookup_ge_None|]. split; [done|].
    split; [apply lookup_insert_eq|]. split; [by apply list_lookup_middle|done].
  - intros m k ms u a i. apply fire_reconnect_live.
  - intros m a i Hheap Hreturn a' m'.
    destruct (onclose_unclean m a i Hheap Hreturn) as (Hreg & Htimers & Hheap').
    assert (length (heap (onclose throws a false m)) = length (heap m)) as Hlen
      by by rewrite Hheap', length_alter.
    subst m'. rewrite (fire_reconnect _ _ 2000 (url i)).
    + simpl. rewrite Hlen.
      split; [apply lookup_insert_eq|].
      split; [apply list_lookup_middle; by rewrite Hheap', length_alter|].
      rewrite lookup_app_l by (rewrite Hlen; by eapply lookup_lt_Some).
      rewrite Hheap', list_lookup_alter_eq, Hheap. simpl. by eexists.
    + rewrite Htimers. by apply list_lookup_middle.
    + intros a0 i0 Hreg0. by rewrite Hreg, lookup_delete_eq in Hreg0.
  - intros m a i cb evs Hm Hheap Hevs m'.
    assert (length (heap (step m (OnClose a false))) = length (heap m)) as Hlen.
    { unfold step, WsManager.step. by rewrite heap_onclose, length_alter. }
    pose proof (unattached_closed cb _ (closed_step m (OnClose a false) Hm))
      as Hstart.
    rewrite Hlen in Hstart.
    destruct (unattached_run _ cb evs _ Hstart Hevs) as (Hsubs & _ & Hnever).
    by split.
  - intros evs. apply closed_run, closed_empty.
Qed.

(** *** Replay *)







(** *** Invariants of the instances *)

Lemma step_mutation (m : Manager) (ev : Event) :
  ∃ H f t,
    heap (step m ev) = alter f t H
    ∧ (H = heap m ∨ ∃ u, H = heap m ++ [newInstance u])
    ∧ Mutation f.
Proof.
  destruct ev as [u|u cb replayLast|a cb|u cb|a cb|u d|u|a|a raw|a|a wasClean|a|k];
    unfold step, WsManager.step.
  - exists (heap (connect u m).2), id, 0. rewrite alter_id_heap.
    split; [done|]. split; [|constructor].
    destruct (heap_connect u m) as [->|[-> _]]; [by left|right; by exists u].
  - exists (heap (connect u m).2), (setSubscribers (setAdd cb)), (connect u m).1.
    split.
    { unfold subscribe. destruct (connect u m) as [a m1]. simpl.
      by destruct (replayLast && _). }
    split; [|constructor].
    destruct (heap_connect u m) as [->|[-> _]]; [by left|right; by exists u].
  - exists (heap m), (setSubscribers (setDelete cb)), a.
    split; [done|]. split; [by left|constructor].
  - exists (heap (connect u m).2), (setStatusSubscribers (setAdd cb)), (connect u m).1.
    split.
    { unfold subscribeToStatus. destruct (connect u m) as [a m1]. simpl.
      by destruct (_ !! a). }
    split; [|constructor].
    destruct (heap_connect u m) as [->|[-> _]]; [by left|right; by exists u].
  - exists (heap m), (setStatusSubscribers (setDelete cb)), a.
    split; [done|]. split; [by left|constructor].
  - exists (heap m), id, 0. rewrite alter_id_heap.
    split; [|split; [by left|constructor]].
    unfold send.
    by match goal with |- heap (match ?x with _ => _ end) = _ => destruct x end.
  - unfold disconnect. destruct (connections m !! u) as [a|].
    + exists (heap m), closing, a.
      split; [done|]. split; [by left|constructor].
    + exists (heap m), id, 0. rewrite alter_id_heap.
      split; [done|]. split; [by left|constructor].
  - exists (heap m), (λ i, setConnection OPEN true false None i), a.
    split; [unfold onopen; by rewrite heap_notify|]. split; [by left|constructor].
  - unfold onmessage. destruct (JSON_parse raw) as [d|] eqn:Hparse.
    + exists (heap m), (remember d), a.
      split.
      { destruct (heap (update a (remember d) m) !! a); [|done].
        by rewrite (proj1 (forEach_frame _ _)). }
      split; [by left|constructor].
    + exists (heap m), id, 0. rewrite alter_id_heap.
      split; [done|]. split; [by left|constructor].
  - exists (heap m),
      (λ i, setConnection CLOSED (isConnected i) false
              (Some (mkError "WebSocket connection error")) i), a.
    split; [unfold onerror; by rewrite heap_notify|]. split; [by left|constructor].
  - exists (heap m), (λ i, setConnection CLOSED false false (error i) i), a.
    split; [apply heap_onclose|]. split; [by left|constructor].
  - exists (heap m), closing, a.
    split; [done|]. split; [by left|constructor].
  - unfold fire. destruct (timers m !! k) as [[ms [a cb|u]]|]; simpl.
    + exists (heap m), id, 0. rewrite alter_id_heap.
      split.
      { destruct (heap m !! a); [|done]. by rewrite (proj1 (forEach_frame _ _)). }
      split; [by left|constructor].
    + exists (heap (connect u (withTimers (delete k (timers m)) m)).2), id, 0.
      rewrite alter_id_heap. split; [done|]. split; [|constructor].
      destruct (heap_connect u (withTimers (delete k (timers m)) m))
        as [->|[-> _]]; [by left|right; by exists u].
    + exists (heap m), id, 0. rewrite alter_id_heap.
      split; [done|]. split; [by left|constructor].
Qed.

(** A property that the new instance of [connect] has and that every
    update keeps holds of every instance the manager ever holds. *)
Lemma invariant_step (P : WebSocketInstance → Prop) (m : Manager) (ev : Event) :
  (∀ u, P (newInstance u)) → (∀ f i, Mutation f → P i → P (f i)) →
  Forall P (heap m) → Forall P (heap (step m ev)).
Proof.
  intros Hnew Hkeep Hm.
  destruct (step_mutation m ev) as (H & f & t & -> & HH & Hf).
  apply Forall_alter_heap; [intros i; by apply Hkeep|].
  destruct HH as [->|[u ->]]; [done|].
  apply Forall_app. split; [done|]. by apply Forall_singleton.
Qed.

Lemma invariant_run (P : WebSocketInstance → Prop) (evs : list Event) (m : Manager) :
  (∀ u, P (newInstance u)) → (∀ f i, Mutation f → P i → P (f i)) →
  Forall P (heap m) → Forall P (heap (run evs m)).
Proof.
  intros Hnew Hkeep. revert m. induction evs as [|ev evs IH]; intros m Hm; [done|].
  apply IH. by apply invariant_step.
Qed.


Lemma coherent_run (evs : list Event) (a : Address) (i : WebSocketInstance) :
  heap (run evs empty) !! a = Some i → coherent i.
Proof.
  intros Hi.
  eapply (Forall_lookup_1 coherent); [|done].
  apply invariant_run; [| |constructor].
  - by intros u.
  - intros f i'. apply coherent_mutation.
Qed.

(** *** Sharing a connection *)

Lemma connect_registers (u : string) (m : Manager) :
  connections (connect u m).2 !! u = Some (connect u m).1
  ∧ ∃ i, heap (connect u m).2 !! (connect u m).1 = Some i ∧ isLive i = true.
Proof.
  destruct (connect_cases u m) as [(Heq & Hreg & i & Hi & Hlive)|(Heq & _)].
  - rewrite Heq. simpl. split; [done|]. by exists i.
  - rewrite Heq. simpl. split; [apply lookup_insert_eq|].
    exists (newInstance u). split; [by apply list_lookup_middle|done].
Qed.

Lemma connect_live (u : string) (m : Manager) (a : Address) (i : WebSocketInstance) :
  connections m !! u = Some a → heap m !! a = Some i → isLive i = true →
  connect u m = (a, m).
Proof. intros Hreg Hi Hlive. unfold connect. by rewrite Hreg, Hi, Hlive. Qed.

Lemma connect_fresh (u : string) (m : Manager) :
  noLiveEntry u m →
  connect u m
  = (length (heap m),
     {| connections := <[u := length (heap m)]> (delete u (connections m));
        heap := heap m ++ [newInstance u];
        timers := timers m; outputs := outputs m |}).
Proof.
  intros Hnone.
  destruct (connect_cases u m) as [(_ & Hreg & i & Hi & Hlive)|(Heq & _)]; [|done].
  by rewrite (Hnone _ _ Hreg Hi) in Hlive.
Qed.

Lemma subscribe_shape (u : string) (cb : Callback) (replayLast : bool) (m : Manager) :
  let a := (connect u m).1 in
  (subscribe u cb replayLast m).1 = a
  ∧ connections (subscribe u cb replayLast m).2 = connections (connect u m).2
  ∧ heap (subscribe u cb replayLast m).2
    = alter (setSubscribers (setAdd cb)) a (heap (connect u m).2)
  ∧ outputs (subscribe u cb replayLast m).2 = outputs m.
Proof.
  unfold subscribe. pose proof (connect_outputs u m) as [Hout _].
  destruct (connect u m) as [a m1]. simpl in *.
  by destruct (replayLast && _).
Qed.

(** X18: [connect] registers the instance it hands out, which is open or
    connecting, and a second [connect] to the same URL hands out the same
    instance and creates nothing.  So two components that subscribe to one
    URL, one after the other, share one instance, which holds both
    callbacks. *)
Theorem connect_shares (u : string) (m : Manager) :
  let a := (connect u m).1 in
  let m1 := (connect u m).2 in
  connections m1 !! u = Some a
  ∧ (∃ i, heap m1 !! a = Some i ∧ isLive i = true)
  ∧ connect u m1 = (a, m1)
  ∧ length (heap m1) ≤ S (length (heap m))
  ∧ (∀ cb1 cb2 r1 r2,
       let s1 := subscribe u cb1 r1 m in
       let s2 := subscribe u cb2 r2 s1.2 in
       s1.1 = a ∧ s2.1 = a
       ∧ length (heap s2.2) = length (heap m1)
       ∧ ∃ i, heap s2.2 !! a = Some i ∧ cb1 ∈ subscribers i ∧ cb2 ∈ subscribers i).
Proof.
  intros a m1.
  destruct (connect_registers u m) as (Hreg & i & Hi & Hlive).
  fold a m1 in Hreg, Hi.
  split; [done|]. split; [by exists i|].
  split; [by apply (connect_live u m1 a i)|].
  split.
  { subst m1. destruct (heap_connect u m) as [->|[-> _]]; [lia|].
    rewrite length_app. simpl. lia. }
  intros cb1 cb2 r1 r2 s1 s2.
  destruct (subscribe_shape u cb1 r1 m) as (Ha1 & Hc1 & Hh1 & _).
  fold s1 a m1 in Ha1, Hc1, Hh1.
  assert (heap s1.2 !! a = Some (setSubscribers (setAdd cb1) i)) as Hi1.
  { by rewrite Hh1, list_lookup_alter_eq, Hi. }
  assert (connect u s1.2 = (a, s1.2)) as Hagain.
  { apply (connect_live u s1.2 a (setSubscribers (setAdd cb1) i)); [|done|done].
    by rewrite Hc1. }
  destruct (subscribe_shape u cb2 r2 s1.2) as (Ha2 & _ & Hh2 & _).
  fold s2 in Ha2, Hh2. rewrite Hagain in Ha2, Hh2. simpl in Ha2, Hh2.
  split; [done|]. split; [done|].
  split; [by rewrite Hh2, Hh1, !length_alter|].
  exists (setSubscribers (setAdd cb2) (setSubscribers (setAdd cb1) i)).
  split; [by rewrite Hh2, list_lookup_alter_eq, Hi1|].
  simpl. split; [|apply setAdd_mem].
  unfold setAdd at 1. case_bool_decide; [apply setAdd_mem|].
  apply elem_of_app. left. apply setAdd_mem.
Qed.



(** *** Unsubscribing *)



(** *** Status *)

Lemma step_statuses (m : Manager) (ev : Event) (cb : Callback) (s : Status) :
  StatusDelivered cb s ∈ outputs (step m ev) →
  StatusDelivered cb s ∈ outputs m
  ∨ ∃ a i, heap (step m ev) !! a = Some i ∧ s = statusOf i.
Proof.
  assert (∀ a m0,
            StatusDelivered cb s ∈ outputs (notifyStatusSubscribers throws a m0).1 →
            StatusDelivered cb s ∈ outputs m0
            ∨ ∃ i, heap m0 !! a = Some i ∧ s = statusOf i) as Hnotify.
  { intros a m0. destruct (notify_made a m0) as (made & -> & Hmade). simpl.
    intros [?|Hin]%elem_of_app; [by left|]. right.
    destruct (Hmade _ Hin) as (c & i & Hi & [= _ ->]). by exists i. }
  destruct ev as [u|u cb' replayLast|a cb'|u cb'|a cb'|u d|u|a|a raw|a|a wasClean|a|k];
    unfold step, WsManager.step.
  - rewrite (proj1 (connect_outputs u m)). by left.
  - rewrite (proj2 (proj2 (proj2 (subscribe_shape u cb' replayLast m)))). by left.
  - by left.
  - unfold subscribeToStatus. pose proof (connect_outputs u m) as [Hout _].
    destruct (connect u m) as [a m1]. simpl in *.
    destruct (alter _ a (heap m1) !! a) as [i|] eqn:Hi; simpl; rewrite ?Hout;
      [|by left].
    intros [?|[= _ ->]%list_elem_of_singleton]%elem_of_app; [by left|].
    right. by exists a, i.
  - by left.
  - unfold send.
    match goal with |- context [outputs (match ?x with _ => _ end)] => destruct x end;
      simpl; intros [?|[=]%list_elem_of_singleton]%elem_of_app; by left.
  - unfold disconnect. destruct (connections m !! u) as [a|]; [|by left]. simpl.
    intros [?|[=]%list_elem_of_singleton]%elem_of_app; by left.
  - unfold onopen. intros Hin.
    destruct (Hnotify _ _ Hin) as [?|(i & Hi & ->)]; [by left|].
    right. exists a, i. by rewrite heap_notify.
  - unfold onmessage. destruct (JSON_parse raw) as [d|]; [|by left].
    destruct (heap _ !! a) as [i|]; [|by left].
    destruct (forEach_outputs
                (map (λ c, Delivered (Live a) c d) (subscribers i))
                (update a (remember d) m))
      as (made & -> & Hmade).
    intros [?|Hin%Hmade]%elem_of_app; [by left|].
    by apply list_elem_of_fmap in Hin as (c & [=] & _).
  - unfold onerror. intros Hin.
    destruct (Hnotify _ _ Hin) as [?|(i & Hi & ->)]; [by left|].
    right. exists a, i. by rewrite heap_notify.
  - destruct (heap m !! a) as [i0|] eqn:Hi0;
      [|unfold onclose; rewrite Hi0; by left].
    rewrite heap_onclose.
    destruct (onclose_made a wasClean m i0 Hi0) as (made & thrown & _ & Hmade & ->).
    intros Hin.
    assert (StatusDelivered cb s ∈ outputs m ++ made) as [?|Hin']%elem_of_app
      by (by destruct thrown, wasClean); [by left|].
    right. destruct (Hmade _ Hin') as (c & i & Hi & [= _ ->]). by exists a, i.
  - by left.
  - unfold fire. destruct (timers m !! k) as [[ms [a cb'|u]]|]; simpl; [| |by left].
    + destruct (heap m !! a) as [i|]; [|by left].
      destruct (forEach_outputs
                  (map (λ msg, Delivered (Replayed a) cb' msg) (lastMessages i))
                  (withTimers (delete k (timers m)) m))
        as (made & -> & Hmade).
      simpl. intros [?|Hin%Hmade]%elem_of_app; [by left|].
      by apply list_elem_of_fmap in Hin as (c & [=] & _).
    + rewrite (proj1 (connect_outputs u _)). by left.
Qed.

Lemma coherent_status (i : WebSocketInstance) : coherent i → coherentStatus (statusOf i).
Proof. intros Hconnected Hc. by apply Hconnected. Qed.

Lemma statuses_run (evs : list Event) (m : Manager) :
  Forall coherent (heap m) →
  (∀ cb s, StatusDelivered cb s ∈ outputs m → coherentStatus s) →
  ∀ cb s, StatusDelivered cb s ∈ outputs (run evs m) → coherentStatus s.
Proof.
  revert m. induction evs as [|ev evs IH]; intros m Hheap Hout; [done|].
  assert (Forall coherent (heap (step m ev))) as Hheap'.
  { apply invariant_step; [by intros u|intros f i; apply coherent_mutation|done]. }
  apply (IH (step m ev) Hheap').
  intros cb s Hin. destruct (step_statuses m ev cb s Hin) as [?|(a & i & Hi & ->)].
  - by eapply Hout.
  - apply coherent_status. by eapply (Forall_lookup_1 coherent).
Qed.

(** X21: in every state the manager can reach, no instance is connected and
    connecting at once, and the socket of an instance that is connected
    is not in the connecting state any more: when it is still live, it is
    open.  The same holds of every status that a status subscriber has
    been called with and of what [getStatus] answers: none says
    connected and connecting. *)
Theorem status_coherent (evs : list Event) :
  let m := run evs empty in
  (∀ a i, heap m !! a = Some i → coherent i)
  ∧ (∀ cb s, StatusDelivered cb s ∈ outputs m → coherentStatus s)
  ∧ (∀ u, coherentStatus (getStatus u m))
  ∧ (∀ a i, heap m !! a = Some i → isConnected i = true → isLive i = true
            → readyState i = OPEN).
Proof.
  intros m.
  assert (∀ a i, heap m !! a = Some i → coherent i) as Hheap.
  { intros a i. apply coherent_run. }
  split; [done|].
  split.
  { apply statuses_run; [constructor|]. intros cb s Hin. by apply elem_of_nil in Hin. }
  split.
  { intros u. unfold getStatus.
    destruct (connections m !! u) as [a|]; [|done].
    destruct (heap m !! a) as [i|] eqn:Hi; [|done].
    apply coherent_status. by apply (Hheap a). }
  intros a i Hi Hconnected Hlive.
  destruct (Hheap a i Hi Hconnected) as [_ Hopened].
  unfold isLive in Hlive. by destruct (readyState i).
Qed.


(** X23: [send] changes nothing in the manager.  It hands the data to the
    socket that is registered under the URL when that socket is open, a
    string as it is and any other value as its JSON text, and it only
    warns otherwise: what is sent over a connection that is still
    connecting is dropped, not kept for later. *)
Theorem send_when_open (u : string) (d : json) (m : Manager) :
  let m1 := send JSON_stringify u d m in
  (connections m1 = connections m ∧ heap m1 = heap m ∧ timers m1 = timers m)
  ∧ (∀ a i, connections m !! u = Some a → heap m !! a = Some i →
            readyState i = OPEN →
            outputs m1 = outputs m ++ [SocketSent a (frameOf JSON_stringify d)])
  ∧ ((∀ a i, connections m !! u = Some a → heap m !! a = Some i →
             readyState i ≠ OPEN) →
     outputs m1 = outputs m ++ [Warned])
  ∧ (∀ text, frameOf JSON_stringify (JString text) = text)
  ∧ (noLiveEntry u m →
     let a := (connect u m).1 in
     let connecting := (connect u m).2 in
     let opened := onopen throws a connecting in
     outputs (send JSON_stringify u d connecting) = outputs connecting ++ [Warned]
     ∧ outputs (send JSON_stringify u d opened)
       = outputs opened ++ [SocketSent a (frameOf JSON_stringify d)]).
Proof.
  assert (∀ m0 a i, connections m0 !! u = Some a → heap m0 !! a = Some i →
                    readyState i = OPEN →
                    outputs (send JSON_stringify u d m0)
                    = outputs m0 ++ [SocketSent a (frameOf JSON_stringify d)])
    as Hopen.
  { intros m0 a i Hreg Hi Hrs. unfold send. by rewrite Hreg, Hi, Hrs. }
  assert (∀ m0, (∀ a i, connections m0 !! u = Some a → heap m0 !! a = Some i →
                        readyState i ≠ OPEN) →
                outputs (send JSON_stringify u d m0) = outputs m0 ++ [Warned])
    as Hdrop.
  { intros m0 Hno. unfold send.
    destruct (connections m0 !! u) as [a|]; [|done].
    destruct (heap m0 !! a) as [i|] eqn:Hi; [|done].
    specialize (Hno a i eq_refl Hi). by destruct (readyState i). }
  intros m1. split.
  { subst m1. unfold send.
    by match goal with |- context [match ?x with _ => _ end] => destruct x end. }
  split; [apply Hopen|]. split; [apply Hdrop|]. split; [done|].
  intros Hfresh a connecting opened.
  assert (connect u m = (a, connecting)) as Hconnect by (by destruct (connect u m)).
  rewrite (connect_fresh u m Hfresh) in Hconnect.
  injection Hconnect as Ha Hconnecting.
  assert (connections connecting !! u = Some a) as Hreg.
  { rewrite <- Hconnecting, <- Ha. simpl. apply lookup_insert_eq. }
  assert (heap connecting !! a = Some (newInstance u)) as Hi.
  { rewrite <- Hconnecting, <- Ha. simpl. by apply list_lookup_middle. }
  split.
  - apply Hdrop. intros a0 i0 Ha0 Hi0.
    rewrite Hreg in Ha0. injection Ha0 as <-.
    rewrite Hi in Hi0. by injection Hi0 as <-.
  - apply (Hopen opened a (setConnection OPEN true false None (newInstance u))).
    + subst opened. unfold onopen. by rewrite connections_notify.
    + subst opened. unfold onopen. rewrite heap_notify. simpl.
      by rewrite list_lookup_alter_eq, Hi.
    + done.
Qed.

(** *** Disconnecting *)

(** X24: [disconnect] of a URL that is not registered does nothing.
    Otherwise it closes the socket once and forgets the instance:
    [getStatus] answers the default status, [send] only warns, the next
    [connect] creates a new instance, and neither the clean close that
    follows nor a second [disconnect] schedules or changes anything.  The
    forgotten instance keeps its subscribers and its history. *)
Theorem disconnect_forgets (u : string) (m : Manager) :
  (connections m !! u = None → disconnect u m = m)
  ∧ (∀ a i,
       connections m !! u = Some a → heap m !! a = Some i →
       let m1 := disconnect u m in
       connections m1 !! u = None
       ∧ outputs m1 = outputs m ++ [SocketClosed a]
       ∧ timers m1 = timers m
       ∧ getStatus u m1 = noStatus
       ∧ (∀ d, outputs (send JSON_stringify u d m1) = outputs m1 ++ [Warned])
       ∧ (∃ i1, heap m1 !! a = Some i1
                ∧ subscribers i1 = subscribers i
                ∧ statusSubscribers i1 = statusSubscribers i
                ∧ lastMessages i1 = lastMessages i
                ∧ (readyState i ≠ CLOSED → readyState i1 = CLOSING))
       ∧ (connect u m1).1 = length (heap m)
       ∧ heap (connect u m1).2 = heap m1 ++ [newInstance u]
       ∧ timers (onclose throws a true m1) = timers m
       ∧ disconnect u m1 = m1).
Proof.
  split.
  { intros Hnone. unfold disconnect. by rewrite Hnone. }
  intros a i Hreg Hi m1.
  assert (m1 = withConnections (delete u (connections m))
                 (output [SocketClosed a] (update a closing m))) as Hm1.
  { subst m1. unfold disconnect. by rewrite Hreg. }
  assert (connections m1 !! u = None) as Hgone.
  { rewrite Hm1. simpl. apply lookup_delete_eq. }
  assert (heap m1 !! a = Some (closing i)) as Hi1.
  { rewrite Hm1. simpl. by rewrite list_lookup_alter_eq, Hi. }
  assert (noLiveEntry u m1) as Hfresh.
  { intros a0 i0 Ha0. by rewrite Hgone in Ha0. }
  split; [done|]. split; [by rewrite Hm1|]. split; [by rewrite Hm1|].
  split; [unfold getStatus; by rewrite Hgone|].
  split; [intros d; unfold send; by rewrite Hgone|].
  split.
  { exists (closing i). split; [done|].
    unfold closing. by destruct (readyState i). }
  rewrite (connect_fresh u m1 Hfresh). simpl.
  split; [rewrite Hm1; simpl; by rewrite length_alter|].
  split; [done|].
  split.
  { destruct (onclose_made a true m1 _ Hi1) as (made & thrown & _ & _ & ->).
    destruct thrown; simpl; by rewrite Hm1. }
  unfold disconnect. by rewrite Hgone.
Qed.

(** X25: the close event of a socket, when the status subscribers of its
    instance return from the notification, removes whatever is
    registered under its URL.  When another, live instance has been
    registered there in the meantime, that instance is forgotten although
    its socket stays open: [getStatus] answers the default status, and
    the next [connect] opens one more socket for the URL. *)
Theorem stale_close_unregisters (m : Manager) (a b : Address)
    (ia ib : WebSocketInstance) (wasClean : bool) :
  a ≠ b → heap m !! a = Some ia → heap m !! b = Some ib →
  connections m !! url ia = Some b → isLive ib = true →
  returning throws (closeCalls ia) →
  let m1 := onclose throws a wasClean m in
  connections m1 !! url ia = None
  ∧ heap m1 !! b = Some ib
  ∧ getStatus (url ia) m1 = noStatus
  ∧ (connect (url ia) m1).1 = length (heap m)
  ∧ heap (connect (url ia) m1).2 !! b = Some ib
  ∧ heap (connect (url ia) m1).2 !! length (heap m) = Some (newInstance (url ia)).
Proof.
  intros Hab Ha Hb Hreg Hlive Hreturn m1.
  assert (connections m1 !! url ia = None) as Hgone.
  { subst m1. rewrite (onclose_returned m a ia wasClean Ha Hreturn).
    destruct wasClean; simpl; apply lookup_delete_eq. }
  assert (heap m1 = alter (λ i, setConnection CLOSED false false (error i) i) a (heap m))
    as Hheap by apply heap_onclose.
  assert (heap m1 !! b = Some ib) as Hb1.
  { by rewrite Hheap, list_lookup_alter_ne. }
  assert (noLiveEntry (url ia) m1) as Hfresh.
  { intros a0 i0 Ha0. by rewrite Hgone in Ha0. }
  split; [done|]. split; [done|].
  split; [unfold getStatus; by rewrite Hgone|].
  rewrite (connect_fresh _ m1 Hfresh). simpl.
  assert (length (heap m1) = length (heap m)) as Hlen
    by (by rewrite Hheap, length_alter).
  split; [done|].
  split.
  - rewrite lookup_app_l; [done|]. by eapply lookup_lt_Some.
  - rewrite <- Hlen. by apply list_lookup_middle.
Qed.

(** *** The map of connections *)

Lemma step_connections (m : Manager) (ev : Event) (u : string) (a : Address) :
  connections (step m ev) !! u = Some a →
  connections m !! u = Some a
  ∨ ∃ i, heap (step m ev) !! a = Some i ∧ url i = u.
Proof.
  assert (∀ u0 f m',
            connections m' = connections (connect u0 m).2 →
            Mutation f →
            heap m' = alter f (connect u0 m).1 (heap (connect u0 m).2) →
            connections m' !! u = Some a →
            connections m !! u = Some a
            ∨ ∃ i, heap m' !! a = Some i ∧ url i = u) as Hconnect.
  { intros u0 f m' Hconns Hf Hheap Hreg. rewrite Hconns in Hreg.
    destruct (connect_connections u0 m u a Hreg) as [?|(-> & -> & Hnew)];
      [by left|].
    right. exists (f (newInstance u0)).
    rewrite Hheap, list_lookup_alter_eq, Hnew. split; [done|].
    by rewrite url_mutation. }
  destruct ev as [u0|u0 cb replayLast|a0 cb|u0 cb|a0 cb|u0 d|u0|a0|a0 raw|a0|a0 wasClean|a0|k];
    unfold step, WsManager.step; try by left.
  - apply (Hconnect u0 id); [done|constructor|by rewrite alter_id_heap].
  - destruct (subscribe_shape u0 cb replayLast m) as (_ & Hconns & Hheap & _).
    by apply (Hconnect u0 (setSubscribers (setAdd cb))); [|constructor|].
  - apply (Hconnect u0 (setStatusSubscribers (setAdd cb))); [|constructor|];
      unfold subscribeToStatus; destruct (connect u0 m) as [a1 m1]; simpl;
      by destruct (_ !! a1).
  - unfold send.
    match goal with |- context [connections (match ?x with _ => _ end)] => destruct x end;
      by left.
  - unfold disconnect. destruct (connections m !! u0) as [a1|]; [|by left].
    simpl. intros [_ ?]%lookup_delete_Some. by left.
  - unfold onopen. rewrite connections_notify. by left.
  - unfold onmessage. destruct (JSON_parse raw); [|by left].
    destruct (heap _ !! a0); [|by left].
    rewrite (proj1 (proj2 (forEach_frame _ _))). by left.
  - unfold onerror. rewrite connections_notify. by left.
  - destruct (heap m !! a0) as [i0|] eqn:Hi0;
      [|unfold onclose; rewrite Hi0; by left].
    destruct (onclose_made a0 wasClean m i0 Hi0) as (made & thrown & _ & _ & ->).
    destruct thrown, wasClean; simpl; try by left.
    + intros [_ Hreg]%lookup_delete_Some. by left.
    + intros [_ Hreg]%lookup_delete_Some. by left.
  - unfold fire. destruct (timers m !! k) as [[ms [a1 cb|u0]]|]; simpl; [| |by left].
    + destruct (heap m !! a1); [|by left].
      rewrite (proj1 (proj2 (forEach_frame _ _))). by left.
    + intros Hreg.
      destruct (connect_connections u0 (withTimers (delete k (timers m)) m) u a Hreg)
        as [?|(-> & -> & Hnew)]; [by left|].
      right. by exists (newInstance u0).
Qed.

Lemma registered_step (m : Manager) (ev : Event) :
  registered m → registered (step m ev).
Proof.
  intros Hm u a Hreg.
  destruct (step_connections m ev u a Hreg) as [Hold|?]; [|done].
  destruct (Hm u a Hold) as (i & Hi & Hurl).
  destruct (step_old m ev a i Hi) as (i' & Hi' & Hurl' & _).
  exists i'. split; [done|congruence].
Qed.

Lemma registered_run (evs : list Event) (m : Manager) :
  registered m → registered (run evs m).
Proof.
  revert m. induction evs as [|ev evs IH]; intros m Hm; [done|].
  apply IH. by apply registered_step.
Qed.

(** X26: in every state the manager can reach, a URL of the map leads to an
    instance that exists and was created for that URL, whose status is
    what [getStatus] answers; so no instance is registered under two
    URLs. *)
Theorem registry_consistent (evs : list Event) (u : string) (a : Address) :
  let m := run evs empty in
  connections m !! u = Some a →
  (∃ i, heap m !! a = Some i ∧ url i = u ∧ getStatus u m = statusOf i)
  ∧ (∀ u', connections m !! u' = Some a → u' = u).
Proof.
  intros m Hreg.
  assert (registered m) as Hm.
  { apply registered_run. intros u0 a0 Hnone. simpl in Hnone.
    by rewrite lookup_empty in Hnone. }
  destruct (Hm u a Hreg) as (i & Hi & Hurl).
  split.
  - exists i. split; [done|]. split; [done|].
    unfold getStatus. by rewrite Hreg, Hi.
  - intros u' Hreg'. destruct (Hm u' a Hreg') as (i' & Hi' & Hurl'). congruence.
Qed.

End Handlers.


(** C10 (as stated it fails): when a subscriber has joined the URL between
    the unclean close and the reconnect, the reconnect creates no
    instance, and the instance registered under the URL has a
    subscriber. *)
Lemma reconnect_finds_live_instance :
  timers resubscribedEarly !! 0 = Some (mkTimer 2000 (ReconnectTask "wss://alarms"))
  ∧ length (heap (fire allReturn 0 resubscribedEarly)) = length (heap resubscribedEarly)
  ∧ connections (fire allReturn 0 resubscribedEarly) !! "wss://alarms" = Some 1
  ∧ ∃ i, heap (fire allReturn 0 resubscribedEarly) !! 1 = Some i ∧ subscribers i = [9].
Proof.
  split; [vm_compute; reflexivity|]. split; [vm_compute; reflexivity|].
  split; [vm_compute; reflexivity|].
  exists (setSubscribers (setAdd 9) (newInstance "wss://alarms")).
  split; vm_compute; reflexivity.
Qed.

Lemma reconnect_discards_subscribers_witness :
  let m' := fire allReturn 0 (onclose allReturn 0 false fullManager) in
  connections m' !! "wss://alarms" = Some 1
  ∧ heap m' !! 1 = Some (newInstance "wss://alarms")
  ∧ ∃ i1, heap m' !! 0 = Some i1
          ∧ subscribers i1 = [7]
          ∧ lastMessages i1 = lastMessages fullInstance.
Proof.
  destruct (reconnect_discards_subscribers parseText stringifyText allReturn)
    as (_ & _ & _ & _ & Hreconnect & _).
  apply (Hreconnect fullManager 0 fullInstance); [vm_compute; reflexivity|].
  intros log call Hcall. reflexivity.
Defined.


Lemma bounded_history_witness :
  ∃ i', heap (onmessage parseText allReturn 0 "newest" fullManager) !! 0 = Some i'
        ∧ lastMessages i' = replicate 99 (JString "old") ++ [JString "newest"]
        ∧ length (lastMessages i') = 100.
Proof.
  destruct (bounded_history parseText stringifyText allReturn) as (_ & _ & Hevict & _).
  apply (Hevict fullManager 0 fullInstance "newest" (JString "newest"));
    vm_compute; reflexivity.
Defined.



Lemma status_coherent_witness :
  coherent {| readyState := CLOSED; url := "wss://alarms";
              subscribers := [7]; statusSubscribers := [];
              isConnected := true; isConnecting := false;
              error := Some (mkError "WebSocket connection error");
              lastMessages := []; maxMessages := 100 |}.
Proof.
  destruct (status_coherent parseText stringifyText allReturn
              [Subscribe "wss://alarms" 7 false; OnOpen 0; OnError 0])
    as (Hheap & _).
  apply (Hheap 0). vm_compute. reflexivity.
Defined.


Lemma send_when_open_witness :
  outputs (send stringifyText "wss://alarms" (JString "ping")
             (connect "wss://alarms" empty).2)
  = [Warned].
Proof.
  destruct (send_when_open stringifyText allReturn "wss://alarms" (JString "ping")
              empty)
    as (_ & _ & _ & _ & Hfresh).
  destruct Hfresh as [Hdropped _]; [|exact Hdropped].
  intros a i Hreg. vm_compute in Hreg. discriminate.
Defined.

Lemma disconnect_forgets_witness :
  getStatus "wss://alarms" (disconnect "wss://alarms" shared) = noStatus.
Proof.
  destruct (disconnect_forgets stringifyText allReturn "wss://alarms" shared)
    as [_ Hknown].
  destruct (Hknown 0
              {| readyState := OPEN; url := "wss://alarms";
                 subscribers := [7; 8]; statusSubscribers := [];
                 isConnected := true; isConnecting := false; error := None;
                 lastMessages := [JString "m1"]; maxMessages := 100 |})
    as (_ & _ & _ & Hstatus & _); [vm_compute; reflexivity..|].
  exact Hstatus.
Defined.

Lemma stale_close_unregisters_witness :
  connections (onclose allReturn 0 true reopened) !! "wss://alarms" = None
  ∧ (connect "wss://alarms" (onclose allReturn 0 true reopened)).1 = 2.
Proof.
  destruct (stale_close_unregisters allReturn reopened 0 1
              {| readyState := CLOSING; url := "wss://alarms";
                 subscribers := [7]; statusSubscribers := [];
                 isConnected := true; isConnecting := false; error := None;
                 lastMessages := []; maxMessages := 100 |}
              {| readyState := CONNECTING; url := "wss://alarms";
                 subscribers := [7]; statusSubscribers := [];
                 isConnected := false; isConnecting := true; error := None;
                 lastMessages := []; maxMessages := 100 |}
              true)
    as (Hgone & _ & _ & Hnew & _);
    [lia|vm_compute; reflexivity..|intros log call Hcall; reflexivity|].
  split; [exact Hgone|exact Hnew].
Defined.

Lemma registry_consistent_witness :
  ∃ i, heap reopened !! 1 = Some i
       ∧ url i = "wss://alarms"
       ∧ getStatus "wss://alarms" reopened = statusOf i.
Proof.
  destruct (registry_consistent parseText stringifyText allReturn
              [Subscribe "wss://alarms" 7 false; OnOpen 0; Disconnect "wss://alarms";
               Subscribe "wss://alarms" 7 false]
              "wss://alarms" 1) as [Hexists _]; [vm_compute; reflexivity|].
  exact Hexists.
Defined.

End WsManagerTheory.
